(** * A shallow embedding of the chess rules engine (class [ChessGame])

    The engine keeps a sparse square -> piece object, the side to move and
    a move history.  Squares are plain strings in the source, so they are
    strings here; the position is an association list whose order is the
    insertion order of the keys, which is the order a [for ... in] loop
    enumerates them in (every key the class writes is a square name, never
    an array index).  The object is read through its declared type, a
    string-indexed map of piece codes.  A plain object also answers to
    the names it inherits from [Object.prototype] ([inherited] below); a
    call that reads the position under such a name throws in the source,
    where the model reports an empty square: there it never reports a
    move or an accepted call, and the statement on rejected calls
    excludes those names.  Strings are sequences of code units below
    256, numbers are [option Z] with [None] for NaN. *)

From Stdlib Require Import String Ascii List ZArith Bool Lia DecimalString.
Import ListNotations.
Open Scope string_scope.
Open Scope Z_scope.

(** ** Strings and numbers the way the source uses them *)

(** [s[i]]: the character at index [i], or [undefined]. *)
Definition js_at (s : string) (i : nat) : option ascii := String.get i s.

(** A character or [undefined] spliced into a template literal. *)
Definition js_show (c : option ascii) : string :=
  match c with
  | Some c => String c ""
  | None => "undefined"
  end.

(** A number, [None] standing for NaN. *)
Definition num := option Z.

Definition num_add (x : num) (k : Z) : num :=
  match x with Some v => Some (v + k) | None => None end.

(** A number spliced into a template literal. *)
Definition show_num (x : num) : string :=
  match x with
  | Some v => NilZero.string_of_int (Z.to_int v)
  | None => "NaN"
  end.

Definition Z_of_ascii (c : ascii) : Z := Z.of_nat (nat_of_ascii c).

(** [s.charCodeAt(0)], NaN on the empty string. *)
Definition charCodeAt0 (s : string) : num :=
  match s with
  | String c _ => Some (Z_of_ascii c)
  | EmptyString => None
  end.

(** ["abcdefgh".indexOf(file)] for [file] a single character or
    [undefined]; -1 when absent. *)
Definition fileIndexOf (file : option ascii) : Z :=
  match file with
  | Some c =>
      let n := Z_of_ascii c in
      if (97 <=? n) && (n <=? 104) then n - 97 else -1
  | None => -1
  end.

(** [Number.parseInt(rank)] for [rank] a single character or [undefined]. *)
Definition parseInt (rank : option ascii) : num :=
  match rank with
  | Some c =>
      let n := Z_of_ascii c in
      if (48 <=? n) && (n <=? 57) then Some (n - 48) else None
  | None => None
  end.

(** ["abcdefgh"[i]]. *)
Definition fileChar (i : Z) : option ascii :=
  if i <? 0 then None else js_at "abcdefgh" (Z.to_nat i).

Definition in_board (i : Z) : bool := (0 <=? i) && (i <? 8).

(** [x >= 0 && x < 8] on a number that may be NaN. *)
Definition num_in_board (x : num) : bool :=
  match x with Some v => in_board v | None => false end.

Definition is_file (c : ascii) : bool :=
  let n := Z_of_ascii c in (97 <=? n) && (n <=? 104).

Definition is_rank (c : ascii) : bool :=
  let n := Z_of_ascii c in (49 <=? n) && (n <=? 56).

Definition is_piece_letter (c : ascii) : bool :=
  match c with
  | "K" | "Q" | "R" | "B" | "N" => true
  | _ => false
  end%char.

Definition opt_ascii_eqb (x y : option ascii) : bool :=
  match x, y with
  | Some c, Some d => Ascii.eqb c d
  | None, None => true
  | _, _ => false
  end.

(** ** Pieces, positions, games *)

Inductive Color := cW | cB.

Inductive PType := tK | tQ | tR | tB | tN | tP.

(** A piece code such as ["wK"]: the colour character, then the type
    character. *)
Record Piece := mkPiece { pcolor : Color; ptype : PType }.

(** [ChessPiece] includes [null]. *)
Definition ChessPiece := option Piece.

Definition wK := mkPiece cW tK.
Definition wQ := mkPiece cW tQ.
Definition wR := mkPiece cW tR.
Definition wB := mkPiece cW tB.
Definition wN := mkPiece cW tN.
Definition wP := mkPiece cW tP.
Definition bK := mkPiece cB tK.
Definition bQ := mkPiece cB tQ.
Definition bR := mkPiece cB tR.
Definition bB := mkPiece cB tB.
Definition bN := mkPiece cB tN.
Definition bP := mkPiece cB tP.

Definition color_eqb (x y : Color) : bool :=
  match x, y with
  | cW, cW | cB, cB => true
  | _, _ => false
  end.

Definition ptype_eqb (x y : PType) : bool :=
  match x, y with
  | tK, tK | tQ, tQ | tR, tR | tB, tB | tN, tN | tP, tP => true
  | _, _ => false
  end.

Definition piece_eqb (p q : Piece) : bool :=
  color_eqb (pcolor p) (pcolor q) && ptype_eqb (ptype p) (ptype q).

Definition opposite (c : Color) : Color :=
  match c with cW => cB | cB => cW end.

(** The second character of a piece code. *)
Definition type_letter (t : PType) : ascii :=
  match t with
  | tK => "K" | tQ => "Q" | tR => "R" | tB => "B" | tN => "N" | tP => "P"
  end%char.

(** The type a notation's leading letter names. *)
Definition type_of_letter (c : ascii) : PType :=
  match c with
  | "K" => tK | "Q" => tQ | "R" => tR | "B" => tB | "N" => tN | _ => tP
  end%char.

(** [ChessPosition]: the keys in insertion order, each with its value. *)
Definition ChessPosition := list (string * ChessPiece).

Record Move := mkMove {
  move_from : string;
  move_to : string;
  move_piece : ChessPiece;
  move_captured : ChessPiece;
  move_notation : string
}.

Record ChessGame := mkGame {
  position : ChessPosition;
  currentPlayer : Color;
  moveHistory : list Move
}.

(** [position[k]]: [None] when the key is absent. *)
Fixpoint pos_get (pos : ChessPosition) (k : string) : option ChessPiece :=
  match pos with
  | [] => None
  | (k', v) :: rest => if String.eqb k k' then Some v else pos_get rest k
  end.

(** [position[k] = v]: an existing key keeps its place, a new one goes
    last. *)
Fixpoint pos_set (pos : ChessPosition) (k : string) (v : ChessPiece)
  : ChessPosition :=
  match pos with
  | [] => [(k, v)]
  | (k', v') :: rest =>
      if String.eqb k k' then (k', v) :: rest
      else (k', v') :: pos_set rest k v
  end.

(** [delete position[k]]. *)
Definition pos_delete (pos : ChessPosition) (k : string) : ChessPosition :=
  filter (fun kv => negb (String.eqb k (fst kv))) pos.

Definition getInitialPosition : ChessPosition :=
  [ ("a8", Some bR); ("b8", Some bN); ("c8", Some bB); ("d8", Some bQ);
    ("e8", Some bK); ("f8", Some bB); ("g8", Some bN); ("h8", Some bR);
    ("a7", Some bP); ("b7", Some bP); ("c7", Some bP); ("d7", Some bP);
    ("e7", Some bP); ("f7", Some bP); ("g7", Some bP); ("h7", Some bP);
    ("a2", Some wP); ("b2", Some wP); ("c2", Some wP); ("d2", Some wP);
    ("e2", Some wP); ("f2", Some wP); ("g2", Some wP); ("h2", Some wP);
    ("a1", Some wR); ("b1", Some wN); ("c1", Some wB); ("d1", Some wQ);
    ("e1", Some wK); ("f1", Some wB); ("g1", Some wN); ("h1", Some wR) ].

(** The constructor. *)
Definition newGame : ChessGame :=
  mkGame getInitialPosition cW [].

(** The property names a plain object inherits from [Object.prototype].
    Under these [this.position[square]] is not [undefined] but the
    inherited member (a function, or the prototype itself for
    [__proto__]), so [getPiece] returns it and [piece.charAt] throws a
    [TypeError] in [makeMove] and [getValidMoves].  Each of them is longer
    than a square name. *)
Definition objectPrototypeKeys : list string :=
  [ "constructor"; "hasOwnProperty"; "isPrototypeOf";
    "propertyIsEnumerable"; "toLocaleString"; "toString"; "valueOf";
    "__proto__"; "__defineGetter__"; "__defineSetter__";
    "__lookupGetter__"; "__lookupSetter__" ].

Definition inherited (square : string) : bool :=
  existsb (String.eqb square) objectPrototypeKeys.

(** [this.position[square] || null], for a [square] that is not
    [inherited]: a key of the position that holds a piece gives the
    piece, every other string [null]. *)
Definition getPiece (g : ChessGame) (square : string) : ChessPiece :=
  match pos_get (position g) square with
  | Some (Some p) => Some p
  | _ => None
  end.

(** [/^[a-h][1-8]$/.test(square)]. *)
Definition isValidSquare (square : string) : bool :=
  match square with
  | String f (String r EmptyString) => is_file f && is_rank r
  | _ => false
  end.

Definition canMoveTo (g : ChessGame) (from to : string) : bool :=
  match getPiece g from with
  | None => false
  | Some fromPiece =>
      match getPiece g to with
      | Some toPiece => negb (color_eqb (pcolor toPiece) (pcolor fromPiece))
      | None => true
      end
  end.

(** [`${"abcdefgh"[fileIndex]}${rankIndex + 1}`]. *)
Definition squareName (fileIndex : Z) (rankIndex : num) : string :=
  js_show (fileChar fileIndex) ++ show_num (num_add rankIndex 1).

(** ** Move generator *)

Definition num_eqb (x : num) (k : Z) : bool :=
  match x with Some v => v =? k | None => false end.

Definition getPawnMoves (g : ChessGame) (square : string) (color : Color)
  : list string :=
  let file := js_at square 0 in
  let rank := js_at square 1 in
  let fileIndex := fileIndexOf file in
  let rankIndex := num_add (parseInt rank) (-1) in
  let direction := match color with cW => 1 | cB => -1 end in
  let startRank := match color with cW => 1 | cB => 6 end in
  let oneForward :=
    js_show file ++ show_num (num_add (num_add rankIndex 1) direction) in
  let forward :=
    match isValidSquare oneForward, getPiece g oneForward with
    | true, None =>
        oneForward ::
        (if num_eqb rankIndex startRank then
           let twoForward :=
             js_show file
             ++ show_num (num_add (num_add rankIndex 1) (direction * 2)) in
           match isValidSquare twoForward, getPiece g twoForward with
           | true, None => [twoForward]
           | _, _ => []
           end
         else [])
    | _, _ => []
    end in
  let captures :=
    flat_map
      (fun fileOffset =>
         let newFileIndex := fileIndex + fileOffset in
         if in_board newFileIndex then
           let captureSquare :=
             js_show (fileChar newFileIndex)
             ++ show_num (num_add (num_add rankIndex 1) direction) in
           if isValidSquare captureSquare then
             match getPiece g captureSquare with
             | Some targetPiece =>
                 if negb (color_eqb (pcolor targetPiece) color)
                 then [captureSquare] else []
             | None => []
             end
           else []
         else [])
      [-1; 1] in
  forward ++ captures.

(** The body of the [while] loop of [getLinearMoves]; one unit of fuel per
    iteration.  [getPiece(square)] is the moving piece, which the caller
    has already found. *)
Fixpoint linearWalk (fuel : nat) (g : ChessGame) (square : string)
  (dx dy : Z) (newFileIndex : Z) (newRankIndex : num) : list string :=
  match fuel with
  | O => []
  | S fuel' =>
      if in_board newFileIndex && num_in_board newRankIndex then
        let newSquare := squareName newFileIndex newRankIndex in
        match getPiece g newSquare with
        | None =>
            newSquare ::
            linearWalk fuel' g square dx dy
              (newFileIndex + dx) (num_add newRankIndex dy)
        | Some piece =>
            match getPiece g square with
            | Some own =>
                if negb (color_eqb (pcolor piece) (pcolor own))
                then [newSquare] else []
            | None => []
            end
        end
      else []
  end.

Definition getLinearMoves (g : ChessGame) (square : string) (dx dy : Z)
  : list string :=
  let file := js_at square 0 in
  let rank := js_at square 1 in
  let fileIndex := fileIndexOf file in
  let rankIndex := num_add (parseInt rank) (-1) in
  linearWalk 8 g square dx dy (fileIndex + dx) (num_add rankIndex dy).

Definition getRookMoves (g : ChessGame) (square : string) : list string :=
  flat_map (fun d => getLinearMoves g square (fst d) (snd d))
    [(0, 1); (0, -1); (1, 0); (-1, 0)].

Definition getBishopMoves (g : ChessGame) (square : string) : list string :=
  flat_map (fun d => getLinearMoves g square (fst d) (snd d))
    [(1, 1); (1, -1); (-1, 1); (-1, -1)].

Definition getQueenMoves (g : ChessGame) (square : string) : list string :=
  getRookMoves g square ++ getBishopMoves g square.

(** The destination at offset [(dx, dy)], when it is on the board. *)
Definition offsetSquare (fileIndex : Z) (rankIndex : num) (d : Z * Z)
  : list string :=
  let newFileIndex := fileIndex + fst d in
  let newRankIndex := num_add rankIndex (snd d) in
  if in_board newFileIndex && num_in_board newRankIndex
  then [squareName newFileIndex newRankIndex] else [].

Definition getKnightMoves (square : string) : list string :=
  let file := js_at square 0 in
  let rank := js_at square 1 in
  let fileIndex := fileIndexOf file in
  let rankIndex := num_add (parseInt rank) (-1) in
  flat_map (offsetSquare fileIndex rankIndex)
    [(-2, -1); (-2, 1); (-1, -2); (-1, 2); (1, -2); (1, 2); (2, -1); (2, 1)].

Definition getKingMoves (square : string) : list string :=
  let file := js_at square 0 in
  let rank := js_at square 1 in
  let fileIndex := fileIndexOf file in
  let rankIndex := num_add (parseInt rank) (-1) in
  flat_map
    (fun dx =>
       flat_map
         (fun dy =>
            if (dx =? 0) && (dy =? 0) then []
            else offsetSquare fileIndex rankIndex (dx, dy))
         [-1; 0; 1])
    [-1; 0; 1].

Definition getValidMoves (g : ChessGame) (square : string) : list string :=
  match getPiece g square with
  | None => []
  | Some piece =>
      if negb (color_eqb (pcolor piece) (currentPlayer g)) then []
      else
        let moves :=
          match ptype piece with
          | tP => getPawnMoves g square (pcolor piece)
          | tR => getRookMoves g square
          | tN => getKnightMoves square
          | tB => getBishopMoves g square
          | tQ => getQueenMoves g square
          | tK => getKingMoves square
          end in
        filter (fun move => isValidSquare move && canMoveTo g square move)
          moves
  end.

(** [validMoves.includes(to)]. *)
Definition includes (l : list string) (s : string) : bool :=
  existsb (String.eqb s) l.

(** ** Notation codec: generation *)

Definition findAmbiguousMoves (g : ChessGame) (from to : string)
  (piece : ChessPiece) : list string :=
  match piece with
  | None => []
  | Some p =>
      flat_map
        (fun kv =>
           let square := fst kv in
           match snd kv with
           | Some otherPiece =>
               if color_eqb (pcolor otherPiece) (pcolor p)
                  && ptype_eqb (ptype otherPiece) (ptype p)
                  && negb (String.eqb square from)
               then
                 if includes (getValidMoves g square) to then [square]
                 else []
               else []
           | None => []
           end)
        (position g)
  end.

Definition is_some {A : Type} (x : option A) : bool :=
  match x with Some _ => true | None => false end.

(** The [if (ambiguousMoves.length > 0)] block of [generateMoveNotation]:
    what is appended to the piece letter, given the squares the ambiguity
    resolver returned. *)
Definition disambiguator (from : string) (ambiguousMoves : list string)
  : string :=
  match ambiguousMoves with
  | [] => ""
  | _ =>
      let sameFile :=
        existsb (fun move => opt_ascii_eqb (js_at move 0) (js_at from 0))
          ambiguousMoves in
      let sameRank :=
        existsb (fun move => opt_ascii_eqb (js_at move 1) (js_at from 1))
          ambiguousMoves in
      if negb sameFile then js_show (js_at from 0)
      else if negb sameRank then js_show (js_at from 1)
      else from
  end.

Definition generateMoveNotation (g : ChessGame) (from to : string)
  (piece captured : ChessPiece) : string :=
  match piece with
  | None => ""
  | Some p =>
      match ptype p with
      | tP =>
          if is_some captured
             || negb (opt_ascii_eqb (js_at from 0) (js_at to 0))
          then js_show (js_at from 0) ++ "x" ++ to
          else to
      | type =>
          let notation := String (type_letter type) "" in
          let ambiguousMoves := findAmbiguousMoves g from to piece in
          let notation := notation ++ disambiguator from ambiguousMoves in
          let notation :=
            if is_some captured then notation ++ "x" else notation in
          notation ++ to
      end
  end.

(** ** Move executor *)

Definition num_abs_diff_is (x y : num) (k : Z) : bool :=
  match x, y with
  | Some a, Some c => Z.abs (a - c) =? k
  | _, _ => false
  end.

(** [piece[1] === "K" && Math.abs(from.charCodeAt(0) - to.charCodeAt(0))
    === 2]: the condition under which [makeMove] takes its castling
    branch. *)
Definition castles (p : Piece) (from to : string) : bool :=
  ptype_eqb (ptype p) tK
  && num_abs_diff_is (charCodeAt0 from) (charCodeAt0 to) 2.

(** The castling branch of [makeMove]: the rook of the king's rank goes
    from its home file to the file next to the king; the position gets
    whatever [position[rookFrom]] is, [undefined] included. *)
Definition relocateRook (pos : ChessPosition) (from to : string)
  : ChessPosition :=
  let isKingside := String.ltb from to in
  let rookFrom := (if isKingside then "h" else "a") ++ js_show (js_at from 1) in
  let rookTo := (if isKingside then "f" else "d") ++ js_show (js_at from 1) in
  pos_delete
    (pos_set pos rookTo
       (match pos_get pos rookFrom with Some v => v | None => None end))
    rookFrom.

(** [makeMove]: the boolean it returns and the game afterwards. *)
Definition makeMove (g : ChessGame) (from to : string) : bool * ChessGame :=
  match getPiece g from with
  | None => (false, g)
  | Some piece =>
      if negb (color_eqb (pcolor piece) (currentPlayer g)) then (false, g)
      else if negb (includes (getValidMoves g from) to) then (false, g)
      else
        let captured := getPiece g to in
        let notation := generateMoveNotation g from to (Some piece) captured in
        let pos1 :=
          if castles piece from to then relocateRook (position g) from to
          else position g in
        let notation :=
          if castles piece from to
          then (if String.ltb from to then "O-O" else "O-O-O")
          else notation in
        let pos2 := pos_delete (pos_set pos1 to (Some piece)) from in
        (true,
         mkGame pos2
           (match currentPlayer g with cW => cB | cB => cW end)
           (moveHistory g ++ [mkMove from to (Some piece) captured notation]))
  end.

(** [moveHistory[moveHistory.length - 1]?.notation || ""]. *)
Definition getLastMoveNotation (g : ChessGame) : string :=
  match rev (moveHistory g) with
  | m :: _ => move_notation m
  | [] => ""
  end.


(** ** Notation codec: parsing *)

(** The regular expressions of the source are sequences of character
    classes anchored at both ends: the string matches when it has exactly
    one character per class, each in its class. *)
Fixpoint matches (classes : list (ascii -> bool)) (s : string) : bool :=
  match classes, s with
  | [], EmptyString => true
  | cl :: classes', String c s' => cl c && matches classes' s'
  | _, _ => false
  end.

Definition is_x (c : ascii) : bool := Ascii.eqb c "x".

Definition is_glyph (c : ascii) : bool :=
  match c with
  | "+" | "#" | "!" | "?" => true
  | _ => false
  end%char.

(** White space, as [trim] and the class [\s] have it: of the code units
    below 256 these are tab, line feed, vertical tab, form feed, carriage
    return (9 to 13), space (32) and the no-break space (160). *)
Definition is_space (c : ascii) : bool :=
  let n := Z_of_ascii c in
  ((9 <=? n) && (n <=? 13)) || (n =? 32) || (n =? 160).

(** Drops the longest suffix whose characters all satisfy [p]:
    [s.replace(/[...]+$/, "")]. *)
Fixpoint strip_right (p : ascii -> bool) (s : string) : string :=
  match s with
  | EmptyString => EmptyString
  | String c s' =>
      match strip_right p s' with
      | EmptyString => if p c then EmptyString else String c EmptyString
      | r => String c r
      end
  end.

Fixpoint strip_left (p : ascii -> bool) (s : string) : string :=
  match s with
  | EmptyString => EmptyString
  | String c s' => if p c then strip_left p s' else s
  end.

Definition trim (s : string) : string :=
  strip_right is_space (strip_left is_space s).

(** [s.slice(n)]. *)
Fixpoint js_slice (n : nat) (s : string) : string :=
  match n, s with
  | O, _ => s
  | S n', String _ s' => js_slice n' s'
  | S _, EmptyString => EmptyString
  end.

(** What the pattern cascade of [parseAlgebraicNotation] extracts; an
    absent file or rank constraint is the empty string there, [None]
    here. *)
Record Parsed := mkParsed {
  pieceType : PType;
  fromFile : option ascii;
  fromRank : option ascii;
  isCapture : bool;
  toSquare : string
}.

Definition letter_at0 (notation : string) : PType :=
  match js_at notation 0 with
  | Some c => type_of_letter c
  | None => tP
  end.

Definition parsePattern (notation : string) : option Parsed :=
  if matches [is_file; is_rank] notation then
    Some (mkParsed tP None None false notation)
  else if matches [is_file; is_x; is_file; is_rank] notation then
    Some (mkParsed tP (js_at notation 0) None true (js_slice 2 notation))
  else if matches [is_piece_letter; is_file; is_rank] notation then
    Some (mkParsed (letter_at0 notation) None None false
            (js_slice 1 notation))
  else if matches [is_piece_letter; is_x; is_file; is_rank] notation then
    Some (mkParsed (letter_at0 notation) None None true
            (js_slice 2 notation))
  else if matches [is_piece_letter; is_file; is_file; is_rank] notation then
    Some (mkParsed (letter_at0 notation) (js_at notation 1) None false
            (js_slice 2 notation))
  else if matches [is_piece_letter; is_rank; is_file; is_rank] notation then
    Some (mkParsed (letter_at0 notation) None (js_at notation 1) false
            (js_slice 2 notation))
  else if matches [is_piece_letter; is_file; is_x; is_file; is_rank] notation
  then
    Some (mkParsed (letter_at0 notation) (js_at notation 1) None true
            (js_slice 3 notation))
  else if matches [is_piece_letter; is_rank; is_x; is_file; is_rank] notation
  then
    Some (mkParsed (letter_at0 notation) None (js_at notation 1) true
            (js_slice 3 notation))
  else None.

(** [fromFile && square[0] !== fromFile] and its rank counterpart. *)
Definition constraint_fails (c : option ascii) (actual : option ascii)
  : bool :=
  match c with
  | Some _ => negb (opt_ascii_eqb actual c)
  | None => false
  end.

(** The en-passant branch of the capture check: the target square is
    empty and the piece sought is a pawn. *)
Definition enPassantPattern (g : ChessGame) (toSquare : string) : bool :=
  let file := js_at toSquare 0 in
  let rank := js_at toSquare 1 in
  let captureRank :=
    match currentPlayer g with cW => "5" | cB => "4" end in
  if opt_ascii_eqb rank
       (Some (match currentPlayer g with cW => "6" | cB => "3" end)%char)
  then
    let enPassantSquare := js_show file ++ captureRank in
    match getPiece g enPassantSquare with
    | Some enPassantPiece =>
        negb (color_eqb (pcolor enPassantPiece) (currentPlayer g))
        && ptype_eqb (ptype enPassantPiece) tP
    | None => false
    end
  else false.

(** One iteration of the loop of [findCandidatePieces]: whether [square],
    holding [piece], is pushed. *)
Definition isCandidate (g : ChessGame) (q : Parsed) (square : string)
  (piece : ChessPiece) : bool :=
  match piece with
  | None => false
  | Some pc =>
      if negb (piece_eqb pc (mkPiece (currentPlayer g) (pieceType q)))
      then false
      else if constraint_fails (fromFile q) (js_at square 0) then false
      else if constraint_fails (fromRank q) (js_at square 1) then false
      else if negb (includes (getValidMoves g square) (toSquare q))
      then false
      else
        let targetPiece := getPiece g (toSquare q) in
        if isCapture q then
          match targetPiece with
          | Some t => negb (color_eqb (pcolor t) (currentPlayer g))
          | None =>
              ptype_eqb (pieceType q) tP && enPassantPattern g (toSquare q)
          end
        else negb (is_some targetPiece)
  end.

Definition findCandidatePieces (g : ChessGame) (q : Parsed) : list string :=
  map fst (filter (fun kv => isCandidate g q (fst kv) (snd kv)) (position g)).

Definition homeRank (c : Color) : string :=
  match c with cW => "1" | cB => "8" end.

Definition parseAlgebraicNotation (g : ChessGame) (notation : string)
  : option (string * string) :=
  let notation := trim (strip_right is_glyph notation) in
  if String.eqb notation "O-O" || String.eqb notation "0-0" then
    let rank := homeRank (currentPlayer g) in
    Some ("e" ++ rank, "g" ++ rank)
  else if String.eqb notation "O-O-O" || String.eqb notation "0-0-0" then
    let rank := homeRank (currentPlayer g) in
    Some ("e" ++ rank, "c" ++ rank)
  else
    match parsePattern notation with
    | None => None
    | Some q =>
        match findCandidatePieces g q with
        | [] => None
        | from :: _ => Some (from, toSquare q)
        end
    end.

(** ** Running a game *)

(** The game after a list of requested moves, failed ones included, and
    how many of them succeeded. *)
Fixpoint play (g : ChessGame) (ms : list (string * string))
  : ChessGame * nat :=
  match ms with
  | [] => (g, O)
  | (from, to) :: rest =>
      let r := makeMove g from to in
      let r' := play (snd r) rest in
      (fst r', ((if fst r then 1 else 0) + snd r')%nat)
  end.

(** The states the class can be in: the constructor's, and what a
    successful [makeMove] turns such a state into. *)
Inductive reachable : ChessGame -> Prop :=
| reach_new : reachable newGame
| reach_move g from to g' :
    reachable g -> makeMove g from to = (true, g') -> reachable g'.

(** The representation invariant of the position object: no key twice,
    every key a square name. *)
Definition wf_position (pos : ChessPosition) : Prop :=
  NoDup (map fst pos) /\
  Forall (fun kv => isValidSquare (fst kv) = true) pos.

Definition piece_is (p : Piece) (kv : string * ChessPiece) : bool :=
  match snd kv with
  | Some q => piece_eqb q p
  | None => false
  end.

(** How many squares hold piece [p]. *)
Definition countPiece (p : Piece) (pos : ChessPosition) : nat :=
  length (filter (piece_is p) pos).

(** ** Objects and references

    [clone] is about which objects two games share, so here the position
    objects, the history arrays and the [ChessGame] objects live in a
    store and a game is a reference into it.  [makeMove] mutates the
    position and history objects its game refers to, in place. *)

Record GameObj := mkObj {
  obj_position : nat;
  obj_currentPlayer : Color;
  obj_moveHistory : nat
}.

Record Heap := mkHeap {
  positions : list ChessPosition;
  histories : list (list Move);
  objects : list GameObj
}.

Fixpoint list_set {A : Type} (i : nat) (x : A) (l : list A) : list A :=
  match l, i with
  | [], _ => []
  | _ :: l', O => x :: l'
  | y :: l', S i' => y :: list_set i' x l'
  end.

Definition deref_obj (h : Heap) (a : nat) : GameObj :=
  nth a (objects h) (mkObj O cW O).

(** The game a reference denotes in the store. *)
Definition snapshot (h : Heap) (a : nat) : ChessGame :=
  let o := deref_obj h a in
  mkGame (nth (obj_position o) (positions h) [])
    (obj_currentPlayer o)
    (nth (obj_moveHistory o) (histories h) []).

(** [new ChessGame()]: the new store and the reference to the new game. *)
Definition heap_new (h : Heap) : Heap * nat :=
  (mkHeap (positions h ++ [getInitialPosition])
     (histories h ++ [[]])
     (objects h ++ [mkObj (length (positions h)) cW (length (histories h))]),
   length (objects h)).

Definition heap_getPiece (h : Heap) (a : nat) (square : string)
  : ChessPiece :=
  getPiece (snapshot h a) square.

(** [makeMove] on the game [a] refers to: the position and history
    objects are updated where they are, the turn in the game object. *)
Definition heap_makeMove (h : Heap) (a : nat) (from to : string)
  : bool * Heap :=
  let o := deref_obj h a in
  let r := makeMove (snapshot h a) from to in
  (fst r,
   mkHeap
     (list_set (obj_position o) (position (snd r)) (positions h))
     (list_set (obj_moveHistory o) (moveHistory (snd r)) (histories h))
     (list_set a
        (mkObj (obj_position o) (currentPlayer (snd r)) (obj_moveHistory o))
        (objects h))).

(** [clone]: a new game whose position and history fields are then set
    to fresh copies ([{ ...this.position }], [[...this.moveHistory]]). *)
Definition heap_clone (h : Heap) (a : nat) : Heap * nat :=
  let this := snapshot h a in
  let h1 := fst (heap_new h) in
  let c := snd (heap_new h) in
  (mkHeap (positions h1 ++ [position this])
     (histories h1 ++ [moveHistory this])
     (list_set c
        (mkObj (length (positions h1)) (currentPlayer this)
           (length (histories h1)))
        (objects h1)),
   c).

Fixpoint heap_play (h : Heap) (a : nat) (ms : list (string * string))
  : Heap :=
  match ms with
  | [] => h
  | (from, to) :: rest => heap_play (snd (heap_makeMove h a from to)) a rest
  end.

(** A reference to a game whose position object exists. *)
Definition valid_ref (h : Heap) (a : nat) : Prop :=
  (a < length (objects h))%nat /\
  (obj_position (deref_obj h a) < length (positions h))%nat.

(** ** Squares by coordinates *)

(** The name of the square in file [f] (0 for a) and rank row [r] (0 for
    rank 1). *)
Definition sq (f r : Z) : string := squareName f (Some r).

Definition all_squares : list string :=
  flat_map (fun f => map (fun r => sq f r) [0; 1; 2; 3; 4; 5; 6; 7])
    [0; 1; 2; 3; 4; 5; 6; 7].

(** An alternative to the mover in the sense of the ambiguity resolver:
    another square with a piece of the same colour and type from which
    [to] is a valid move. *)
Definition alternative (g : ChessGame) (from to : string) (p : Piece)
  (square : string) : Prop :=
  square <> from /\
  (exists q, getPiece g square = Some q
             /\ pcolor q = pcolor p /\ ptype q = ptype p) /\
  In to (getValidMoves g square).

(** Example games, each reached from the constructor by the moves
    listed. *)
Definition game_after (ms : list (string * string)) : ChessGame :=
  fst (play newGame ms).

Definition knights_b1_d2 : ChessGame :=
  game_after [("d2", "d3"); ("a7", "a6"); ("g1", "f3"); ("a6", "a5");
              ("f3", "d2"); ("a5", "a4")].

Definition knights_b1_e2 : ChessGame :=
  game_after [("e2", "e3"); ("a7", "a6"); ("g1", "e2"); ("a6", "a5")].

Definition en_passant_game : ChessGame :=
  game_after [("e2", "e4"); ("a7", "a6"); ("e4", "e5"); ("d7", "d5")].

Definition pawn_on_a7 : ChessGame :=
  game_after [("a2", "a4"); ("b7", "b5"); ("a4", "b5"); ("a7", "a6");
              ("b5", "a6"); ("h7", "h6"); ("a6", "a7"); ("h6", "h5")].

(** What a move that [makeMove] accepts leaves behind. *)
Definition moved (g : ChessGame) (from to : string) (p : Piece)
  : ChessGame :=
  mkGame
    (pos_delete
       (pos_set
          (if castles p from to then relocateRook (position g) from to
           else position g)
          to (Some p))
       from)
    (opposite (currentPlayer g))
    (moveHistory g
     ++ [mkMove from to (Some p) (getPiece g to)
           (if castles p from to
            then (if String.ltb from to then "O-O" else "O-O-O")
            else generateMoveNotation g from to (Some p) (getPiece g to))]).

(** A decision procedure for [wf_position]. *)
Fixpoint nodupb (l : list string) : bool :=
  match l with
  | [] => true
  | x :: l' => negb (includes l' x) && nodupb l'
  end.

Definition wf_positionb (pos : ChessPosition) : bool :=
  nodupb (map fst pos) && forallb (fun kv => isValidSquare (fst kv)) pos.

(** No piece other than a pawn stands on more than two squares. *)
Definition few_pieces (pos : ChessPosition) : Prop :=
  forall q, ptype q <> tP -> (countPiece q pos <= 2)%nat.

(** The direction a pawn of colour [c] advances in, and the rank row it
    starts from. *)
Definition direction (c : Color) : Z :=
  match c with cW => 1 | cB => -1 end.

Definition startRank (c : Color) : Z :=
  match c with cW => 1 | cB => 6 end.

(** The last character of a string, if any. *)
Fixpoint last_char (s : string) : option ascii :=
  match s with
  | EmptyString => None
  | String c EmptyString => Some c
  | String _ s' => last_char s'
  end.

(** At most [k] more squares of the board lie ahead of [(f, r)] in the
    direction [(dx, dy)]. *)
Definition walk_bound (dx dy : Z) (f : Z) (r : num) (k : nat) : Prop :=
  (0 < dx /\ 8 - f <= Z.of_nat k)
  \/ (dx < 0 /\ f + 1 <= Z.of_nat k)
  \/ (0 < dy /\ forall v, r = Some v -> 8 - v <= Z.of_nat k)
  \/ (dy < 0 /\ forall v, r = Some v -> v + 1 <= Z.of_nat k).

(** ** Notions used to state the properties of the move generator *)

(** The destination is empty or holds a piece of the other colour. *)
Definition free_for (g : ChessGame) (p : Piece) (t : string) : Prop :=
  forall q, getPiece g t = Some q -> pcolor q <> pcolor p.

Definition knight_step (dx dy : Z) : Prop :=
  (Z.abs dx = 1 /\ Z.abs dy = 2) \/ (Z.abs dx = 2 /\ Z.abs dy = 1).

Definition king_step (dx dy : Z) : Prop :=
  Z.abs dx <= 1 /\ Z.abs dy <= 1 /\ (dx <> 0 \/ dy <> 0).

(** The unit steps along which a rook, a bishop or a queen slides. *)
Definition line_step (t : PType) (dx dy : Z) : Prop :=
  match t with
  | tR => (dx = 0 /\ Z.abs dy = 1) \/ (Z.abs dx = 1 /\ dy = 0)
  | tB => Z.abs dx = 1 /\ Z.abs dy = 1
  | tQ => king_step dx dy
  | _ => False
  end.

(** [t] is [k] steps of [(dx, dy)] away from the square [(f, r)], every
    square up to it is on the board and every square before it is
    empty. *)
Definition slides (g : ChessGame) (f r dx dy : Z) (t : string) : Prop :=
  exists k,
    1 <= k
    /\ (forall j, 1 <= j <= k ->
                  0 <= f + j * dx < 8 /\ 0 <= r + j * dy < 8)
    /\ (forall j, 1 <= j < k ->
                  getPiece g (sq (f + j * dx) (r + j * dy)) = None)
    /\ t = sq (f + k * dx) (r + k * dy).

(** The requests of [ms] that [makeMove] accepts, played in order from
    [g]. *)
Fixpoint accepted (g : ChessGame) (ms : list (string * string))
  : list (string * string) :=
  match ms with
  | [] => []
  | (from, to) :: rest =>
      let r := makeMove g from to in
      (if fst r then [(from, to)] else []) ++ accepted (snd r) rest
  end.

(** How many entries of a position have a value satisfying [F]. *)
Definition countValues (F : ChessPiece -> bool) (pos : ChessPosition) : nat :=
  length (filter (fun kv => F (snd kv)) pos).

Definition holds (q : Piece) (v : ChessPiece) : bool :=
  match v with
  | Some x => piece_eqb x q
  | None => false
  end.

(** [move.replace(/[+#!?]+$/, "").trim()]: how [parseAlgebraicNotation]
    normalises its argument and how the trainer normalises the two moves
    it compares ([normalizeMove]). *)
Definition normalizeMove (move : string) : string :=
  trim (strip_right is_glyph move).

(** Every character of [s] satisfies [p]. *)
Fixpoint all_chars (p : ascii -> bool) (s : string) : bool :=
  match s with
  | EmptyString => true
  | String c s' => p c && all_chars p s'
  end.

(** The four castling notations of the parser. *)
Definition castlingNotations : list string :=
  ["O-O"; "0-0"; "O-O-O"; "0-0-0"].

(** [makeComputerMove] of the trainer, as far as the game goes: the
    notation is parsed against the current game, the move is made on a
    clone, and the clone becomes the game when the move succeeded. *)
Definition makeComputerMove (currentGame : ChessGame)
  (moveNotation : string) : ChessGame :=
  match parseAlgebraicNotation currentGame moveNotation with
  | Some (from, to) =>
      let r := makeMove currentGame from to in
      if fst r then snd r else currentGame
  | None => currentGame
  end.

(** A reference to a game whose position and history objects exist. *)
Definition valid_game_ref (h : Heap) (a : nat) : Prop :=
  (a < length (objects h))%nat
  /\ (obj_position (deref_obj h a) < length (positions h))%nat
  /\ (obj_moveHistory (deref_obj h a) < length (histories h))%nat.

(** Two games that share neither their position nor their history. *)
Definition separate (h : Heap) (x y : nat) : Prop :=
  x <> y
  /\ obj_position (deref_obj h x) <> obj_position (deref_obj h y)
  /\ obj_moveHistory (deref_obj h x) <> obj_moveHistory (deref_obj h y).

(** ** The board component

    The board keeps the selected square and its valid moves, and a
    record of the pieces to draw that it rebuilds from the game. *)

(** The record the board's effect builds: for each file from a to h and
    each rank from 1 to 8, the piece [getPiece] reports on [file + rank],
    when there is one. *)
Definition boardPosition (g : ChessGame) : list (string * Piece) :=
  flat_map
    (fun file =>
       flat_map
         (fun rank =>
            let square := file ++ rank in
            match getPiece g square with
            | Some piece => [(square, piece)]
            | None => []
            end)
         ["1"; "2"; "3"; "4"; "5"; "6"; "7"; "8"])
    ["a"; "b"; "c"; "d"; "e"; "f"; "g"; "h"].

(** [boardPosition[square]]. *)
Fixpoint board_get (bp : list (string * Piece)) (square : string)
  : option Piece :=
  match bp with
  | [] => None
  | (k, v) :: rest => if String.eqb square k then Some v else board_get rest square
  end.

(** [isLightSquare(file, rank)] on the two characters [getSquareColor]
    splits a square name into: [(fileIndex + rankIndex) % 2 === 1], the
    remainder having the sign of the dividend and NaN never equal to 1. *)
Definition isLightSquare (file rank : option ascii) : bool :=
  match parseInt rank with
  | Some rankIndex => Z.rem (fileIndexOf file + rankIndex) 2 =? 1
  | None => false
  end.

Definition squareIsLight (square : string) : bool :=
  isLightSquare (js_at square 0) (js_at square 1).

Record BoardState := mkBoardState {
  selectedSquare : option string;
  validMoves : list string
}.

(** [piece && piece[0] === game.currentPlayer]. *)
Definition ownPiece (g : ChessGame) (square : string) : bool :=
  match getPiece g square with
  | Some piece => color_eqb (pcolor piece) (currentPlayer g)
  | None => false
  end.

(** A string or [null] used as a condition. *)
Definition truthy (s : option string) : bool :=
  match s with
  | Some EmptyString => false
  | Some _ => true
  | None => false
  end.

(** [handleSquareClick]: the board state after the click and the move
    handed to [onMove], if any. *)
Definition handleSquareClick (g : ChessGame) (st : BoardState)
  (square : string) : BoardState * option (string * string) :=
  match selectedSquare st with
  | Some sel =>
      if truthy (Some sel) then
        if String.eqb sel square then (mkBoardState None [], None)
        else if includes (validMoves st) square then
          (mkBoardState None [], Some (sel, square))
        else if ownPiece g square then
          (mkBoardState (Some square) (getValidMoves g square), None)
        else (mkBoardState None [], None)
      else if ownPiece g square then
        (mkBoardState (Some square) (getValidMoves g square), None)
      else (st, None)
  | None =>
      if ownPiece g square then
        (mkBoardState (Some square) (getValidMoves g square), None)
      else (st, None)
  end.

(** What the board state is meant to be for a game: nothing selected and
    no move shown, or a square of the side to move selected and its valid
    moves shown. *)
Definition board_consistent (g : ChessGame) (st : BoardState) : Prop :=
  match selectedSquare st with
  | Some sel => ownPiece g sel = true /\ validMoves st = getValidMoves g sel
  | None => validMoves st = []
  end.

(** ** The trainer page *)

(** [handleMove] outside practice: the move is tried on a clone; when it
    succeeds the clone becomes the game and its last notation is appended
    to the displayed history. *)
Definition handleMove_freePlay (st : ChessGame * list string)
  (from to : string) : ChessGame * list string :=
  let r := makeMove (fst st) from to in
  if fst r then (snd r, (snd st ++ [getLastMoveNotation (snd r)])%list)
  else st.

Record Variation := mkVariation {
  variation_id : string;
  variation_name : string;
  variation_moves : list string
}.

Record Opening := mkOpening {
  opening_id : string;
  opening_name : string;
  opening_variations : list Variation
}.

Definition is_nil {A : Type} (l : list A) : bool :=
  match l with [] => true | _ => false end.

(** [deleteVariation]: the variation is filtered out of every opening
    with the given id, then the openings left without variations are
    dropped. *)
Definition deleteVariation (openings : list Opening)
  (openingId variationId : string) : list Opening :=
  filter (fun opening => negb (is_nil (opening_variations opening)))
    (map
       (fun opening =>
          if String.eqb (opening_id opening) openingId then
            mkOpening (opening_id opening) (opening_name opening)
              (filter
                 (fun v => negb (String.eqb (variation_id v) variationId))
                 (opening_variations opening))
          else opening)
       openings).

(** ** The practice controls: a set of selected variation ids, kept in
    insertion order like a [Set]. *)

Definition set_has (s : list string) (x : string) : bool := includes s x.

Definition set_add (s : list string) (x : string) : list string :=
  if set_has s x then s else (s ++ [x])%list.

Definition set_delete (s : list string) (x : string) : list string :=
  filter (fun y => negb (String.eqb x y)) s.

Definition handleVariationToggle (selectedVariations : list string)
  (variationId : string) (checked : bool) : list string :=
  if checked then set_add selectedVariations variationId
  else set_delete selectedVariations variationId.

Definition handleOpeningToggle (selectedVariations : list string)
  (opening : Opening) (checked : bool) : list string :=
  fold_left
    (fun newSelected variation =>
       if checked then set_add newSelected (variation_id variation)
       else set_delete newSelected (variation_id variation))
    (opening_variations opening) selectedVariations.

Definition getSelectedVariationObjects (openings : list Opening)
  (selectedVariations : list string) : list Variation :=
  flat_map
    (fun opening =>
       filter (fun variation =>
                 set_has selectedVariations (variation_id variation))
         (opening_variations opening))
    openings.

(** ** The notation importer

    [parseNotation] is a chain of global regular-expression replacements
    followed by [trim], [split(" ")] and a filter.  A global replacement
    scans the string from the left; where the expression matches, the
    match is replaced and the scan resumes after it; elsewhere the
    character is kept.  None of the expressions matches the empty string
    before the end of the input. *)

(** [replaceAll matchAt replacement skip s]: [matchAt] gives the length
    of the match that starts a string, if there is one; [skip] counts the
    characters of the current match still to be dropped. *)
Fixpoint replaceAll (matchAt : string -> option nat) (replacement : string)
  (skip : nat) (s : string) : string :=
  match s with
  | EmptyString => EmptyString
  | String c s' =>
      match skip with
      | S k => replaceAll matchAt replacement k s'
      | O =>
          match matchAt (String c s') with
          | Some (S n) => replacement ++ replaceAll matchAt replacement n s'
          | _ => String c (replaceAll matchAt replacement O s')
          end
      end
  end.

(** The length of the longest prefix whose characters satisfy [p]. *)
Fixpoint count_while (p : ascii -> bool) (s : string) : nat :=
  match s with
  | String c s' => if p c then S (count_while p s') else O
  | EmptyString => O
  end.

Definition is_digit (c : ascii) : bool :=
  let n := Z_of_ascii c in (48 <=? n) && (n <=? 57).

Definition is_bang (c : ascii) : bool :=
  match c with
  | "!" | "?" => true
  | _ => false
  end%char.

(** [\d+] followed by the literal [tail]: the digits are taken greedily,
    and giving some back cannot help since [tail] starts with a dot. *)
Definition match_number (tail : string) (s : string) : option nat :=
  match count_while is_digit s with
  | O => None
  | k =>
      if String.prefix tail (js_slice k s)
      then Some (k + String.length tail)%nat else None
  end.

(** [\{[^}]*\}]. *)
Definition match_comment (s : string) : option nat :=
  match s with
  | String c s' =>
      if Ascii.eqb c "{" then
        let k := count_while (fun d => negb (Ascii.eqb d "}")) s' in
        if String.prefix "}" (js_slice k s') then Some (k + 2)%nat else None
      else None
  | EmptyString => None
  end.

(** [\$\d+]. *)
Definition match_nag (s : string) : option nat :=
  match s with
  | String c s' =>
      if Ascii.eqb c "$" then
        match count_while is_digit s' with
        | O => None
        | k => Some (S k)
        end
      else None
  | EmptyString => None
  end.

(** [[!?]+] and [\s+]. *)
Definition match_run (p : ascii -> bool) (s : string) : option nat :=
  match count_while p s with
  | O => None
  | k => Some k
  end.

(** [s.split(" ")]. *)
Fixpoint split_space (s : string) : list string :=
  match s with
  | EmptyString => [EmptyString]
  | String c s' =>
      if Ascii.eqb c " " then EmptyString :: split_space s'
      else
        match split_space s' with
        | t :: ts => String c t :: ts
        | [] => [String c EmptyString]
        end
  end.

(** [s.includes(sub)]. *)
Fixpoint contains (sub s : string) : bool :=
  String.prefix sub s
  || match s with
     | EmptyString => false
     | String _ s' => contains sub s'
     end.

(** The filter of [parseNotation]. *)
Definition keepMove (move : string) : bool :=
  negb (String.eqb move "")
  && negb (contains "*" move)
  && negb (contains "1-0" move)
  && negb (contains "0-1" move)
  && negb (contains "1/2-1/2" move)
  && (0 <? String.length move)%nat.

(** [parseNotation].  The fourth replacement of the source,
    [/$$[^)]*$$/g], begins with an end-of-input assertion, so it matches
    the empty string at the end of the input only and changes nothing. *)
Definition parseNotation (pgn : string) : list string :=
  let s := replaceAll (match_number "...") "" O pgn in
  let s := replaceAll (match_number ".") "" O s in
  let s := replaceAll match_comment "" O s in
  let s := replaceAll match_nag "" O s in
  let s := replaceAll (match_run is_bang) "" O s in
  let s := replaceAll (match_run is_space) " " O s in
  filter keepMove (split_space (trim s)).

(** [tokens.join(" ")]. *)
Fixpoint join_space (tokens : list string) : string :=
  match tokens with
  | [] => EmptyString
  | [t] => t
  | t :: ts => t ++ " " ++ join_space ts
  end.

(** ASCII characters: on these [is_space] is exactly the class [\s]. *)
Definition is_ascii7 (c : ascii) : bool := Z_of_ascii c <? 128.

(** A character that none of the replacements of [parseNotation] looks
    for. *)
Definition plain_char (c : ascii) : bool :=
  is_ascii7 c && negb (is_space c) && negb (is_bang c)
  && negb (Ascii.eqb c ".") && negb (Ascii.eqb c "{")
  && negb (Ascii.eqb c "$").

(** What [parseNotation] guarantees of every character of a token. *)
Definition token_char (c : ascii) : bool :=
  negb (is_space c) && negb (is_bang c) && negb (Ascii.eqb c "*").

(** A move token the importer leaves as it is. *)
Definition plain_move (t : string) : bool :=
  all_chars plain_char t && keepMove t.

(** * Properties *)

(** ** Decidable equalities and membership *)

Lemma color_eqb_eq (x y : Color) : color_eqb x y = true <-> x = y.
Proof. destruct x, y; simpl; split; congruence. Qed.

Lemma color_eqb_refl (x : Color) : color_eqb x x = true.
Proof. now destruct x. Qed.

Lemma color_eqb_neq (x y : Color) : color_eqb x y = false <-> x <> y.
Proof. destruct x, y; simpl; split; congruence. Qed.

Lemma ptype_eqb_eq (x y : PType) : ptype_eqb x y = true <-> x = y.
Proof. destruct x, y; simpl; split; congruence. Qed.

Lemma piece_eqb_eq (p q : Piece) : piece_eqb p q = true <-> p = q.
Proof.
  destruct p as [c t], q as [c' t']; unfold piece_eqb; simpl.
  rewrite andb_true_iff, color_eqb_eq, ptype_eqb_eq.
  split; [intros [-> ->]; reflexivity | intros [= -> ->]; auto].
Qed.

Lemma piece_eqb_refl (p : Piece) : piece_eqb p p = true.
Proof. now apply piece_eqb_eq. Qed.

Lemma includes_In (l : list string) (s : string) :
  includes l s = true <-> In s l.
Proof.
  unfold includes. rewrite existsb_exists. split.
  - intros (x & Hx & E). apply String.eqb_eq in E. now subst.
  - intros H. exists s. split; [assumption | apply String.eqb_refl].
Qed.

Lemma includes_not_In (l : list string) (s : string) :
  includes l s = false <-> ~ In s l.
Proof.
  rewrite <- includes_In. destruct (includes l s); split; congruence.
Qed.

(** ** The position object as an association list *)

Section Alist.

Lemma pos_get_set_same (pos : ChessPosition) k v :
  pos_get (pos_set pos k v) k = Some v.
Proof.
  induction pos as [|[k' v'] rest IH]; simpl.
  - now rewrite String.eqb_refl.
  - destruct (String.eqb k k') eqn:E; simpl; rewrite E; auto.
Qed.

Lemma pos_get_set_other (pos : ChessPosition) k k' v :
  k' <> k -> pos_get (pos_set pos k v) k' = pos_get pos k'.
Proof.
  intros Hne. induction pos as [|[k0 v0] rest IH]; simpl.
  - apply String.eqb_neq in Hne. now rewrite Hne.
  - destruct (String.eqb k k0) eqn:E; simpl.
    + apply String.eqb_eq in E; subst k0.
      apply String.eqb_neq in Hne. now rewrite Hne.
    + now rewrite IH.
Qed.

Lemma pos_get_delete_other (pos : ChessPosition) k k' :
  k' <> k -> pos_get (pos_delete pos k) k' = pos_get pos k'.
Proof.
  intros Hne. unfold pos_delete.
  induction pos as [|[k0 v0] rest IH]; simpl; [reflexivity|].
  destruct (String.eqb k k0) eqn:E; simpl.
  - apply String.eqb_eq in E; subst k0.
    apply String.eqb_neq in Hne. now rewrite Hne.
  - now rewrite IH.
Qed.

Lemma pos_get_In (pos : ChessPosition) k v :
  pos_get pos k = Some v -> In (k, v) pos.
Proof.
  induction pos as [|[k0 v0] rest IH]; simpl; [discriminate|].
  destruct (String.eqb k k0) eqn:E.
  - apply String.eqb_eq in E. intros [= ->]. left. now subst.
  - intros H. right. auto.
Qed.

Lemma In_pos_get (pos : ChessPosition) k v :
  NoDup (map fst pos) -> In (k, v) pos -> pos_get pos k = Some v.
Proof.
  induction pos as [|[k0 v0] rest IH]; simpl; [tauto|].
  intros Hnd [H|H].
  - injection H as -> ->. now rewrite String.eqb_refl.
  - inversion Hnd as [|? ? Hnot Hnd']; subst.
    destruct (String.eqb k k0) eqn:E.
    + apply String.eqb_eq in E; subst k0.
      exfalso. apply Hnot. apply in_map_iff. now exists (k, v).
    + auto.
Qed.

Lemma keys_pos_set (pos : ChessPosition) k v k' :
  In k' (map fst (pos_set pos k v)) <-> k' = k \/ In k' (map fst pos).
Proof.
  induction pos as [|[k0 v0] rest IH]; simpl.
  - intuition.
  - destruct (String.eqb k k0) eqn:E; simpl.
    + apply String.eqb_eq in E; subst k0. intuition.
    + rewrite IH. intuition.
Qed.

Lemma NoDup_pos_set (pos : ChessPosition) k v :
  NoDup (map fst pos) -> NoDup (map fst (pos_set pos k v)).
Proof.
  induction pos as [|[k0 v0] rest IH]; simpl; intros Hnd.
  - constructor; [simpl; tauto | constructor].
  - inversion Hnd as [|? ? Hnot Hnd']; subst.
    destruct (String.eqb k k0) eqn:E; simpl.
    + now constructor.
    + constructor; [|auto].
      rewrite keys_pos_set. intros [->|H]; [|tauto].
      now rewrite String.eqb_refl in E.
Qed.

Lemma NoDup_pos_delete (pos : ChessPosition) k :
  NoDup (map fst pos) -> NoDup (map fst (pos_delete pos k)).
Proof.
  unfold pos_delete.
  induction pos as [|[k0 v0] rest IH]; simpl; intros Hnd; [constructor|].
  inversion Hnd as [|? ? Hnot Hnd']; subst.
  destruct (negb (String.eqb k k0)); simpl; [|auto].
  constructor; [|auto].
  intros H. apply Hnot. apply in_map_iff in H.
  destruct H as ([k1 v1] & E & H). apply filter_In in H.
  apply in_map_iff. exists (k1, v1). tauto.
Qed.

Lemma Forall_pos_set (Q : string * ChessPiece -> Prop)
  (pos : ChessPosition) k v :
  (forall k' v1 v2, Q (k', v1) -> Q (k', v2)) ->
  Q (k, v) -> Forall Q pos -> Forall Q (pos_set pos k v).
Proof.
  intros Hkey Hk. induction pos as [|[k0 v0] rest IH]; simpl; intros HF.
  - now constructor.
  - inversion HF; subst.
    destruct (String.eqb k k0); constructor; eauto.
Qed.

Lemma Forall_pos_delete (Q : string * ChessPiece -> Prop)
  (pos : ChessPosition) k :
  Forall Q pos -> Forall Q (pos_delete pos k).
Proof.
  unfold pos_delete. rewrite !Forall_forall.
  intros H x Hx. apply filter_In in Hx. now apply H.
Qed.

End Alist.

Lemma getPiece_In (g : ChessGame) s p :
  getPiece g s = Some p -> In (s, Some p) (position g).
Proof.
  unfold getPiece. destruct (pos_get (position g) s) as [[q|]|] eqn:E;
    try discriminate.
  intros [= ->]. now apply pos_get_In.
Qed.

Lemma In_getPiece (g : ChessGame) s p :
  NoDup (map fst (position g)) -> In (s, Some p) (position g) ->
  getPiece g s = Some p.
Proof.
  intros Hnd H. unfold getPiece. now rewrite (In_pos_get _ _ _ Hnd H).
Qed.

(** ** The move executor *)

Lemma makeMove_success (g : ChessGame) from to :
  fst (makeMove g from to) = true ->
  exists p,
    getPiece g from = Some p /\
    pcolor p = currentPlayer g /\
    In to (getValidMoves g from) /\
    snd (makeMove g from to) = moved g from to p.
Proof.
  unfold makeMove.
  destruct (getPiece g from) as [p|] eqn:Hp; [|discriminate].
  destruct (color_eqb (pcolor p) (currentPlayer g)) eqn:Hc; simpl;
    [|discriminate].
  destruct (includes (getValidMoves g from) to) eqn:Hi; simpl;
    [|discriminate].
  intros _. exists p. split; [reflexivity|]. split; [|split].
  - now apply color_eqb_eq.
  - now apply includes_In.
  - unfold moved, opposite. now destruct (currentPlayer g).
Qed.

Lemma makeMove_accepts (g : ChessGame) from to p :
  getPiece g from = Some p ->
  pcolor p = currentPlayer g ->
  In to (getValidMoves g from) ->
  makeMove g from to = (true, moved g from to p).
Proof.
  intros Hp Hc Hin. unfold makeMove. rewrite Hp.
  apply color_eqb_eq in Hc. rewrite Hc. simpl.
  apply includes_In in Hin. rewrite Hin. simpl.
  unfold moved, opposite. now destruct (currentPlayer g).
Qed.

Lemma makeMove_failure (g : ChessGame) from to :
  fst (makeMove g from to) = false -> snd (makeMove g from to) = g.
Proof.
  unfold makeMove.
  destruct (getPiece g from) as [p|]; [|reflexivity].
  destruct (negb (color_eqb (pcolor p) (currentPlayer g))); [reflexivity|].
  destruct (negb (includes (getValidMoves g from) to)); [reflexivity|].
  discriminate.
Qed.

Lemma validMoves_filter (g : ChessGame) from to :
  In to (getValidMoves g from) ->
  isValidSquare to = true /\ canMoveTo g from to = true.
Proof.
  unfold getValidMoves.
  destruct (getPiece g from) as [p|]; [|intros []].
  destruct (negb (color_eqb (pcolor p) (currentPlayer g))); [intros []|].
  intros H. apply filter_In in H. destruct H as [_ H].
  now apply andb_true_iff in H.
Qed.

Lemma validMoves_not_origin (g : ChessGame) from to :
  In to (getValidMoves g from) -> to <> from.
Proof.
  intros H ->. apply validMoves_filter in H. destruct H as [_ H].
  unfold canMoveTo in H. destruct (getPiece g from) as [p|]; [|discriminate].
  now rewrite color_eqb_refl in H.
Qed.

(** A valid destination is empty or holds a piece of the other colour. *)
Lemma validMoves_target (g : ChessGame) from to p q :
  In to (getValidMoves g from) ->
  getPiece g from = Some p -> getPiece g to = Some q ->
  pcolor q <> pcolor p.
Proof.
  intros H Hp Hq. apply validMoves_filter in H. destruct H as [_ H].
  unfold canMoveTo in H. rewrite Hp, Hq in H.
  apply negb_true_iff in H. now apply color_eqb_neq.
Qed.

Lemma last_notation_snoc (pos : ChessPosition) c h m :
  getLastMoveNotation (mkGame pos c (h ++ [m])) = move_notation m.
Proof. unfold getLastMoveNotation. simpl. now rewrite rev_app_distr. Qed.

Lemma getPiece_moved_to (g : ChessGame) from to p :
  to <> from -> getPiece (moved g from to p) to = Some p.
Proof.
  intros Hne. unfold getPiece, moved. simpl.
  rewrite pos_get_delete_other by assumption.
  now rewrite pos_get_set_same.
Qed.

(** No square name is inherited from [Object.prototype]. *)
Lemma square_not_inherited (square : string) :
  isValidSquare square = true -> inherited square = false.
Proof.
  destruct square as [|f [|r [|c rest]]]; try discriminate.
  intros _. unfold inherited, objectPrototypeKeys. cbn [existsb].
  repeat match goal with
         | [ |- context [String.eqb ?a ?b] ] =>
             replace (String.eqb a b) with false
               by (symmetry; apply String.eqb_neq; intros E;
                   apply (f_equal String.length) in E; discriminate E)
         end.
  reflexivity.
Qed.

(** C4: a rejected [makeMove] is atomic.  For an origin that is no name
    inherited from [Object.prototype] (every square name, and every other
    string but those twelve): when the origin square is empty, or its
    piece is not of the colour to move, or the destination is not among
    the valid moves of the origin, [makeMove] returns false and the game
    (every square, the side to move, the history) is the one it was
    given.  Under an inherited name the source finds no empty origin, no
    colour and no move list, but throws. *)
Theorem makeMove_rejects_without_change (g : ChessGame) from to :
  inherited from = false ->
  getPiece g from = None
  \/ (exists p, getPiece g from = Some p /\ pcolor p <> currentPlayer g)
  \/ ~ In to (getValidMoves g from) ->
  makeMove g from to = (false, g).
Proof.
  intros _ [H | [(p & Hp & Hc) | H]]; unfold makeMove.
  - now rewrite H.
  - rewrite Hp. apply color_eqb_neq in Hc. now rewrite Hc.
  - destruct (getPiece g from) as [p|]; [|reflexivity].
    destruct (negb (color_eqb (pcolor p) (currentPlayer g))); [reflexivity|].
    apply includes_not_In in H. now rewrite H.
Qed.

Lemma makeMove_rejects_without_change_witness :
  makeMove newGame "e4" "e5" = (false, newGame)
  /\ makeMove newGame "e7" "e5" = (false, newGame)
  /\ makeMove newGame "e2" "e5" = (false, newGame)
  /\ makeMove newGame "z9" "e4" = (false, newGame).
Proof.
  split; [|split; [|split]];
    apply makeMove_rejects_without_change; try reflexivity.
  - left. reflexivity.
  - right. left. exists bP. split; [reflexivity | discriminate].
  - right. right. vm_compute. intuition discriminate.
  - left. reflexivity.
Defined.

(** ** Turn and history *)

Lemma play_cons (g : ChessGame) from to rest :
  play g ((from, to) :: rest)
  = (fst (play (snd (makeMove g from to)) rest),
     ((if fst (makeMove g from to) then 1 else 0)
      + snd (play (snd (makeMove g from to)) rest))%nat).
Proof. reflexivity. Qed.

Lemma opposite_involutive (c : Color) : opposite (opposite c) = c.
Proof. now destruct c. Qed.

Lemma makeMove_step (g : ChessGame) from to :
  fst (makeMove g from to) = true ->
  currentPlayer (snd (makeMove g from to)) = opposite (currentPlayer g)
  /\ length (moveHistory (snd (makeMove g from to)))
     = S (length (moveHistory g)).
Proof.
  intros H. destruct (makeMove_success _ _ _ H) as (p & _ & _ & _ & ->).
  unfold moved; simpl. split; [reflexivity|].
  rewrite length_app. simpl. lia.
Qed.

(** C5: a successful [makeMove] hands the turn to the other colour and
    makes the history one move longer; so after any list of requested
    moves the history has grown by the number of successful ones, and the
    side to move is the starting one exactly when that number is even. *)
Theorem makeMove_flips_turn_and_extends_history :
  (forall g from to,
      fst (makeMove g from to) = true ->
      currentPlayer (snd (makeMove g from to)) = opposite (currentPlayer g)
      /\ length (moveHistory (snd (makeMove g from to)))
         = S (length (moveHistory g)))
  /\ (forall ms g,
         length (moveHistory (fst (play g ms)))
         = (length (moveHistory g) + snd (play g ms))%nat
         /\ currentPlayer (fst (play g ms))
            = (if Nat.even (snd (play g ms)) then currentPlayer g
               else opposite (currentPlayer g))).
Proof.
  split; [exact makeMove_step|].
  induction ms as [|[from to] rest IH]; intros g.
  - simpl. split; [lia | reflexivity].
  - rewrite play_cons.
    destruct (IH (snd (makeMove g from to))) as [IHl IHc].
    set (r := makeMove g from to) in *.
    set (r' := play (snd r) rest) in *.
    change (length (moveHistory (fst r'))
            = (length (moveHistory g) + ((if fst r then 1 else 0) + snd r'))%nat
            /\ currentPlayer (fst r')
               = (if Nat.even ((if fst r then 1 else 0) + snd r')
                  then currentPlayer g else opposite (currentPlayer g))).
    destruct (fst r) eqn:Hok.
    + destruct (makeMove_step _ _ _ Hok) as [Hc Hl]. fold r in Hc, Hl.
      rewrite IHl, IHc, Hl, Hc. split; [lia|].
      change (1 + snd r')%nat with (S (snd r')).
      rewrite Nat.even_succ, <- Nat.negb_even.
      destruct (Nat.even (snd r')); simpl; [reflexivity|].
      apply opposite_involutive.
    + pose proof (makeMove_failure _ _ _ Hok) as Hg. fold r in Hg.
      rewrite IHl, IHc, Hg. split; reflexivity.
Qed.

Lemma makeMove_flips_turn_and_extends_history_witness :
  currentPlayer (snd (makeMove newGame "e2" "e4")) = cB
  /\ length (moveHistory (snd (makeMove newGame "e2" "e4"))) = 1%nat.
Proof.
  apply (proj1 makeMove_flips_turn_and_extends_history newGame "e2" "e4").
  reflexivity.
Defined.

(** What [play] returns is reachable when its starting game is. *)
Lemma play_reachable (ms : list (string * string)) (g : ChessGame) :
  reachable g -> reachable (fst (play g ms)).
Proof.
  revert g. induction ms as [|[from to] rest IH]; intros g Hg; [assumption|].
  rewrite play_cons. simpl. apply IH.
  destruct (fst (makeMove g from to)) eqn:Hok.
  - apply reach_move with g from to; [assumption|].
    rewrite <- Hok. now destruct (makeMove g from to).
  - now rewrite makeMove_failure.
Qed.

(** C10: a move never changes the piece it moves.  After a successful
    [makeMove] the destination holds the piece that stood on the origin,
    colour and type alike; when that piece is a pawn its notation is the
    bare destination or the origin file, an x and the destination, with
    nothing after the destination square, whatever rank the pawn
    reaches. *)
Theorem makeMove_keeps_piece_identity (g : ChessGame) from to :
  fst (makeMove g from to) = true ->
  exists p,
    getPiece g from = Some p
    /\ getPiece (snd (makeMove g from to)) to = Some p
    /\ (ptype p = tP ->
        getLastMoveNotation (snd (makeMove g from to)) = to
        \/ getLastMoveNotation (snd (makeMove g from to))
           = js_show (js_at from 0) ++ "x" ++ to).
Proof.
  intros H. destruct (makeMove_success _ _ _ H) as (p & Hp & _ & Hin & ->).
  exists p. split; [assumption|]. split.
  - apply getPiece_moved_to. now apply validMoves_not_origin with g.
  - intros Ht. unfold moved. rewrite last_notation_snoc.
    destruct p as [c t]. simpl in Ht. subst t.
    cbv beta iota delta [move_notation castles ptype ptype_eqb andb
                         generateMoveNotation].
    destruct (is_some (getPiece g to)
              || negb (opt_ascii_eqb (js_at from 0) (js_at to 0)));
      [right | left]; reflexivity.
Qed.

Lemma makeMove_keeps_piece_identity_witness :
  exists p,
    getPiece pawn_on_a7 "a7" = Some p
    /\ getPiece (snd (makeMove pawn_on_a7 "a7" "b8")) "b8" = Some p
    /\ (ptype p = tP ->
        getLastMoveNotation (snd (makeMove pawn_on_a7 "a7" "b8")) = "b8"
        \/ getLastMoveNotation (snd (makeMove pawn_on_a7 "a7" "b8"))
           = js_show (js_at "a7" 0) ++ "x" ++ "b8").
Proof.
  apply (makeMove_keeps_piece_identity pawn_on_a7 "a7" "b8").
  vm_compute. reflexivity.
Defined.

(** ** Scenarios from the starting position *)

(** C8: from a new game, e2-e4 is accepted and recorded as e4, then e7-e5
    as e5, then g1-f3 as Nf3; the knight needs no disambiguator because
    f3 is not a valid move of the knight on b1. *)
Theorem opening_scenario :
  let r1 := makeMove newGame "e2" "e4" in
  let r2 := makeMove (snd r1) "e7" "e5" in
  let r3 := makeMove (snd r2) "g1" "f3" in
  (fst r1 = true /\ getLastMoveNotation (snd r1) = "e4")
  /\ (fst r2 = true /\ getLastMoveNotation (snd r2) = "e5")
  /\ (fst r3 = true /\ getLastMoveNotation (snd r3) = "Nf3")
  /\ findAmbiguousMoves (snd r2) "g1" "f3" (Some wN) = []
  /\ includes (getValidMoves (snd r2) "b1") "f3" = false.
Proof. vm_compute. repeat split; reflexivity. Qed.

(** Castling cannot be played from the starting position: it is not the
    case that e1-g1 is accepted, brings the h1 rook to f1 and is recorded
    as O-O. *)
Lemma castling_from_start_refuted :
  ~ (fst (makeMove newGame "e1" "g1") = true
     /\ getPiece (snd (makeMove newGame "e1" "g1")) "f1" = Some wR
     /\ getLastMoveNotation (snd (makeMove newGame "e1" "g1")) = "O-O").
Proof. vm_compute. intros [H _]. discriminate H. Qed.

(** C1, as the code has it: from the starting position the king on e1
    has no valid move (its neighbours are white pieces), so e1-g1 and
    e1-c1 are rejected, and e8-g8 and e8-c8 are rejected because White is
    to move; the game is unchanged and the last notation stays empty.
    Once it is Black's turn (after e2-e4) the king on e8 has no valid
    move either. *)
Theorem castling_from_start_rejected :
  getValidMoves newGame "e1" = []
  /\ makeMove newGame "e1" "g1" = (false, newGame)
  /\ makeMove newGame "e1" "c1" = (false, newGame)
  /\ makeMove newGame "e8" "g8" = (false, newGame)
  /\ makeMove newGame "e8" "c8" = (false, newGame)
  /\ getLastMoveNotation newGame = ""
  /\ (let g := snd (makeMove newGame "e2" "e4") in
      getValidMoves g "e8" = []
      /\ makeMove g "e8" "g8" = (false, g)
      /\ makeMove g "e8" "c8" = (false, g)).
Proof. vm_compute. repeat split; reflexivity. Qed.

(** ** Character classes and square names *)

Ltac ascii_cases c :=
  destruct c as [[] [] [] [] [] [] [] []].

Lemma is_file_cases (c : ascii) :
  is_file c = true ->
  existsb (Ascii.eqb c) ["a"; "b"; "c"; "d"; "e"; "f"; "g"; "h"]%char = true.
Proof. ascii_cases c; intros H; vm_compute in H |- *; congruence. Qed.

Lemma is_rank_cases (c : ascii) :
  is_rank c = true ->
  existsb (Ascii.eqb c) ["1"; "2"; "3"; "4"; "5"; "6"; "7"; "8"]%char = true.
Proof. ascii_cases c; intros H; vm_compute in H |- *; congruence. Qed.

Lemma file_is_not_rank (c : ascii) : is_file c = true -> is_rank c = false.
Proof. ascii_cases c; intros H; vm_compute in H |- *; congruence. Qed.

Lemma file_is_not_x (c : ascii) : is_file c = true -> is_x c = false.
Proof. ascii_cases c; intros H; vm_compute in H |- *; congruence. Qed.

Lemma rank_is_not_file (c : ascii) : is_rank c = true -> is_file c = false.
Proof. ascii_cases c; intros H; vm_compute in H |- *; congruence. Qed.

Lemma rank_is_not_x (c : ascii) : is_rank c = true -> is_x c = false.
Proof. ascii_cases c; intros H; vm_compute in H |- *; congruence. Qed.

Lemma rank_is_not_glyph (c : ascii) : is_rank c = true -> is_glyph c = false.
Proof. ascii_cases c; intros H; vm_compute in H |- *; congruence. Qed.

Lemma rank_is_not_space (c : ascii) : is_rank c = true -> is_space c = false.
Proof. ascii_cases c; intros H; vm_compute in H |- *; congruence. Qed.

Lemma file_is_not_space (c : ascii) : is_file c = true -> is_space c = false.
Proof. ascii_cases c; intros H; vm_compute in H |- *; congruence. Qed.

Lemma isValidSquare_chars (s : string) :
  isValidSquare s = true ->
  exists a c, s = String a (String c "") /\ is_file a = true
              /\ is_rank c = true.
Proof.
  destruct s as [|a [|c [|]]]; simpl; try discriminate.
  intros H. apply andb_true_iff in H. now exists a, c.
Qed.

Lemma isValidSquare_listed (s : string) :
  isValidSquare s = true -> includes all_squares s = true.
Proof.
  intros H. destruct (isValidSquare_chars s H) as (a & c & -> & Ha & Hc).
  apply is_file_cases in Ha. apply is_rank_cases in Hc.
  simpl in Ha, Hc. rewrite !orb_false_r in Ha, Hc.
  repeat (apply orb_true_iff in Ha; destruct Ha as [Ha|Ha]);
    apply Ascii.eqb_eq in Ha; subst a;
    repeat (apply orb_true_iff in Hc; destruct Hc as [Hc|Hc]);
    apply Ascii.eqb_eq in Hc; subst c; reflexivity.
Qed.

Ltac enum8 H :=
  match type of H with
  | 0 <= ?x < 8 =>
      assert (x = 0 \/ x = 1 \/ x = 2 \/ x = 3
              \/ x = 4 \/ x = 5 \/ x = 6 \/ x = 7) as H' by lia;
      clear H;
      destruct H' as [->|[->|[->|[->|[->|[->|[->| ->]]]]]]]
  end.

Lemma all_squares_sq (s : string) :
  In s all_squares ->
  exists f r, 0 <= f < 8 /\ 0 <= r < 8 /\ s = sq f r.
Proof.
  unfold all_squares. intros H. apply in_flat_map in H.
  destruct H as (f & Hf & H). apply in_map_iff in H.
  destruct H as (r & <- & Hr). exists f, r.
  split; [|split; [|reflexivity]].
  - simpl in Hf. lia.
  - simpl in Hr. lia.
Qed.

(** A well-formed square name is the name of a square of the board. *)
Lemma isValidSquare_sq (s : string) :
  isValidSquare s = true ->
  exists f r, 0 <= f < 8 /\ 0 <= r < 8 /\ s = sq f r.
Proof.
  intros H. apply all_squares_sq. apply includes_In.
  now apply isValidSquare_listed.
Qed.

Lemma sq_file (f r : Z) :
  0 <= f < 8 -> 0 <= r < 8 ->
  js_at (sq f r) 0 = fileChar f /\ fileIndexOf (js_at (sq f r) 0) = f.
Proof. intros Hf Hr. enum8 Hf; enum8 Hr; split; reflexivity. Qed.

Lemma sq_rank (f r : Z) :
  0 <= f < 8 -> 0 <= r < 8 ->
  num_add (parseInt (js_at (sq f r) 1)) (-1) = Some r.
Proof. intros Hf Hr. enum8 Hf; enum8 Hr; reflexivity. Qed.

Lemma sq_inj (f r f' r' : Z) :
  0 <= f < 8 -> 0 <= r < 8 -> 0 <= f' < 8 -> 0 <= r' < 8 ->
  sq f r = sq f' r' -> f = f' /\ r = r'.
Proof.
  intros Hf Hr Hf' Hr' E. split.
  - rewrite <- (proj2 (sq_file f r Hf Hr)), E.
    apply (proj2 (sq_file f' r' Hf' Hr')).
  - pose proof (sq_rank f r Hf Hr) as H1.
    rewrite E, (sq_rank f' r' Hf' Hr') in H1. congruence.
Qed.

(** On a file of the board, a rank row from -2 to 9 names a square
    exactly when it is on the board. *)
Lemma isValidSquare_sq_iff (f z : Z) :
  0 <= f < 8 -> -2 <= z < 10 -> isValidSquare (sq f z) = in_board z.
Proof.
  intros Hf Hz.
  assert (z = -2 \/ z = -1 \/ 0 <= z < 8 \/ z = 8 \/ z = 9) as H by lia.
  enum8 Hf; destruct H as [->|[->|[H|[->| ->]]]]; try reflexivity;
    enum8 H; reflexivity.
Qed.

(** ** The king never moves two files *)

Lemma king_moves_by_one_file :
  forallb
    (fun from =>
       forallb
         (fun to =>
            negb (num_abs_diff_is (charCodeAt0 from) (charCodeAt0 to) 2))
         (getKingMoves from))
    all_squares = true.
Proof. vm_compute. reflexivity. Qed.

Lemma In_validMoves_king (g : ChessGame) from to p :
  getPiece g from = Some p -> ptype p = tK ->
  In to (getValidMoves g from) -> In to (getKingMoves from).
Proof.
  intros Hp Ht. unfold getValidMoves. rewrite Hp, Ht.
  destruct (negb (color_eqb (pcolor p) (currentPlayer g))); [intros []|].
  intros H. apply filter_In in H. tauto.
Qed.

(** From a square of the board no valid move meets the castling
    condition of [makeMove]. *)
Lemma castles_never (g : ChessGame) from to p :
  isValidSquare from = true ->
  getPiece g from = Some p ->
  In to (getValidMoves g from) ->
  castles p from to = false.
Proof.
  intros Hv Hp Hin. unfold castles.
  destruct (ptype_eqb (ptype p) tK) eqn:Ht; [|reflexivity].
  apply ptype_eqb_eq in Ht. simpl.
  pose proof (In_validMoves_king g from to p Hp Ht Hin) as Hk.
  pose proof king_moves_by_one_file as Hall.
  rewrite forallb_forall in Hall.
  specialize (Hall from (proj1 (includes_In _ _) (isValidSquare_listed _ Hv))).
  rewrite forallb_forall in Hall. specialize (Hall to Hk).
  now apply negb_true_iff in Hall.
Qed.

Lemma wf_key_valid (g : ChessGame) s p :
  wf_position (position g) -> getPiece g s = Some p ->
  isValidSquare s = true.
Proof.
  intros [_ HF] Hp. apply getPiece_In in Hp.
  rewrite Forall_forall in HF. apply (HF _ Hp).
Qed.

Lemma moved_without_castling (g : ChessGame) from to p :
  castles p from to = false ->
  moved g from to p
  = mkGame (pos_delete (pos_set (position g) to (Some p)) from)
      (opposite (currentPlayer g))
      (moveHistory g
       ++ [mkMove from to (Some p) (getPiece g to)
             (generateMoveNotation g from to (Some p) (getPiece g to))]).
Proof. intros H. unfold moved. now rewrite H. Qed.

Lemma nodupb_NoDup (l : list string) : nodupb l = true -> NoDup l.
Proof.
  induction l as [|x l IH]; simpl; intros H; constructor.
  - apply andb_true_iff in H. destruct H as [H _].
    apply negb_true_iff in H. now apply includes_not_In.
  - apply IH. apply andb_true_iff in H. tauto.
Qed.

Lemma wf_positionb_ok (pos : ChessPosition) :
  wf_positionb pos = true -> wf_position pos.
Proof.
  unfold wf_positionb, wf_position. intros H.
  apply andb_true_iff in H. destruct H as [H1 H2]. split.
  - now apply nodupb_NoDup.
  - rewrite forallb_forall in H2. now apply Forall_forall.
Qed.

(** C9: the frame of a successful [makeMove].  In a game whose position
    has square names for keys, the castling branch is never taken (a
    king's valid moves are at most one file away), and every square
    other than the origin and the destination keeps its occupant. *)
Theorem makeMove_touches_two_squares (g : ChessGame) from to :
  wf_position (position g) ->
  fst (makeMove g from to) = true ->
  (forall p, getPiece g from = Some p -> castles p from to = false)
  /\ (forall s, s <> from -> s <> to ->
      getPiece (snd (makeMove g from to)) s = getPiece g s).
Proof.
  intros Hwf H. destruct (makeMove_success _ _ _ H) as (p & Hp & _ & Hin & ->).
  assert (castles p from to = false) as Hc.
  { apply castles_never with g; [now apply wf_key_valid with g p | | ];
      assumption. }
  split.
  - intros p' Hp'. congruence.
  - intros s Hsf Hst. rewrite moved_without_castling by assumption.
    unfold getPiece. simpl.
    rewrite pos_get_delete_other by assumption.
    now rewrite pos_get_set_other.
Qed.

Lemma makeMove_touches_two_squares_witness :
  (forall p, getPiece newGame "e2" = Some p -> castles p "e2" "e4" = false)
  /\ (forall s, s <> "e2" -> s <> "e4" ->
      getPiece (snd (makeMove newGame "e2" "e4")) s = getPiece newGame s).
Proof.
  apply (makeMove_touches_two_squares newGame "e2" "e4").
  - apply wf_positionb_ok. reflexivity.
  - reflexivity.
Defined.

(** ** Invariants of the reachable games *)

Lemma wf_moved (g : ChessGame) from to p :
  wf_position (position g) ->
  getPiece g from = Some p ->
  In to (getValidMoves g from) ->
  wf_position (position (moved g from to p)).
Proof.
  intros Hwf Hp Hin.
  rewrite moved_without_castling
    by (apply castles_never with g; eauto using wf_key_valid).
  destruct Hwf as [Hnd HF]. simpl. split.
  - now apply NoDup_pos_delete, NoDup_pos_set.
  - apply Forall_pos_delete, Forall_pos_set; auto.
    simpl. now apply validMoves_filter in Hin.
Qed.

Lemma count_pos_set (q : Piece) (pos : ChessPosition) k v :
  (countPiece q (pos_set pos k v)
   <= countPiece q pos + (if piece_is q (k, v) then 1 else 0))%nat.
Proof.
  unfold countPiece.
  induction pos as [|[k0 v0] rest IH]; simpl.
  - destruct (piece_is q (k, v)); simpl; lia.
  - destruct (String.eqb k k0) eqn:E; simpl.
    + apply String.eqb_eq in E; subst k0.
      destruct (piece_is q (k, v)), (piece_is q (k, v0)); simpl; lia.
    + destruct (piece_is q (k0, v0)); simpl; lia.
Qed.

Lemma count_pos_delete_le (q : Piece) (pos : ChessPosition) k :
  (countPiece q (pos_delete pos k) <= countPiece q pos)%nat.
Proof.
  unfold countPiece, pos_delete.
  induction pos as [|[k0 v0] rest IH]; simpl; [lia|].
  destruct (negb (String.eqb k k0)); simpl;
    destruct (piece_is q (k0, v0)); simpl; lia.
Qed.

Lemma count_pos_delete_present (q : Piece) (pos : ChessPosition) k :
  In (k, Some q) pos ->
  (S (countPiece q (pos_delete pos k)) <= countPiece q pos)%nat.
Proof.
  unfold countPiece, pos_delete.
  induction pos as [|[k0 v0] rest IH]; simpl; [tauto|].
  intros [H|H].
  - injection H as -> ->. rewrite String.eqb_refl. simpl.
    unfold piece_is at 2. simpl. rewrite piece_eqb_refl. simpl.
    pose proof (count_pos_delete_le q rest k) as Hle.
    unfold countPiece, pos_delete in Hle. lia.
  - specialize (IH H).
    destruct (negb (String.eqb k k0)); simpl;
      destruct (piece_is q (k0, v0)); simpl; lia.
Qed.

Lemma few_pieces_moved (g : ChessGame) from to p :
  wf_position (position g) ->
  few_pieces (position g) ->
  getPiece g from = Some p ->
  In to (getValidMoves g from) ->
  few_pieces (position (moved g from to p)).
Proof.
  intros Hwf Hfew Hp Hin q Hq.
  rewrite moved_without_castling
    by (apply castles_never with g; eauto using wf_key_valid).
  simpl. specialize (Hfew q Hq).
  pose proof (count_pos_set q (position g) to (Some p)) as Hset.
  unfold piece_is in Hset. simpl in Hset.
  destruct (piece_eqb p q) eqn:E.
  - apply piece_eqb_eq in E. subst q.
    assert (In (from, Some p) (pos_set (position g) to (Some p))) as Hfrom.
    { apply pos_get_In. rewrite pos_get_set_other.
      - apply getPiece_In in Hp. destruct Hwf as [Hnd _].
        now apply In_pos_get.
      - intros ->. now apply (validMoves_not_origin g to to). }
    pose proof (count_pos_delete_present p _ from Hfrom). lia.
  - pose proof (count_pos_delete_le q
                  (pos_set (position g) to (Some p)) from). lia.
Qed.

Lemma few_pieces_initially : few_pieces getInitialPosition.
Proof. intros [[] []] H; vm_compute; try lia; now elim H. Qed.

(** Every reachable game has a well-formed position with at most two
    pieces of each kind other than pawns. *)
Lemma reachable_invariant (g : ChessGame) :
  reachable g -> wf_position (position g) /\ few_pieces (position g).
Proof.
  induction 1 as [|g from to g' _ [IHwf IHfew] Hmove].
  - split; [apply wf_positionb_ok; reflexivity | apply few_pieces_initially].
  - assert (fst (makeMove g from to) = true) as Hok by now rewrite Hmove.
    destruct (makeMove_success _ _ _ Hok) as (p & Hp & _ & Hin & Hg').
    rewrite Hmove in Hg'. simpl in Hg'. subst g'.
    split; [now apply wf_moved | now apply few_pieces_moved].
Qed.


(** ** The ambiguity resolver and the disambiguator *)

Lemma string_app_assoc (s1 s2 s3 : string) :
  (s1 ++ s2) ++ s3 = s1 ++ s2 ++ s3.
Proof. induction s1 as [|c s1 IH]; simpl; [reflexivity | now rewrite IH]. Qed.

Lemma opt_ascii_eqb_eq (x y : option ascii) :
  opt_ascii_eqb x y = true <-> x = y.
Proof.
  destruct x as [c|], y as [d|]; simpl; try (split; congruence).
  rewrite Ascii.eqb_eq. split; congruence.
Qed.

Lemma In_findAmbiguousMoves (g : ChessGame) from to p s :
  In s (findAmbiguousMoves g from to (Some p)) <->
  exists q, In (s, Some q) (position g)
            /\ pcolor q = pcolor p /\ ptype q = ptype p
            /\ s <> from /\ In to (getValidMoves g s).
Proof.
  unfold findAmbiguousMoves. rewrite in_flat_map. split.
  - intros ([k [q|]] & Hin & H); simpl in H; [|contradiction].
    destruct (color_eqb (pcolor q) (pcolor p)) eqn:Hc; [|contradiction].
    destruct (ptype_eqb (ptype q) (ptype p)) eqn:Ht; [|contradiction].
    destruct (String.eqb k from) eqn:Hk; [contradiction|]. simpl in H.
    destruct (includes (getValidMoves g k) to) eqn:Hi; [|contradiction].
    destruct H as [<-|[]]. exists q.
    apply color_eqb_eq in Hc. apply ptype_eqb_eq in Ht.
    apply String.eqb_neq in Hk. apply includes_In in Hi. auto.
  - intros (q & Hin & Hc & Ht & Hk & Hi). exists (s, Some q).
    split; [assumption|]. simpl.
    apply color_eqb_eq in Hc. apply ptype_eqb_eq in Ht.
    apply String.eqb_neq in Hk. apply includes_In in Hi.
    rewrite Hc, Ht, Hk, Hi. simpl. now left.
Qed.

(** With no key twice, the squares the resolver returns are exactly the
    alternatives to the mover. *)
Lemma findAmbiguousMoves_alternative (g : ChessGame) from to p s :
  NoDup (map fst (position g)) ->
  In s (findAmbiguousMoves g from to (Some p)) <-> alternative g from to p s.
Proof.
  intros Hnd. rewrite In_findAmbiguousMoves. unfold alternative. split.
  - intros (q & Hin & Hc & Ht & Hk & Hi). split; [assumption|].
    split; [|assumption]. exists q. split; [|tauto].
    now apply In_getPiece.
  - intros (Hk & (q & Hq & Hc & Ht) & Hi). exists q.
    apply getPiece_In in Hq. tauto.
Qed.

Lemma generateMoveNotation_piece (g : ChessGame) from to p captured :
  ptype p <> tP ->
  generateMoveNotation g from to (Some p) captured
  = String (type_letter (ptype p))
      (disambiguator from (findAmbiguousMoves g from to (Some p))
       ++ (if is_some captured then "x" else "") ++ to).
Proof.
  intros Ht. unfold generateMoveNotation.
  set (d := disambiguator from (findAmbiguousMoves g from to (Some p))).
  destruct (ptype p); try (now elim Ht);
    destruct (is_some captured); cbn [append];
    now rewrite ?string_app_assoc.
Qed.

Lemma generateMoveNotation_pawn (g : ChessGame) from to p captured :
  ptype p = tP ->
  generateMoveNotation g from to (Some p) captured
  = if is_some captured || negb (opt_ascii_eqb (js_at from 0) (js_at to 0))
    then js_show (js_at from 0) ++ "x" ++ to
    else to.
Proof. intros Ht. unfold generateMoveNotation. now rewrite Ht. Qed.

Lemma existsb_same (from : string) (i : nat) (amb : list string) :
  existsb (fun move => opt_ascii_eqb (js_at move i) (js_at from i)) amb = true
  <-> exists s, In s amb /\ js_at s i = js_at from i.
Proof.
  rewrite existsb_exists. split; intros (s & Hs & E); exists s;
    (split; [assumption | now apply opt_ascii_eqb_eq]).
Qed.

Lemma existsb_same_false (from : string) (i : nat) (amb : list string) :
  (forall s, In s amb -> js_at s i <> js_at from i) ->
  existsb (fun move => opt_ascii_eqb (js_at move i) (js_at from i)) amb
  = false.
Proof.
  intros Hall. apply not_true_iff_false. intros H.
  apply existsb_same in H. destruct H as (s & Hs & E).
  exact (Hall s Hs E).
Qed.

(** The disambiguator by the rule: the origin file when none of the
    squares the resolver found is on it; else the origin rank when none
    is on it; else the origin square. *)
Lemma disambiguator_file (from : string) (amb : list string) :
  amb <> [] ->
  (forall s, In s amb -> js_at s 0 <> js_at from 0) ->
  disambiguator from amb = js_show (js_at from 0).
Proof.
  intros Hne Hall. unfold disambiguator.
  rewrite (existsb_same_false from 0 amb Hall).
  destruct amb; [now elim Hne | reflexivity].
Qed.

Lemma disambiguator_rank (from : string) (amb : list string) s1 :
  In s1 amb -> js_at s1 0 = js_at from 0 ->
  (forall s, In s amb -> js_at s 1 <> js_at from 1) ->
  disambiguator from amb = js_show (js_at from 1).
Proof.
  intros H1 Hf Hall. unfold disambiguator.
  rewrite (existsb_same_false from 1 amb Hall).
  rewrite (proj2 (existsb_same from 0 amb)) by (exists s1; auto).
  destruct amb; [destruct H1 | reflexivity].
Qed.

Lemma disambiguator_square (from : string) (amb : list string) s1 s2 :
  In s1 amb -> js_at s1 0 = js_at from 0 ->
  In s2 amb -> js_at s2 1 = js_at from 1 ->
  disambiguator from amb = from.
Proof.
  intros H1 Hf H2 Hr. unfold disambiguator.
  rewrite (proj2 (existsb_same from 0 amb)) by (exists s1; auto).
  rewrite (proj2 (existsb_same from 1 amb)) by (exists s2; auto).
  destruct amb; [destruct H1 | reflexivity].
Qed.

(** From d2 a knight never has c3 among its valid moves, in any game. *)
Lemma knight_d2_never_c3 (g : ChessGame) (p : Piece) :
  getPiece g "d2" = Some p -> ptype p = tN ->
  ~ In "c3" (getValidMoves g "d2").
Proof.
  intros Hp Ht. unfold getValidMoves. rewrite Hp, Ht.
  destruct (negb (color_eqb (pcolor p) (currentPlayer g))); [tauto|].
  intros H. apply filter_In in H. destruct H as [H _].
  vm_compute in H. intuition discriminate.
Qed.

(** With white knights on b1 and d2 the move b1-c3 is recorded as Nc3,
    not Nbc3: c3 is not a valid move of the knight on d2, so the resolver
    finds no alternative. *)
Lemma knights_b1_d2_refuted :
  getPiece knights_b1_d2 "b1" = Some wN
  /\ getPiece knights_b1_d2 "d2" = Some wN
  /\ includes (getValidMoves knights_b1_d2 "d2") "c3" = false
  /\ fst (makeMove knights_b1_d2 "b1" "c3") = true
  /\ getLastMoveNotation (snd (makeMove knights_b1_d2 "b1" "c3")) <> "Nbc3".
Proof. vm_compute. repeat split; try reflexivity. discriminate. Qed.

(** C6, with the example on squares where it can occur.  For a piece
    other than a pawn the notation is the piece letter, a disambiguator,
    an x for a capture and the destination.  The disambiguator is empty
    when the mover has no alternative; it is the origin file when there
    are alternatives and none is on that file; else the origin rank when
    none is on that rank; else the whole origin square.  With white
    knights on b1 and e2, both with c3 among their valid moves, b1-c3 is
    recorded as Nbc3. *)
Theorem disambiguation_file_rank_square :
  (forall g from to p captured,
      wf_position (position g) ->
      ptype p <> tP ->
      exists d,
        generateMoveNotation g from to (Some p) captured
        = String (type_letter (ptype p))
            (d ++ (if is_some captured then "x" else "") ++ to)
        /\ ((forall s, ~ alternative g from to p s) -> d = "")
        /\ ((exists s, alternative g from to p s) ->
            (forall s, alternative g from to p s ->
                       js_at s 0 <> js_at from 0) ->
            d = js_show (js_at from 0))
        /\ ((exists s, alternative g from to p s
                       /\ js_at s 0 = js_at from 0) ->
            (forall s, alternative g from to p s ->
                       js_at s 1 <> js_at from 1) ->
            d = js_show (js_at from 1))
        /\ ((exists s, alternative g from to p s
                       /\ js_at s 0 = js_at from 0) ->
            (exists s, alternative g from to p s
                       /\ js_at s 1 = js_at from 1) ->
            d = from))
  /\ (getPiece knights_b1_e2 "b1" = Some wN
      /\ getPiece knights_b1_e2 "e2" = Some wN
      /\ includes (getValidMoves knights_b1_e2 "b1") "c3" = true
      /\ includes (getValidMoves knights_b1_e2 "e2") "c3" = true
      /\ fst (makeMove knights_b1_e2 "b1" "c3") = true
      /\ getLastMoveNotation (snd (makeMove knights_b1_e2 "b1" "c3"))
         = "Nbc3").
Proof.
  split; [|vm_compute; repeat split; reflexivity].
  intros g from to p captured [Hnd _] Ht.
  set (amb := findAmbiguousMoves g from to (Some p)).
  assert (forall s, In s amb <-> alternative g from to p s) as Halt
      by (intros s; now apply findAmbiguousMoves_alternative).
  exists (disambiguator from amb).
  split; [now apply generateMoveNotation_piece|].
  split; [|split; [|split]].
  - intros Hno. destruct amb as [|s l] eqn:E; [reflexivity|].
    elim (Hno s). apply Halt. now left.
  - intros (s & Hs) Hall. apply disambiguator_file.
    + apply Halt in Hs. intros E. rewrite E in Hs. destruct Hs.
    + intros s' Hs'. apply Hall. now apply Halt.
  - intros (s & Hs & Hf) Hall.
    apply (disambiguator_rank from amb s); [now apply Halt | assumption|].
    intros s' Hs'. apply Hall. now apply Halt.
  - intros (s1 & Hs1 & Hf) (s2 & Hs2 & Hr).
    apply (disambiguator_square from amb s1 s2); try assumption;
      now apply Halt.
Qed.

Lemma disambiguation_file_rank_square_witness :
  exists d,
    generateMoveNotation knights_b1_e2 "b1" "c3" (Some wN) None
    = String "N" (d ++ "" ++ "c3")
    /\ d = "b".
Proof.
  assert (wf_position (position knights_b1_e2)) as Hwf
      by (apply wf_positionb_ok; vm_compute; reflexivity).
  assert (forall s, alternative knights_b1_e2 "b1" "c3" wN s <-> s = "e2")
    as Halt.
  { intros s.
    rewrite <- (findAmbiguousMoves_alternative _ _ _ _ _ (proj1 Hwf)).
    vm_compute. intuition. }
  destruct (proj1 disambiguation_file_rank_square
              knights_b1_e2 "b1" "c3" wN None Hwf)
    as (d & E & _ & Hfile & _); [discriminate|].
  exists d. split; [exact E|]. apply Hfile.
  - exists "e2". exact (proj2 (Halt "e2") eq_refl).
  - intros s Hs. rewrite (proj1 (Halt s) Hs). discriminate.
Defined.

(** ** Clones do not share their position *)

Section Store.

Context {A : Type}.

Lemma length_list_set (i : nat) (x : A) (l : list A) :
  length (list_set i x l) = length l.
Proof.
  revert i. induction l as [|y l IH]; intros [|i]; simpl; auto.
Qed.

Lemma nth_list_set_same (i : nat) (x d : A) (l : list A) :
  (i < length l)%nat -> nth i (list_set i x l) d = x.
Proof.
  revert i. induction l as [|y l IH]; intros [|i]; simpl; intros H;
    try lia; [reflexivity|]. apply IH. lia.
Qed.

Lemma nth_list_set_other (i j : nat) (x d : A) (l : list A) :
  i <> j -> nth j (list_set i x l) d = nth j l d.
Proof.
  revert i j. induction l as [|y l IH]; intros [|i] [|j] H; simpl;
    try reflexivity; try congruence. apply IH. congruence.
Qed.

End Store.

(** [makeMove] never redirects the position field of any game. *)
Lemma heap_makeMove_position_field (h : Heap) (x y : nat) from to :
  obj_position (deref_obj (snd (heap_makeMove h x from to)) y)
  = obj_position (deref_obj h y).
Proof.
  unfold heap_makeMove, deref_obj. simpl.
  destruct (Nat.eq_dec x y) as [->|Hne].
  - destruct (Nat.lt_ge_cases y (length (objects h))) as [Hlt|Hge].
    + now rewrite nth_list_set_same.
    + rewrite !nth_overflow; [reflexivity | assumption |].
      now rewrite length_list_set.
  - now rewrite nth_list_set_other.
Qed.

(** [makeMove] on one game leaves every other position object as it
    was. *)
Lemma heap_makeMove_other_position (h : Heap) (x : nat) from to (i : nat) :
  i <> obj_position (deref_obj h x) ->
  nth i (positions (snd (heap_makeMove h x from to))) []
  = nth i (positions h) [].
Proof.
  intros Hne. unfold heap_makeMove. simpl.
  apply nth_list_set_other. congruence.
Qed.

(** Moves played on a game do not change what another game sees on any
    square, as long as the two games have different position objects. *)
Lemma heap_play_frame (ms : list (string * string)) (h : Heap) (x y : nat)
  square :
  obj_position (deref_obj h x) <> obj_position (deref_obj h y) ->
  heap_getPiece (heap_play h x ms) y square = heap_getPiece h y square.
Proof.
  revert h. induction ms as [|[from to] rest IH]; intros h Hne;
    cbn [heap_play]; [reflexivity|].
  rewrite IH by (rewrite !heap_makeMove_position_field; assumption).
  unfold heap_getPiece, getPiece, snapshot. cbn [position].
  rewrite heap_makeMove_position_field.
  now rewrite heap_makeMove_other_position by congruence.
Qed.

Lemma heap_clone_original (h : Heap) (a : nat) :
  (a < length (objects h))%nat ->
  deref_obj (fst (heap_clone h a)) a = deref_obj h a
  /\ snd (heap_clone h a) <> a.
Proof.
  intros Ha. unfold heap_clone, deref_obj. simpl. split; [|lia].
  rewrite nth_list_set_other by lia. now apply app_nth1.
Qed.

Lemma heap_clone_copy (h : Heap) (a : nat) :
  deref_obj (fst (heap_clone h a)) (snd (heap_clone h a))
  = mkObj (S (length (positions h))) (currentPlayer (snapshot h a))
      (S (length (histories h)))
  /\ snapshot (fst (heap_clone h a)) (snd (heap_clone h a)) = snapshot h a.
Proof.
  assert (deref_obj (fst (heap_clone h a)) (snd (heap_clone h a))
          = mkObj (S (length (positions h))) (currentPlayer (snapshot h a))
              (S (length (histories h)))) as E.
  { unfold heap_clone, deref_obj. simpl.
    rewrite nth_list_set_same by (rewrite length_app; simpl; lia).
    rewrite !length_app. simpl. f_equal; lia. }
  split; [exact E|].
  unfold snapshot at 1. rewrite E. simpl.
  replace (S (length (positions h)))
    with (length (positions h ++ [getInitialPosition]) + 0)%nat
    by (rewrite length_app; simpl; lia).
  replace (S (length (histories h)))
    with (length (histories h ++ [[]]) + 0)%nat
    by (rewrite length_app; simpl; lia).
  rewrite !app_nth2_plus. reflexivity.
Qed.

(** The references the constructor and [clone] return are valid, and
    [makeMove] keeps every valid reference valid. *)
Lemma valid_ref_new (h : Heap) :
  valid_ref (fst (heap_new h)) (snd (heap_new h)).
Proof.
  unfold valid_ref, heap_new, deref_obj. simpl.
  rewrite !length_app, nth_middle. simpl. lia.
Qed.

Lemma valid_ref_clone (h : Heap) (a : nat) :
  valid_ref (fst (heap_clone h a)) (snd (heap_clone h a)).
Proof.
  unfold valid_ref. rewrite (proj1 (heap_clone_copy h a)).
  unfold heap_clone. simpl.
  rewrite length_list_set, !length_app. simpl. lia.
Qed.

Lemma valid_ref_makeMove (h : Heap) (a x : nat) from to :
  valid_ref h a -> valid_ref (snd (heap_makeMove h x from to)) a.
Proof.
  intros [Ha Hp]. unfold valid_ref.
  rewrite heap_makeMove_position_field.
  unfold heap_makeMove. simpl. now rewrite !length_list_set.
Qed.

(** C7: clone independence.  For a game [a] of the store, [clone]
    returns a game that shows the same pieces, and from then on no
    sequence of [makeMove] calls on the clone changes what [getPiece]
    returns on the original for any square, nor does any sequence of
    calls on the original change what it returns on the clone. *)
Theorem clone_is_independent (h : Heap) (a : nat) :
  valid_ref h a ->
  let h1 := fst (heap_clone h a) in
  let c := snd (heap_clone h a) in
  (forall square, heap_getPiece h1 c square = heap_getPiece h a square)
  /\ (forall ms square,
         heap_getPiece (heap_play h1 c ms) a square
         = heap_getPiece h a square)
  /\ (forall ms square,
         heap_getPiece (heap_play h1 a ms) c square
         = heap_getPiece h a square).
Proof.
  intros [Ha Hpa] h1 c.
  destruct (heap_clone_original h a Ha) as [Horig Hca].
  destruct (heap_clone_copy h a) as [Hcopy Hsnap].
  fold h1 in Horig, Hcopy, Hsnap. fold c in Hca, Hcopy, Hsnap.
  assert (obj_position (deref_obj h1 c) <> obj_position (deref_obj h1 a))
    as Hdiff by (rewrite Horig, Hcopy; simpl; lia).
  assert (forall square, heap_getPiece h1 a square = heap_getPiece h a square)
    as Hsame.
  { intros square. unfold heap_getPiece, getPiece, snapshot.
    rewrite Horig. simpl. f_equal. unfold h1, heap_clone. simpl.
    rewrite <- app_assoc. now rewrite app_nth1. }
  assert (forall square, heap_getPiece h1 c square = heap_getPiece h a square)
    as Hclone by (intros square; unfold heap_getPiece; now rewrite Hsnap).
  split; [exact Hclone|]. split; intros ms square.
  - rewrite heap_play_frame by assumption. apply Hsame.
  - rewrite heap_play_frame by congruence. apply Hclone.
Qed.

Lemma clone_is_independent_witness :
  let h := fst (heap_new (mkHeap [] [] [])) in
  let h1 := fst (heap_clone h 0) in
  let c := snd (heap_clone h 0) in
  heap_getPiece (heap_play h1 c [("e2", "e4")]) 0%nat "e2"
  = heap_getPiece h 0%nat "e2".
Proof.
  intros h h1 c.
  apply (proj1 (proj2 (clone_is_independent h 0%nat
                         (conj (Nat.lt_0_succ 0) (Nat.lt_0_succ 0))))).
Defined.

(** The moves do reach the clone: after e2-e4 on the clone, the clone has
    the pawn on e4 and the original still has it on e2. *)
Example clone_moves_alone :
  let h := fst (heap_new (mkHeap [] [] [])) in
  let h1 := fst (heap_clone h 0) in
  let c := snd (heap_clone h 0) in
  let h2 := heap_play h1 c [("e2", "e4")] in
  heap_getPiece h2 c "e4" = Some wP /\ heap_getPiece h2 c "e2" = None
  /\ heap_getPiece h2 0%nat "e4" = None
  /\ heap_getPiece h2 0%nat "e2" = Some wP.
Proof. vm_compute. repeat split; reflexivity. Qed.

(** ** Reading back a generated notation *)

Lemma strip_right_keeps (p : ascii -> bool) (s : string) (c : ascii) :
  p c = false -> strip_right p (s ++ String c "") = s ++ String c "".
Proof.
  intros Hc. induction s as [|c0 s IH]; simpl.
  - now rewrite Hc.
  - rewrite IH. destruct s; reflexivity.
Qed.

(** Stripping glyphs and trimming leave alone a string that starts with
    a character that is no white space and ends with one that is neither
    white space nor a glyph. *)
Lemma normalise_id (c0 : ascii) (s : string) (c : ascii) :
  is_space c0 = false -> is_space c = false -> is_glyph c = false ->
  trim (strip_right is_glyph (String c0 (s ++ String c "")))
  = String c0 (s ++ String c "").
Proof.
  intros H0 Hs Hg.
  change (String c0 (s ++ String c "")) with (String c0 s ++ String c "").
  rewrite strip_right_keeps by assumption.
  unfold trim. simpl strip_left. rewrite H0.
  change (String c0 (s ++ String c "")) with (String c0 s ++ String c "").
  now apply strip_right_keeps.
Qed.

Lemma letter_is_not_space (t : PType) : is_space (type_letter t) = false.
Proof. now destruct t. Qed.

Section Patterns.

Variables a c ta tc : ascii.
Hypothesis Ha : is_file a = true.
Hypothesis Hc : is_rank c = true.
Hypothesis Hta : is_file ta = true.
Hypothesis Htc : is_rank tc = true.

Let to := String ta (String tc "").

Ltac classes :=
  unfold parsePattern, matches, letter_at0, js_at, to;
  repeat first
    [ rewrite Ha | rewrite Hc | rewrite Hta | rewrite Htc
    | rewrite (file_is_not_rank _ Ha) | rewrite (file_is_not_x _ Ha)
    | rewrite (rank_is_not_file _ Hc) | rewrite (rank_is_not_x _ Hc)
    | rewrite (file_is_not_rank _ Hta) | rewrite (file_is_not_x _ Hta)
    | rewrite (rank_is_not_file _ Htc) | rewrite (rank_is_not_x _ Htc)
    | progress simpl ].

Lemma parsePattern_pawn_move :
  parsePattern to = Some (mkParsed tP None None false to).
Proof. classes. reflexivity. Qed.

Lemma parsePattern_pawn_capture :
  parsePattern (String a (String "x" to))
  = Some (mkParsed tP (Some a) None true to).
Proof. classes. reflexivity. Qed.

Lemma parsePattern_piece (t : PType) (capture : bool) :
  t <> tP ->
  parsePattern
    (String (type_letter t) ((if capture then "x" else "") ++ to))
  = Some (mkParsed t None None capture to).
Proof.
  intros Ht. destruct t; try (now elim Ht); destruct capture; classes;
    reflexivity.
Qed.

Lemma parsePattern_piece_file (t : PType) (capture : bool) :
  t <> tP ->
  parsePattern
    (String (type_letter t)
       (String a "" ++ (if capture then "x" else "") ++ to))
  = Some (mkParsed t (Some a) None capture to).
Proof.
  intros Ht. destruct t; try (now elim Ht); destruct capture; classes;
    reflexivity.
Qed.

Lemma parsePattern_piece_rank (t : PType) (capture : bool) :
  t <> tP ->
  parsePattern
    (String (type_letter t)
       (String c "" ++ (if capture then "x" else "") ++ to))
  = Some (mkParsed t None (Some c) capture to).
Proof.
  intros Ht. destruct t; try (now elim Ht); destruct capture; classes;
    reflexivity.
Qed.

End Patterns.

(** ** Pawn moves by coordinates *)

Lemma pawn_target_name (f r d : Z) :
  js_show (fileChar f) ++ show_num (num_add (num_add (Some r) 1) d)
  = sq f (r + d).
Proof.
  unfold sq, squareName, num_add.
  now replace (r + 1 + d) with (r + d + 1) by lia.
Qed.

Lemma in_board_range (z : Z) : in_board z = true <-> 0 <= z < 8.
Proof. unfold in_board. rewrite andb_true_iff. lia. Qed.

(** Where a pawn on the square in file [f], rank row [r] can go: one row
    ahead onto an empty square; two rows ahead from its starting row over
    and onto empty squares; or one row ahead on a neighbouring file onto a
    piece of the other colour. *)
Lemma In_getPawnMoves (g : ChessGame) (f r : Z) (c : Color) (t : string) :
  0 <= f < 8 -> 0 <= r < 8 ->
  In t (getPawnMoves g (sq f r) c) ->
  (t = sq f (r + direction c) /\ 0 <= r + direction c < 8
   /\ getPiece g t = None)
  \/ (t = sq f (r + direction c * 2) /\ r = startRank c
      /\ getPiece g (sq f (r + direction c)) = None /\ getPiece g t = None)
  \/ (exists off q,
         (off = -1 \/ off = 1) /\ 0 <= f + off < 8
         /\ 0 <= r + direction c < 8
         /\ t = sq (f + off) (r + direction c)
         /\ getPiece g t = Some q /\ pcolor q <> c).
Proof.
  intros Hf Hr. unfold getPawnMoves. cbv zeta.
  rewrite (proj2 (sq_file f r Hf Hr)), (proj1 (sq_file f r Hf Hr)).
  rewrite (sq_rank f r Hf Hr).
  change (match c with cW => 1 | cB => -1 end) with (direction c).
  change (match c with cW => 1 | cB => 6 end) with (startRank c).
  rewrite !pawn_target_name.
  assert (-2 <= r + direction c < 10 /\ -2 <= r + direction c * 2 < 10)
    as [Hd1 Hd2] by (destruct c; simpl; lia).
  rewrite in_app_iff. intros [H|H].
  - rewrite isValidSquare_sq_iff in H by assumption.
    destruct (in_board (r + direction c)) eqn:Hb; [|destruct H].
    apply in_board_range in Hb.
    destruct (getPiece g (sq f (r + direction c))) eqn:E1; [destruct H|].
    destruct H as [<-|H]; [left; auto|].
    unfold num_eqb in H.
    destruct (r =? startRank c) eqn:Es; [|destruct H].
    apply Z.eqb_eq in Es.
    destruct (isValidSquare (sq f (r + direction c * 2))); [|destruct H].
    destruct (getPiece g (sq f (r + direction c * 2))) eqn:E2; [destruct H|].
    destruct H as [<-|[]]. right. left. auto.
  - apply in_flat_map in H. destruct H as (off & Hoff & H).
    assert (off = -1 \/ off = 1) as Hoff' by (simpl in Hoff; intuition).
    destruct (in_board (f + off)) eqn:Hbf; [|destruct H].
    apply in_board_range in Hbf.
    rewrite pawn_target_name in H.
    rewrite isValidSquare_sq_iff in H by assumption.
    destruct (in_board (r + direction c)) eqn:Hb; [|destruct H].
    apply in_board_range in Hb.
    destruct (getPiece g (sq (f + off) (r + direction c))) as [q|] eqn:E;
      [|destruct H].
    destruct (color_eqb (pcolor q) c) eqn:Ec; simpl in H; [destruct H|].
    destruct H as [<-|[]]. right. right. exists off, q.
    apply color_eqb_neq in Ec. auto 10.
Qed.

Lemma In_validMoves_pawn (g : ChessGame) from to p :
  getPiece g from = Some p -> ptype p = tP ->
  In to (getValidMoves g from) -> In to (getPawnMoves g from (pcolor p)).
Proof.
  intros Hp Ht. unfold getValidMoves. rewrite Hp, Ht.
  destruct (negb (color_eqb (pcolor p) (currentPlayer g))); [intros []|].
  intros H. apply filter_In in H. tauto.
Qed.

Lemma sq_same_file (f r f' r' : Z) :
  0 <= f < 8 -> 0 <= r < 8 -> 0 <= f' < 8 -> 0 <= r' < 8 ->
  js_at (sq f r) 0 = js_at (sq f' r') 0 -> f = f'.
Proof.
  intros Hf Hr Hf' Hr' E.
  rewrite <- (proj2 (sq_file f r Hf Hr)), E.
  apply (proj2 (sq_file f' r' Hf' Hr')).
Qed.

(** Two pawns of one colour that can both move to [to] are the same
    pawn, when [to] is empty or the pawns are on the same file. *)
Lemma pawn_origin_unique (g : ChessGame) (c : Color) from s to :
  isValidSquare from = true -> isValidSquare s = true ->
  isValidSquare to = true ->
  is_some (getPiece g from) = true -> is_some (getPiece g s) = true ->
  In to (getPawnMoves g from c) -> In to (getPawnMoves g s c) ->
  getPiece g to = None \/ js_at s 0 = js_at from 0 ->
  s = from.
Proof.
  intros Hvf Hvs Hvt Hof Hos Hfrom Hs Hcase.
  destruct (isValidSquare_sq _ Hvf) as (f & r & Hf & Hr & ->).
  destruct (isValidSquare_sq _ Hvs) as (f' & r' & Hf' & Hr' & ->).
  destruct (isValidSquare_sq _ Hvt) as (tf & tr & Htf & Htr & ->).
  apply In_getPawnMoves in Hfrom; [|assumption..].
  apply In_getPawnMoves in Hs; [|assumption..].
  assert (forall x y, 0 <= x < 8 -> 0 <= y < 8 ->
                      sq tf tr = sq x y -> tf = x /\ tr = y) as Hinj
      by (intros x y Hx Hy; now apply sq_inj).
  assert (startRank c + direction c * 2 = 3
          \/ startRank c + direction c * 2 = 4) as Hstart
      by (destruct c; simpl; lia).
  destruct Hfrom as [(E1 & B1 & T1) | [(E1 & S1 & M1 & T1)
                    | (o1 & q1 & O1 & F1 & B1 & E1 & T1 & C1)]];
    destruct Hs as [(E2 & B2 & T2) | [(E2 & S2 & M2 & T2)
                   | (o2 & q2 & O2 & F2 & B2 & E2 & T2 & C2)]];
    try congruence;
    try (apply Hinj in E1; [|lia..]); try (apply Hinj in E2; [|lia..]);
    destruct E1 as [-> E1], E2 as [E2f E2].
  - f_equal; lia.
  - replace (sq f r) with (sq f' (r' + direction c)) in Hof
      by (f_equal; lia).
    rewrite M2 in Hof. discriminate.
  - replace (sq f' r') with (sq f (r + direction c)) in Hos
      by (f_equal; lia).
    rewrite M1 in Hos. discriminate.
  - f_equal; lia.
  - destruct Hcase as [Hn|Hsame]; [congruence|].
    apply sq_same_file in Hsame; [|assumption..].
    f_equal; lia.
Qed.

(** A pawn that moves onto an empty square stays on its file. *)
Lemma pawn_quiet_move_same_file (g : ChessGame) (c : Color) from to :
  isValidSquare from = true ->
  In to (getPawnMoves g from c) -> getPiece g to = None ->
  js_at to 0 = js_at from 0.
Proof.
  intros Hvf Hin Hnone.
  destruct (isValidSquare_sq _ Hvf) as (f & r & Hf & Hr & ->).
  apply In_getPawnMoves in Hin; [|assumption..].
  assert (startRank c + direction c * 2 = 3
          \/ startRank c + direction c * 2 = 4) as Hstart
      by (destruct c; simpl; lia).
  destruct Hin as [(-> & B & _) | [(-> & S1 & _)
                  | (off & q & _ & _ & _ & _ & T & _)]];
    [| |congruence];
    rewrite (proj1 (sq_file f r Hf Hr)); apply sq_file; lia.
Qed.

(** ** Candidates of the parser *)

Lemma constraint_holds (c actual : option ascii) :
  constraint_fails c actual = false <-> c = None \/ actual = c.
Proof.
  unfold constraint_fails. destruct c as [x|].
  - rewrite negb_false_iff, opt_ascii_eqb_eq.
    split; [auto | intros [H|H]; [discriminate | assumption]].
  - split; auto.
Qed.

Lemma isCandidate_facts (g : ChessGame) (q : Parsed) s v :
  isCandidate g q s v = true ->
  v = Some (mkPiece (currentPlayer g) (pieceType q))
  /\ (fromFile q = None \/ js_at s 0 = fromFile q)
  /\ (fromRank q = None \/ js_at s 1 = fromRank q)
  /\ In (toSquare q) (getValidMoves g s)
  /\ (isCapture q = false -> getPiece g (toSquare q) = None).
Proof.
  unfold isCandidate. destruct v as [pc|]; [|discriminate].
  destruct (piece_eqb pc (mkPiece (currentPlayer g) (pieceType q))) eqn:Ep;
    [|discriminate].
  destruct (constraint_fails (fromFile q) (js_at s 0)) eqn:Ef; [discriminate|].
  destruct (constraint_fails (fromRank q) (js_at s 1)) eqn:Er; [discriminate|].
  destruct (includes (getValidMoves g s) (toSquare q)) eqn:Ei; [|discriminate].
  simpl. intros H.
  apply piece_eqb_eq in Ep. apply constraint_holds in Ef, Er.
  apply includes_In in Ei. repeat (split; [now subst|]).
  intros Hcap. rewrite Hcap in H.
  now destruct (getPiece g (toSquare q)).
Qed.

Lemma isCandidate_origin (g : ChessGame) (q : Parsed) from p :
  p = mkPiece (currentPlayer g) (pieceType q) ->
  fromFile q = None \/ js_at from 0 = fromFile q ->
  fromRank q = None \/ js_at from 1 = fromRank q ->
  In (toSquare q) (getValidMoves g from) ->
  getPiece g from = Some p ->
  isCapture q = is_some (getPiece g (toSquare q)) ->
  isCandidate g q from (Some p) = true.
Proof.
  intros -> Hf Hr Hin Hp Hcap. unfold isCandidate.
  rewrite piece_eqb_refl. simpl.
  apply constraint_holds in Hf, Hr. rewrite Hf, Hr.
  rewrite (proj2 (includes_In _ _) Hin). simpl. rewrite Hcap.
  destruct (getPiece g (toSquare q)) as [t|] eqn:Et; simpl; [|reflexivity].
  apply negb_true_iff, color_eqb_neq.
  exact (validMoves_target g from (toSquare q) _ t Hin Hp Et).
Qed.

Lemma filter_none {A : Type} (f : A -> bool) (l : list A) :
  (forall x, In x l -> f x = false) -> filter f l = [].
Proof.
  induction l as [|x l IH]; simpl; intros H; [reflexivity|].
  rewrite (H x) by now left. apply IH. intros y Hy. apply H. now right.
Qed.

(** When the origin is a candidate and no other key is, the candidate
    list is the origin alone. *)
Lemma candidates_unique (g : ChessGame) (q : Parsed) from p :
  NoDup (map fst (position g)) ->
  In (from, Some p) (position g) ->
  isCandidate g q from (Some p) = true ->
  (forall s v, In (s, v) (position g) -> s <> from ->
               isCandidate g q s v = false) ->
  findCandidatePieces g q = [from].
Proof.
  unfold findCandidatePieces.
  induction (position g) as [|[k v] rest IH];
    cbn [filter map fst snd In]; intros Hnd Hin Hc Hoth; [destruct Hin|].
  inversion Hnd as [|? ? Hnot Hnd']; subst.
  destruct Hin as [E|Hin].
  - injection E as -> ->. rewrite Hc. cbn [map fst].
    rewrite filter_none; [reflexivity|].
    intros [s v] Hs. cbn [fst snd]. apply Hoth; [now right|].
    intros ->. apply Hnot. apply in_map_iff. now exists (from, v).
  - assert (k <> from) as Hk.
    { intros ->. apply Hnot. apply in_map_iff. now exists (from, Some p). }
    rewrite (Hoth k v (or_introl eq_refl) Hk).
    apply IH; auto.
Qed.

Lemma parse_resolves (g : ChessGame) (c0 : ascii) (s : string) (c : ascii)
  (q : Parsed) from :
  is_space c0 = false -> is_rank c = true ->
  parsePattern (String c0 (s ++ String c "")) = Some q ->
  findCandidatePieces g q = [from] ->
  parseAlgebraicNotation g (String c0 (s ++ String c ""))
  = Some (from, toSquare q).
Proof.
  intros H0 Hc Hpat Hcand. unfold parseAlgebraicNotation.
  rewrite normalise_id
    by auto using rank_is_not_space, rank_is_not_glyph.
  set (n := String c0 (s ++ String c "")) in *.
  destruct (String.eqb n "O-O") eqn:E1;
    [apply String.eqb_eq in E1; rewrite E1 in Hpat; discriminate|].
  destruct (String.eqb n "0-0") eqn:E2;
    [apply String.eqb_eq in E2; rewrite E2 in Hpat; discriminate|].
  destruct (String.eqb n "O-O-O") eqn:E3;
    [apply String.eqb_eq in E3; rewrite E3 in Hpat; discriminate|].
  destruct (String.eqb n "0-0-0") eqn:E4;
    [apply String.eqb_eq in E4; rewrite E4 in Hpat; discriminate|].
  simpl. now rewrite Hpat, Hcand.
Qed.

Lemma last_char_split (n : string) (c : ascii) :
  last_char n = Some c -> exists s, n = s ++ String c "".
Proof.
  induction n as [|c0 n IH]; simpl; [discriminate|].
  destruct n as [|c1 n].
  - intros [= ->]. now exists "".
  - intros H. destruct (IH H) as (s & E). exists (String c0 s).
    simpl. now rewrite <- E.
Qed.

(** A notation that begins with a character that is no white space and
    ends with a rank digit is parsed by its pattern and its candidates. *)
Lemma parse_by_pattern (g : ChessGame) (n : string) (q : Parsed) from
  (c0 c : ascii) :
  js_at n 0 = Some c0 -> is_space c0 = false ->
  last_char n = Some c -> is_rank c = true ->
  parsePattern n = Some q ->
  findCandidatePieces g q = [from] ->
  parseAlgebraicNotation g n = Some (from, toSquare q).
Proof.
  intros H0 Hs Hl Hc Hpat Hcand.
  destruct n as [|c1 n]; [discriminate|].
  injection H0 as ->.
  assert (exists s, n = s ++ String c "") as (s & ->).
  { destruct n as [|c2 n].
    - simpl in Hpat. unfold parsePattern in Hpat. simpl in Hpat.
      now rewrite !andb_false_r in Hpat.
    - apply last_char_split. exact Hl. }
  now apply parse_resolves.
Qed.

Lemma three_squares_count (pos : ChessPosition) (p : Piece) k1 k2 k3 :
  In (k1, Some p) pos -> In (k2, Some p) pos -> In (k3, Some p) pos ->
  k1 <> k2 -> k1 <> k3 -> k2 <> k3 ->
  (3 <= countPiece p pos)%nat.
Proof.
  intros H1 H2 H3 N12 N13 N23. unfold countPiece.
  apply (NoDup_incl_length
           (l := [(k1, Some p); (k2, Some p); (k3, Some p)])).
  - repeat constructor; simpl; intuition congruence.
  - intros x [<-|[<-|[<-|[]]]]; apply filter_In; split; try assumption;
      unfold piece_is; simpl; apply piece_eqb_refl.
Qed.

Section RoundTrip.

Variable g : ChessGame.
Variables from to : string.
Variable p : Piece.
Hypothesis Hwf : wf_position (position g).
Hypothesis Hfew : few_pieces (position g).
Hypothesis Hp : getPiece g from = Some p.
Hypothesis Hturn : pcolor p = currentPlayer g.
Hypothesis Hin : In to (getValidMoves g from).

Let amb := findAmbiguousMoves g from to (Some p).

Lemma origin_candidate (q : Parsed) :
  pieceType q = ptype p -> toSquare q = to ->
  fromFile q = None \/ js_at from 0 = fromFile q ->
  fromRank q = None \/ js_at from 1 = fromRank q ->
  isCapture q = is_some (getPiece g to) ->
  isCandidate g q from (Some p) = true.
Proof.
  intros Ht Hto Hf Hr Hcap. apply isCandidate_origin; try assumption.
  - rewrite <- Hturn, Ht. now destruct p.
  - now rewrite Hto.
  - now rewrite Hto.
Qed.

Lemma other_candidate (q : Parsed) s v :
  pieceType q = ptype p -> toSquare q = to ->
  In (s, v) (position g) -> s <> from ->
  isCandidate g q s v = true ->
  In (s, Some p) (position g)
  /\ In s amb
  /\ (fromFile q = None \/ js_at s 0 = fromFile q)
  /\ (fromRank q = None \/ js_at s 1 = fromRank q)
  /\ In to (getValidMoves g s)
  /\ (isCapture q = false -> getPiece g to = None).
Proof.
  intros Ht Hto Hs Hne Hc.
  destruct (isCandidate_facts g q s v Hc) as (Hv & Hf & Hr & Hi & Hcap).
  rewrite Hto in Hi, Hcap. rewrite <- Hturn, Ht in Hv.
  assert (v = Some p) as -> by (rewrite Hv; now destruct p).
  repeat (split; [assumption|]). split; [|auto].
  apply In_findAmbiguousMoves. exists p. auto.
Qed.

(** The resolver cannot return one square on the origin's file and one
    on its rank: with the origin that would be three squares holding
    the same kind of piece. *)
Lemma no_square_disambiguator (s1 s2 : string) :
  ptype p <> tP ->
  In s1 amb -> js_at s1 0 = js_at from 0 ->
  In s2 amb -> js_at s2 1 = js_at from 1 -> False.
Proof.
  intros Ht H1 F1 H2 R2.
  apply In_findAmbiguousMoves in H1, H2.
  destruct H1 as (q1 & I1 & C1 & T1 & N1 & _).
  destruct H2 as (q2 & I2 & C2 & T2 & N2 & _).
  assert (q1 = p) as -> by (destruct q1, p; simpl in *; congruence).
  assert (q2 = p) as -> by (destruct q2, p; simpl in *; congruence).
  destruct Hwf as [Hnd HF]. rewrite Forall_forall in HF.
  pose proof (getPiece_In _ _ _ Hp) as I0.
  destruct (isValidSquare_chars _ (HF _ I0)) as (a & c & E0 & _).
  destruct (isValidSquare_chars _ (HF _ I1)) as (a1 & c1 & E1 & _).
  destruct (isValidSquare_chars _ (HF _ I2)) as (a2 & c2 & E2 & _).
  simpl in E0, E1, E2. subst from s1 s2.
  injection F1 as ->. injection R2 as ->.
  assert (3 <= countPiece p (position g))%nat as H3.
  { apply (three_squares_count _ _ _ _ _ I0 I1 I2); congruence. }
  specialize (Hfew p Ht). lia.
Qed.

End RoundTrip.

Section RoundTripCases.

Variable g : ChessGame.
Variables from to : string.
Variable p : Piece.
Hypothesis Hwf : wf_position (position g).
Hypothesis Hfew : few_pieces (position g).
Hypothesis Hp : getPiece g from = Some p.
Hypothesis Hturn : pcolor p = currentPlayer g.
Hypothesis Hin : In to (getValidMoves g from).

(** The notation of a piece move reads back as the move. *)
Lemma round_trip_piece :
  ptype p <> tP ->
  parseAlgebraicNotation g
    (generateMoveNotation g from to (Some p) (getPiece g to))
  = Some (from, to).
Proof.
  intros Ht.
  pose proof (wf_key_valid g from p Hwf Hp) as Hvf.
  pose proof (proj1 (validMoves_filter g from to Hin)) as Hvt.
  pose proof (getPiece_In _ _ _ Hp) as Hfrom.
  destruct (isValidSquare_chars _ Hvf) as (a & c & Efrom & Ha & Hc).
  destruct (isValidSquare_chars _ Hvt) as (ta & tc & Eto & Hta & Htc).
  rewrite generateMoveNotation_piece by assumption.
  remember (findAmbiguousMoves g from to (Some p)) as amb eqn:Eamb.
  set (capture := is_some (getPiece g to)).
  assert (forall q s v,
             pieceType q = ptype p -> toSquare q = to ->
             In (s, v) (position g) -> s <> from ->
             isCandidate g q s v = true ->
             In s amb
             /\ (fromFile q = None \/ js_at s 0 = fromFile q)
             /\ (fromRank q = None \/ js_at s 1 = fromRank q)) as Hother.
  { intros q s v Hq1 Hq2 Hs Hne Hcand. rewrite Eamb.
    destruct (other_candidate g from to p Hp Hturn q s v Hq1 Hq2 Hs Hne Hcand)
      as (_ & H1 & H2 & H3 & _). auto. }
  assert (forall q,
             pieceType q = ptype p -> toSquare q = to ->
             isCapture q = capture ->
             fromFile q = None \/ js_at from 0 = fromFile q ->
             fromRank q = None \/ js_at from 1 = fromRank q ->
             (forall s, s <> from -> In s amb ->
                        (fromFile q = None \/ js_at s 0 = fromFile q) ->
                        (fromRank q = None \/ js_at s 1 = fromRank q) ->
                        False) ->
             findCandidatePieces g q = [from]) as Hunique.
  { intros q Hq1 Hq2 Hq3 Hf Hr Hno.
    apply candidates_unique with p; try assumption.
    - apply Hwf.
    - now apply origin_candidate with to.
    - intros s v Hs Hne.
      destruct (isCandidate g q s v) eqn:Hcand; [exfalso | reflexivity].
      destruct (Hother q s v Hq1 Hq2 Hs Hne Hcand) as (H1 & H2 & H3).
      now apply (Hno s). }
  unfold disambiguator. subst to.
  destruct amb as [|m l] eqn:Eamb'.
  - set (q := mkParsed (ptype p) None None capture
                (String ta (String tc ""))).
    apply (parse_by_pattern g _ q from (type_letter (ptype p)) tc);
      [ reflexivity | apply letter_is_not_space
      | unfold capture; destruct (is_some _); reflexivity | assumption
      | exact (parsePattern_piece ta tc Hta Htc (ptype p) capture Ht) | ].
    apply Hunique;
      [reflexivity | reflexivity | reflexivity | now left | now left|].
    intros s _ [].
  - rewrite <- Eamb' in Eamb, Hunique |- *. clear Eamb' Hother.
    destruct (existsb
                (fun move => opt_ascii_eqb (js_at move 0) (js_at from 0))
                amb) eqn:E0; cbn [negb].
    + destruct (existsb
                  (fun move => opt_ascii_eqb (js_at move 1) (js_at from 1))
                  amb) eqn:E1; cbn [negb].
      * exfalso. apply existsb_same in E0, E1.
        destruct E0 as (s1 & H1 & F1), E1 as (s2 & H2 & R2).
        rewrite Eamb in H1, H2.
        exact (no_square_disambiguator g from _ p Hwf Hfew Hp Hturn Hin
                 s1 s2 Ht H1 F1 H2 R2).
      * subst from.
        set (q := mkParsed (ptype p) None (Some c) capture
                    (String ta (String tc ""))).
        apply (parse_by_pattern g _ q _ (type_letter (ptype p)) tc);
          [ reflexivity | apply letter_is_not_space
          | unfold capture; destruct (is_some _); reflexivity | assumption
          | exact (parsePattern_piece_rank c ta tc Hc Hta Htc
                     (ptype p) capture Ht) | ].
        apply Hunique;
          [reflexivity | reflexivity | reflexivity | now left | now right|].
        intros s Hne Hs _ [Hr|Hr]; [discriminate|].
           assert (existsb
                     (fun move =>
                        opt_ascii_eqb (js_at move 1)
                          (js_at (String a (String c "")) 1))
                     amb = true) as X
               by (apply existsb_same; exists s; auto).
           congruence.
    + subst from.
      set (q := mkParsed (ptype p) (Some a) None capture
                  (String ta (String tc ""))).
      apply (parse_by_pattern g _ q _ (type_letter (ptype p)) tc);
        [ reflexivity | apply letter_is_not_space
        | unfold capture; destruct (is_some _); reflexivity | assumption
        | exact (parsePattern_piece_file a ta tc Ha Hta Htc
                   (ptype p) capture Ht) | ].
      apply Hunique;
        [reflexivity | reflexivity | reflexivity | now right | now left|].
      intros s Hne Hs [Hf|Hf] _; [discriminate|].
        assert (existsb
                  (fun move =>
                     opt_ascii_eqb (js_at move 0)
                       (js_at (String a (String c "")) 0))
                  amb = true) as X
            by (apply existsb_same; exists s; auto).
        congruence.
Qed.

(** The notation of a pawn move reads back as the move. *)
Lemma round_trip_pawn :
  ptype p = tP ->
  parseAlgebraicNotation g
    (generateMoveNotation g from to (Some p) (getPiece g to))
  = Some (from, to).
Proof.
  intros Ht.
  pose proof (wf_key_valid g from p Hwf Hp) as Hvf.
  pose proof (proj1 (validMoves_filter g from to Hin)) as Hvt.
  pose proof (getPiece_In _ _ _ Hp) as Hfrom.
  pose proof (In_validMoves_pawn g from to p Hp Ht Hin) as Hpm.
  destruct Hwf as [Hnd HF]. rewrite Forall_forall in HF.
  destruct (isValidSquare_chars _ Hvf) as (a & c & Efrom & Ha & Hc).
  destruct (isValidSquare_chars _ Hvt) as (ta & tc & Eto & Hta & Htc).
  rewrite generateMoveNotation_pawn by assumption.
  assert (forall q s v,
             pieceType q = ptype p -> toSquare q = to ->
             (isCapture q = false \/ fromFile q = js_at from 0) ->
             In (s, v) (position g) -> s <> from ->
             isCandidate g q s v = false) as Hother.
  { intros q s v Hq1 Hq2 Hq3 Hs Hne.
    destruct (isCandidate g q s v) eqn:Hcand; [exfalso | reflexivity].
    destruct (other_candidate g from to p Hp Hturn q s v Hq1 Hq2 Hs Hne Hcand)
      as (Hs' & _ & Hf & _ & Hmv & Hcap).
    assert (getPiece g s = Some p) as Hps by now apply In_getPiece.
    apply Hne.
    apply (pawn_origin_unique g (pcolor p) from s to); try assumption.
    - exact (HF _ Hs').
    - now rewrite Hp.
    - now rewrite Hps.
    - now apply In_validMoves_pawn.
    - destruct Hq3 as [Hq3|Hq3]; [left; auto | right].
      rewrite Hq3 in Hf. destruct Hf as [Hf|Hf]; [|assumption].
      rewrite Efrom in Hf. discriminate. }
  destruct (getPiece g to) as [t|] eqn:Et; cbn [is_some orb].
  - subst from to.
    set (q := mkParsed tP (Some a) None true (String ta (String tc ""))).
    apply (parse_by_pattern g _ q _ a tc); try assumption;
      try reflexivity.
    + now apply file_is_not_space.
    + now apply parsePattern_pawn_capture.
    + apply candidates_unique with p; try assumption.
      * apply origin_candidate with (String ta (String tc ""));
          auto; simpl; now rewrite ?Et.
      * intros s v. apply Hother; auto.
  - rewrite (proj2 (opt_ascii_eqb_eq _ _)); cbn [negb];
      [|symmetry; now apply (pawn_quiet_move_same_file g (pcolor p))].
    subst from to.
    set (q := mkParsed tP None None false (String ta (String tc ""))).
    apply (parse_by_pattern g _ q _ ta tc); try assumption;
      try reflexivity.
    + now apply file_is_not_space.
    + now apply parsePattern_pawn_move.
    + apply candidates_unique with p; try assumption.
      * apply origin_candidate with (String ta (String tc ""));
          auto; simpl; now rewrite ?Et.
      * intros s v. apply Hother; auto.
Qed.

End RoundTripCases.

(** C2: the notation codec round trip.  In every game reachable from
    the constructor, the notation recorded for a successful move, parsed
    against the game as it was before the move, gives back exactly the
    origin and the destination.  No tie-break is ever needed: the
    notation [makeMove] records admits one candidate only. *)
Theorem notation_round_trip (g : ChessGame) from to :
  reachable g ->
  fst (makeMove g from to) = true ->
  parseAlgebraicNotation g
    (getLastMoveNotation (snd (makeMove g from to)))
  = Some (from, to).
Proof.
  intros Hreach Hok.
  destruct (reachable_invariant g Hreach) as [Hwf Hfew].
  destruct (makeMove_success _ _ _ Hok) as (p & Hp & Hturn & Hin & ->).
  rewrite moved_without_castling
    by (apply castles_never with g; eauto using wf_key_valid).
  rewrite last_notation_snoc. cbn [move_notation].
  destruct (ptype p) eqn:Ht;
    try (apply round_trip_piece; [assumption.. | congruence]).
  now apply round_trip_pawn.
Qed.

Lemma notation_round_trip_witness :
  parseAlgebraicNotation newGame
    (getLastMoveNotation (snd (makeMove newGame "g1" "f3")))
  = Some ("g1", "f3").
Proof.
  apply (notation_round_trip newGame "g1" "f3").
  - exact reach_new.
  - reflexivity.
Defined.

(** ** The en-passant branch of the parser *)

Lemma en_passant_square (f : Z) (c : Color) :
  0 <= f < 8 ->
  js_show (fileChar f) ++ match c with cW => "5" | cB => "4" end
  = sq f (match c with cW => 4 | cB => 3 end).
Proof. intros Hf. enum8 Hf; destruct c; reflexivity. Qed.

Lemma en_passant_rank (f r : Z) (c : Color) :
  0 <= f < 8 -> 0 <= r < 8 ->
  opt_ascii_eqb (js_at (sq f r) 1)
    (Some match c with cW => "6" | cB => "3" end%char) = true ->
  r = match c with cW => 5 | cB => 2 end.
Proof.
  intros Hf Hr H. apply opt_ascii_eqb_eq in H.
  pose proof (sq_rank f r Hf Hr) as E. rewrite H in E.
  destruct c; vm_compute in E; congruence.
Qed.

(** In a well-formed position the en-passant test of the parser never
    adds a candidate: a pawn that has an empty target among its valid
    moves stands right behind it, on the very square the test wants an
    opposing pawn on. *)
Lemma en_passant_branch_dead (g : ChessGame) (q : Parsed) s v :
  wf_position (position g) ->
  In (s, v) (position g) ->
  pieceType q = tP -> isCapture q = true ->
  getPiece g (toSquare q) = None ->
  isCandidate g q s v = false.
Proof.
  intros [Hnd HF] Hs Hty Hcap Hnone.
  destruct (isCandidate g q s v) eqn:Hcand; [exfalso | reflexivity].
  destruct (isCandidate_facts g q s v Hcand) as (-> & _ & _ & Hmv & _).
  rewrite Forall_forall in HF. pose proof (HF _ Hs) as Hvs. simpl in Hvs.
  pose proof (proj1 (validMoves_filter g s _ Hmv)) as Hvt.
  pose proof (In_getPiece g s _ Hnd Hs) as Hps.
  apply (In_validMoves_pawn g s _ _ Hps) in Hmv; [|now rewrite Hty].
  unfold isCandidate in Hcand. rewrite piece_eqb_refl, Hcap, Hnone in Hcand.
  cbn [negb] in Hcand.
  repeat match type of Hcand with
         | (if ?b then false else _) = true =>
             destruct b; [discriminate|]
         end.
  apply andb_true_iff in Hcand. destruct Hcand as [_ Hep].
  unfold enPassantPattern in Hep. cbn [pcolor] in Hmv.
  destruct (isValidSquare_sq _ Hvs) as (f & r & Hf & Hr & ->).
  destruct (isValidSquare_sq _ Hvt) as (tf & tr & Htf & Htr & Eto).
  rewrite Eto in *.
  destruct (opt_ascii_eqb (js_at (sq tf tr) 1) _) eqn:Erank;
    [|discriminate].
  apply en_passant_rank in Erank; [|assumption..].
  rewrite (proj1 (sq_file tf tr Htf Htr)), en_passant_square in Hep
    by assumption.
  apply In_getPawnMoves in Hmv; [|assumption..].
  assert (sq tf (match currentPlayer g with cW => 4 | cB => 3 end)
          = sq f r) as Esq.
  { destruct Hmv as [(E & B & _) | [(E & S1 & _)
                    | (off & q' & _ & _ & _ & _ & T & _)]];
      [| |congruence];
      apply sq_inj in E; try assumption;
        destruct (currentPlayer g); simpl in *; try lia;
        f_equal; lia. }
  rewrite Esq, Hps in Hep. cbn [pcolor] in Hep.
  now rewrite color_eqb_refl in Hep.
Qed.

(** C3, at a state with the en-passant pattern: after e2-e4, a7-a6,
    e4-e5, d7-d5 a white pawn stands on e5, a black pawn on d5, d6 is
    empty and White is to move; parsing exd6 gives no move, because d6 is
    not among the valid moves of the pawn on e5 and the candidate is
    dropped before the en-passant test is reached. *)
Theorem parse_en_passant_gives_null :
  reachable en_passant_game
  /\ snd (play newGame
            [("e2", "e4"); ("a7", "a6"); ("e4", "e5"); ("d7", "d5")]) = 4%nat
  /\ getPiece en_passant_game "e5" = Some wP
  /\ getPiece en_passant_game "d5" = Some bP
  /\ getPiece en_passant_game "d6" = None
  /\ currentPlayer en_passant_game = cW
  /\ includes (getValidMoves en_passant_game "e5") "d6" = false
  /\ enPassantPattern en_passant_game "d6" = true
  /\ parseAlgebraicNotation en_passant_game "exd6" = None.
Proof.
  split; [apply play_reachable, reach_new|].
  vm_compute. repeat split; reflexivity.
Qed.

(** ** The ray walk terminates within its fuel *)

Lemma linearWalk_stable (g : ChessGame) (square : string) (dx dy : Z) :
  forall (k n m : nat) (f : Z) (r : num),
    (k <= n)%nat -> (k <= m)%nat -> walk_bound dx dy f r k ->
    linearWalk n g square dx dy f r = linearWalk m g square dx dy f r.
Proof.
  induction k as [|k IH]; intros n m f r Hn Hm Hb.
  - assert (in_board f && num_in_board r = false) as Hout.
    { apply not_true_iff_false. intros H. apply andb_true_iff in H.
      destruct H as [Hf Hr]. apply in_board_range in Hf.
      destruct r as [v|]; [|discriminate]. simpl in Hr.
      apply in_board_range in Hr.
      destruct Hb as [[? ?]|[[? ?]|[[? Hv]|[? Hv]]]];
        try specialize (Hv v eq_refl); lia. }
    destruct n, m; simpl; rewrite ?Hout; reflexivity.
  - destruct n as [|n]; [lia|]. destruct m as [|m]; [lia|]. simpl.
    destruct (in_board f && num_in_board r) eqn:Hin; [|reflexivity].
    destruct (getPiece g (squareName f r)); [reflexivity|].
    f_equal. apply IH; try lia.
    apply andb_true_iff in Hin. destruct Hin as [Hf Hr].
    destruct r as [v|]; [|discriminate]. simpl.
    unfold walk_bound in *.
    destruct Hb as [[? ?]|[[? ?]|[[? Hv]|[? Hv]]]];
      [left | right; left | right; right; left | right; right; right];
      (split; [assumption|]);
      try (intros v' [= <-]; specialize (Hv v eq_refl)); lia.
Qed.

Lemma fileIndexOf_range (file : option ascii) :
  -1 <= fileIndexOf file <= 7.
Proof.
  destruct file as [c|]; simpl; [|lia].
  destruct ((97 <=? Z_of_ascii c) && (Z_of_ascii c <=? 104)) eqn:E; [|lia].
  apply andb_true_iff in E. lia.
Qed.

Lemma parseInt_range (rank : option ascii) (v : Z) :
  parseInt rank = Some v -> 0 <= v <= 9.
Proof.
  destruct rank as [c|]; simpl; [|discriminate].
  destruct ((48 <=? Z_of_ascii c) && (Z_of_ascii c <=? 57)) eqn:E;
    [|discriminate].
  apply andb_true_iff in E. intros [= <-]. lia.
Qed.

(** The eight units of fuel of [getLinearMoves] are never used up before
    the walk leaves the board: any larger amount gives the same moves. *)
Lemma getLinearMoves_fuel (g : ChessGame) (square : string) (dx dy : Z)
  (n : nat) :
  dx <> 0 \/ dy <> 0 -> (8 <= n)%nat ->
  linearWalk n g square dx dy
    (fileIndexOf (js_at square 0) + dx)
    (num_add (num_add (parseInt (js_at square 1)) (-1)) dy)
  = getLinearMoves g square dx dy.
Proof.
  intros Hd Hn. unfold getLinearMoves.
  apply linearWalk_stable with 8%nat; [assumption | lia |].
  pose proof (fileIndexOf_range (js_at square 0)) as Hf.
  pose proof (parseInt_range (js_at square 1)) as Hr.
  destruct (parseInt (js_at square 1)) as [v0|]; simpl.
  - specialize (Hr v0 eq_refl). unfold walk_bound.
    assert (0 < dx \/ dx < 0 \/ 0 < dy \/ dy < 0) as [H|[H|[H|H]]] by lia;
      [left | right; left | right; right; left | right; right; right];
      (split; [assumption|]); try (intros v' [= <-]); lia.
  - unfold walk_bound.
    assert (0 < dx \/ dx < 0 \/ 0 < dy \/ dy < 0) as [H|[H|[H|H]]] by lia;
      [left | right; left | right; right; left | right; right; right];
      (split; [assumption|]); try (intros v' [=]); lia.
Qed.

(** * Further properties of the engine *)

(** ** What the move generator returns *)

Lemma sq_valid (f r : Z) :
  0 <= f < 8 -> 0 <= r < 8 -> isValidSquare (sq f r) = true.
Proof.
  intros Hf Hr. rewrite isValidSquare_sq_iff by lia.
  now apply in_board_range.
Qed.

Lemma canMoveTo_free (g : ChessGame) from to p :
  getPiece g from = Some p ->
  canMoveTo g from to = true <-> free_for g p to.
Proof.
  intros Hp. unfold canMoveTo, free_for. rewrite Hp.
  destruct (getPiece g to) as [q|]; split; intros H.
  - intros q' [= <-]. apply negb_true_iff in H. now apply color_eqb_neq.
  - apply negb_true_iff, color_eqb_neq. now apply H.
  - discriminate.
  - reflexivity.
Qed.

(** The valid moves of a piece of the side to move are the moves of its
    type that are square names and are not taken by its own side. *)
Lemma validMoves_by_type (g : ChessGame) s p t :
  getPiece g s = Some p -> pcolor p = currentPlayer g ->
  In t (getValidMoves g s) <->
  In t (match ptype p with
        | tP => getPawnMoves g s (pcolor p)
        | tR => getRookMoves g s
        | tN => getKnightMoves s
        | tB => getBishopMoves g s
        | tQ => getQueenMoves g s
        | tK => getKingMoves s
        end)
  /\ isValidSquare t = true /\ free_for g p t.
Proof.
  intros Hp Hc. unfold getValidMoves. rewrite Hp.
  apply color_eqb_eq in Hc. rewrite Hc. cbn [negb].
  rewrite filter_In, andb_true_iff, (canMoveTo_free g s t p Hp).
  reflexivity.
Qed.

Lemma validMoves_owner (g : ChessGame) from to :
  In to (getValidMoves g from) ->
  exists p, getPiece g from = Some p /\ pcolor p = currentPlayer g.
Proof.
  unfold getValidMoves.
  destruct (getPiece g from) as [p|]; [|intros []].
  destruct (color_eqb (pcolor p) (currentPlayer g)) eqn:E; [|intros []].
  intros _. exists p. split; [reflexivity | now apply color_eqb_eq].
Qed.

(** X1: every valid move starts on a piece of the side to move, ends on
    a well-formed square other than the origin, and that square is empty
    or holds a piece of the other colour. *)
Theorem valid_moves_sound (g : ChessGame) from to :
  In to (getValidMoves g from) ->
  isValidSquare to = true /\ to <> from
  /\ exists p, getPiece g from = Some p /\ pcolor p = currentPlayer g
               /\ free_for g p to.
Proof.
  intros H. destruct (validMoves_owner g from to H) as (p & Hp & Hc).
  split; [apply (validMoves_filter g from to H)|].
  split; [now apply validMoves_not_origin with g|].
  exists p. repeat (split; [assumption|]).
  apply (validMoves_by_type g from p to Hp Hc). exact H.
Qed.

Lemma valid_moves_sound_witness :
  isValidSquare "f3" = true /\ "f3" <> "g1"
  /\ exists p, getPiece newGame "g1" = Some p
               /\ pcolor p = currentPlayer newGame
               /\ free_for newGame p "f3".
Proof.
  apply (valid_moves_sound newGame "g1" "f3").
  vm_compute. tauto.
Defined.

(** X2: [makeMove] returns true exactly when the destination is one of
    the valid moves of the origin; its own tests of the origin piece and
    of its colour reject nothing more. *)
Theorem makeMove_succeeds_iff (g : ChessGame) from to :
  fst (makeMove g from to) = true <-> In to (getValidMoves g from).
Proof.
  split.
  - intros H. now destruct (makeMove_success g from to H) as (p & _ & _ & ? & _).
  - intros Hin. destruct (validMoves_owner g from to Hin) as (p & Hp & Hc).
    now rewrite (makeMove_accepts g from to p Hp Hc Hin).
Qed.

(** ** Knight and king *)

Lemma In_offsetSquare (f r : Z) (d : Z * Z) (t : string) :
  In t (offsetSquare f (Some r) d) <->
  0 <= f + fst d < 8 /\ 0 <= r + snd d < 8 /\ t = sq (f + fst d) (r + snd d).
Proof.
  unfold offsetSquare. cbn [num_add num_in_board].
  destruct (in_board (f + fst d) && in_board (r + snd d)) eqn:E.
  - apply andb_true_iff in E. rewrite !in_board_range in E.
    cbn [In]. unfold sq. intuition.
  - apply andb_false_iff in E. rewrite <- !not_true_iff_false in E.
    rewrite !in_board_range in E. cbn [In]. intuition.
Qed.

Lemma In_getKnightMoves (f r : Z) (t : string) :
  0 <= f < 8 -> 0 <= r < 8 ->
  In t (getKnightMoves (sq f r)) <->
  exists dx dy, knight_step dx dy
                /\ 0 <= f + dx < 8 /\ 0 <= r + dy < 8
                /\ t = sq (f + dx) (r + dy).
Proof.
  intros Hf Hr. unfold getKnightMoves. cbv zeta.
  rewrite (proj2 (sq_file f r Hf Hr)), (sq_rank f r Hf Hr).
  rewrite in_flat_map. split.
  - intros ([dx dy] & Hd & H). apply In_offsetSquare in H.
    exists dx, dy. split; [|exact H].
    unfold knight_step. cbn [In] in Hd.
    repeat (destruct Hd as [Hd|Hd]; [injection Hd as <- <-; lia|]).
    destruct Hd.
  - intros (dx & dy & Hk & H). exists (dx, dy).
    split; [|now apply In_offsetSquare].
    unfold knight_step in Hk. cbn [In].
    assert ((dx = -2 \/ dx = -1 \/ dx = 1 \/ dx = 2)
            /\ (dy = -2 \/ dy = -1 \/ dy = 1 \/ dy = 2)) as [Hx Hy] by lia.
    destruct Hx as [->|[->|[->| ->]]], Hy as [->|[->|[->| ->]]];
      try (exfalso; lia); tauto.
Qed.

Lemma In_getKingMoves (f r : Z) (t : string) :
  0 <= f < 8 -> 0 <= r < 8 ->
  In t (getKingMoves (sq f r)) <->
  exists dx dy, king_step dx dy
                /\ 0 <= f + dx < 8 /\ 0 <= r + dy < 8
                /\ t = sq (f + dx) (r + dy).
Proof.
  intros Hf Hr. unfold getKingMoves. cbv zeta.
  rewrite (proj2 (sq_file f r Hf Hr)), (sq_rank f r Hf Hr).
  rewrite in_flat_map. split.
  - intros (dx & Hdx & H). apply in_flat_map in H.
    destruct H as (dy & Hdy & H).
    destruct ((dx =? 0) && (dy =? 0)) eqn:E; [destruct H|].
    apply In_offsetSquare in H. exists dx, dy. split; [|exact H].
    apply andb_false_iff in E. rewrite !Z.eqb_neq in E.
    unfold king_step. cbn [In] in Hdx, Hdy. lia.
  - intros (dx & dy & (Hx & Hy & Hz) & H). exists dx.
    split; [cbn [In]; lia|]. apply in_flat_map. exists dy.
    split; [cbn [In]; lia|].
    replace ((dx =? 0) && (dy =? 0)) with false
      by (symmetry; apply andb_false_iff; rewrite !Z.eqb_neq; tauto).
    now apply In_offsetSquare.
Qed.

(** X3: the valid moves of a knight of the side to move are exactly the
    squares of the board one file and two ranks, or two files and one
    rank, away that its own side does not occupy. *)
Theorem knight_valid_moves (g : ChessGame) (f r : Z) (p : Piece) (t : string) :
  0 <= f < 8 -> 0 <= r < 8 ->
  getPiece g (sq f r) = Some p -> pcolor p = currentPlayer g ->
  ptype p = tN ->
  In t (getValidMoves g (sq f r)) <->
  exists dx dy, knight_step dx dy
                /\ 0 <= f + dx < 8 /\ 0 <= r + dy < 8
                /\ t = sq (f + dx) (r + dy) /\ free_for g p t.
Proof.
  intros Hf Hr Hp Hc Ht.
  rewrite (validMoves_by_type g (sq f r) p t Hp Hc), Ht.
  rewrite (In_getKnightMoves f r t Hf Hr). split.
  - intros ((dx & dy & H) & _ & Hfree). exists dx, dy. tauto.
  - intros (dx & dy & Hk & Hx & Hy & -> & Hfree).
    split; [exists dx, dy; tauto|]. split; [now apply sq_valid | assumption].
Qed.

(** X4: the valid moves of a king of the side to move are exactly the
    squares of the board next to it that its own side does not occupy;
    no other destination, two files away or not, is ever valid. *)
Theorem king_valid_moves (g : ChessGame) (f r : Z) (p : Piece) (t : string) :
  0 <= f < 8 -> 0 <= r < 8 ->
  getPiece g (sq f r) = Some p -> pcolor p = currentPlayer g ->
  ptype p = tK ->
  In t (getValidMoves g (sq f r)) <->
  exists dx dy, king_step dx dy
                /\ 0 <= f + dx < 8 /\ 0 <= r + dy < 8
                /\ t = sq (f + dx) (r + dy) /\ free_for g p t.
Proof.
  intros Hf Hr Hp Hc Ht.
  rewrite (validMoves_by_type g (sq f r) p t Hp Hc), Ht.
  rewrite (In_getKingMoves f r t Hf Hr). split.
  - intros ((dx & dy & H) & _ & Hfree). exists dx, dy. tauto.
  - intros (dx & dy & Hk & Hx & Hy & -> & Hfree).
    split; [exists dx, dy; tauto|]. split; [now apply sq_valid | assumption].
Qed.

Lemma knight_valid_moves_witness :
  In "c3" (getValidMoves newGame (sq 1 0)) <->
  exists dx dy, knight_step dx dy
                /\ 0 <= 1 + dx < 8 /\ 0 <= 0 + dy < 8
                /\ "c3" = sq (1 + dx) (0 + dy) /\ free_for newGame wN "c3".
Proof.
  apply (knight_valid_moves newGame 1 0 wN "c3");
    [lia | lia | reflexivity | reflexivity | reflexivity].
Defined.

Lemma king_valid_moves_witness :
  In "e2" (getValidMoves (game_after [("e2", "e4"); ("e7", "e5")]) (sq 4 0))
  <->
  exists dx dy, king_step dx dy
                /\ 0 <= 4 + dx < 8 /\ 0 <= 0 + dy < 8
                /\ "e2" = sq (4 + dx) (0 + dy)
                /\ free_for (game_after [("e2", "e4"); ("e7", "e5")]) wK "e2".
Proof.
  apply (king_valid_moves (game_after [("e2", "e4"); ("e7", "e5")])
           4 0 wK "e2");
    [lia | lia | reflexivity | reflexivity | reflexivity].
Defined.

(** ** Rook, bishop and queen *)

(** What one ray walk returns, from the square it is about to look at. *)
Lemma In_linearWalk (g : ChessGame) (square : string) (own : Piece)
  (dx dy : Z) :
  getPiece g square = Some own ->
  forall (fuel : nat) (f0 r0 : Z) (t : string),
    In t (linearWalk fuel g square dx dy f0 (Some r0)) <->
    exists k,
      0 <= k < Z.of_nat fuel
      /\ (forall j, 0 <= j <= k ->
                    0 <= f0 + j * dx < 8 /\ 0 <= r0 + j * dy < 8)
      /\ (forall j, 0 <= j < k ->
                    getPiece g (sq (f0 + j * dx) (r0 + j * dy)) = None)
      /\ t = sq (f0 + k * dx) (r0 + k * dy)
      /\ free_for g own t.
Proof.
  intros Hown. induction fuel as [|fuel IH]; intros f0 r0 t.
  - cbn [linearWalk In]. split; [tauto | intros (k & Hk & _); lia].
  - cbn [linearWalk num_in_board num_add].
    change (squareName f0 (Some r0)) with (sq f0 r0).
    destruct (in_board f0 && in_board r0) eqn:Hin.
    + apply andb_true_iff in Hin. rewrite !in_board_range in Hin.
      destruct (getPiece g (sq f0 r0)) as [pc|] eqn:Hpc.
      * rewrite Hown. split.
        -- intros H.
           destruct (color_eqb (pcolor pc) (pcolor own)) eqn:Ec;
             cbn [negb In] in H; [destruct H|].
           destruct H as [<-|[]]. exists 0.
           split; [lia|]. split; [intros j Hj; assert (j = 0) as -> by lia; lia|].
           split; [intros j Hj; lia|].
           split; [f_equal; lia|].
           intros q Hq. rewrite Hpc in Hq. injection Hq as <-.
           now apply color_eqb_neq.
        -- intros (k & Hk & Hon & Hempty & -> & Hfree).
           assert (k = 0) as ->.
           { destruct (Z.eq_dec k 0) as [E|E]; [exact E|].
             specialize (Hempty 0 ltac:(lia)).
             replace (f0 + 0 * dx) with f0 in Hempty by lia.
             replace (r0 + 0 * dy) with r0 in Hempty by lia.
             congruence. }
           replace (f0 + 0 * dx) with f0 in * by lia.
           replace (r0 + 0 * dy) with r0 in * by lia.
           specialize (Hfree pc Hpc). apply color_eqb_neq in Hfree.
           rewrite Hfree. now left.
      * cbn [In]. rewrite IH. split.
        -- intros [<-|(k & Hk & Hon & Hempty & -> & Hfree)].
           ++ exists 0. split; [lia|].
              split; [intros j Hj; assert (j = 0) as -> by lia; lia|].
              split; [intros j Hj; lia|].
              split; [f_equal; lia|].
              intros q Hq. congruence.
           ++ exists (k + 1). split; [lia|].
              split.
              { intros j Hj. destruct (Z.eq_dec j 0) as [->|Hj0]; [lia|].
                specialize (Hon (j - 1) ltac:(lia)). lia. }
              split.
              { intros j Hj. destruct (Z.eq_dec j 0) as [->|Hj0].
                - replace (f0 + 0 * dx) with f0 by lia.
                  now replace (r0 + 0 * dy) with r0 by lia.
                - specialize (Hempty (j - 1) ltac:(lia)).
                  replace (f0 + j * dx) with (f0 + dx + (j - 1) * dx) by lia.
                  now replace (r0 + j * dy) with (r0 + dy + (j - 1) * dy)
                    by lia. }
              replace (f0 + (k + 1) * dx) with (f0 + dx + k * dx) by lia.
              replace (r0 + (k + 1) * dy) with (r0 + dy + k * dy) by lia.
              split; [reflexivity | assumption].
        -- intros (k & Hk & Hon & Hempty & -> & Hfree).
           destruct (Z.eq_dec k 0) as [->|Hk0].
           ++ left. f_equal; lia.
           ++ right. exists (k - 1). split; [lia|].
              split.
              { intros j Hj. specialize (Hon (j + 1) ltac:(lia)). lia. }
              split.
              { intros j Hj. specialize (Hempty (j + 1) ltac:(lia)).
                replace (f0 + dx + j * dx) with (f0 + (j + 1) * dx) by lia.
                now replace (r0 + dy + j * dy) with (r0 + (j + 1) * dy)
                  by lia. }
              replace (f0 + dx + (k - 1) * dx) with (f0 + k * dx) by lia.
              replace (r0 + dy + (k - 1) * dy) with (r0 + k * dy) by lia.
              split; [reflexivity | assumption].
    + cbn [In]. split; [tauto|].
      intros (k & Hk & Hon & _). specialize (Hon 0 ltac:(lia)).
      apply andb_false_iff in Hin. rewrite <- !not_true_iff_false in Hin.
      rewrite !in_board_range in Hin. lia.
Qed.

Lemma In_getLinearMoves (g : ChessGame) (f r : Z) (own : Piece) (dx dy : Z)
  (t : string) :
  0 <= f < 8 -> 0 <= r < 8 ->
  getPiece g (sq f r) = Some own ->
  king_step dx dy ->
  In t (getLinearMoves g (sq f r) dx dy) <->
  slides g f r dx dy t /\ free_for g own t.
Proof.
  intros Hf Hr Hown (Hx & Hy & Hnz). unfold getLinearMoves. cbv zeta.
  rewrite (proj2 (sq_file f r Hf Hr)), (sq_rank f r Hf Hr).
  cbn [num_add]. rewrite (In_linearWalk g (sq f r) own dx dy Hown).
  unfold slides. split.
  - intros (k & Hk & Hon & Hempty & -> & Hfree). split; [|assumption].
    exists (k + 1). split; [lia|]. split.
    { intros j Hj. specialize (Hon (j - 1) ltac:(lia)). lia. }
    split.
    { intros j Hj. specialize (Hempty (j - 1) ltac:(lia)).
      replace (f + j * dx) with (f + dx + (j - 1) * dx) by lia.
      now replace (r + j * dy) with (r + dy + (j - 1) * dy) by lia. }
    f_equal; lia.
  - intros ((k & Hk & Hon & Hempty & ->) & Hfree).
    exists (k - 1). split.
    { specialize (Hon k ltac:(lia)).
      assert (dx = -1 \/ dx = 0 \/ dx = 1) as Hdx by lia.
      assert (dy = -1 \/ dy = 0 \/ dy = 1) as Hdy by lia.
      destruct Hdx as [->|[->| ->]], Hdy as [->|[->| ->]];
        simpl Z.of_nat; lia. }
    split.
    { intros j Hj. specialize (Hon (j + 1) ltac:(lia)). lia. }
    split.
    { intros j Hj. specialize (Hempty (j + 1) ltac:(lia)).
      replace (f + dx + j * dx) with (f + (j + 1) * dx) by lia.
      now replace (r + dy + j * dy) with (r + (j + 1) * dy) by lia. }
    split; [f_equal; lia|].
    replace (f + dx + (k - 1) * dx) with (f + k * dx) by lia.
    now replace (r + dy + (k - 1) * dy) with (r + k * dy) by lia.
Qed.

Lemma rook_directions (dx dy : Z) :
  In (dx, dy) [(0, 1); (0, -1); (1, 0); (-1, 0)] <-> line_step tR dx dy.
Proof.
  cbn [In line_step]. split.
  - intros H. repeat (destruct H as [H|H]; [injection H as <- <-; lia|]).
    destruct H.
  - intros H.
    assert (dx = -1 \/ dx = 0 \/ dx = 1) as Hdx by lia.
    assert (dy = -1 \/ dy = 0 \/ dy = 1) as Hdy by lia.
    destruct Hdx as [->|[->| ->]], Hdy as [->|[->| ->]];
      try (exfalso; lia); tauto.
Qed.

Lemma bishop_directions (dx dy : Z) :
  In (dx, dy) [(1, 1); (1, -1); (-1, 1); (-1, -1)] <-> line_step tB dx dy.
Proof.
  cbn [In line_step]. split.
  - intros H. repeat (destruct H as [H|H]; [injection H as <- <-; lia|]).
    destruct H.
  - intros H.
    assert (dx = -1 \/ dx = 1) as Hdx by lia.
    assert (dy = -1 \/ dy = 1) as Hdy by lia.
    destruct Hdx as [->| ->], Hdy as [->| ->]; tauto.
Qed.

Lemma line_step_unit (t : PType) (dx dy : Z) :
  line_step t dx dy -> king_step dx dy.
Proof. destruct t; unfold line_step, king_step; lia. Qed.

Lemma queen_directions (dx dy : Z) :
  line_step tQ dx dy <-> line_step tR dx dy \/ line_step tB dx dy.
Proof. unfold line_step, king_step. lia. Qed.

Lemma In_rays (g : ChessGame) (f r : Z) (own : Piece) (t : string)
  (dirs : list (Z * Z)) (P : Z -> Z -> Prop) :
  0 <= f < 8 -> 0 <= r < 8 ->
  getPiece g (sq f r) = Some own ->
  (forall dx dy, In (dx, dy) dirs <-> P dx dy) ->
  (forall dx dy, P dx dy -> king_step dx dy) ->
  In t (flat_map (fun d => getLinearMoves g (sq f r) (fst d) (snd d)) dirs)
  <-> exists dx dy, P dx dy /\ slides g f r dx dy t /\ free_for g own t.
Proof.
  intros Hf Hr Hown Hdirs Hunit. rewrite in_flat_map. split.
  - intros ([dx dy] & Hd & H). cbn [fst snd] in H.
    apply Hdirs in Hd. exists dx, dy. split; [assumption|].
    now apply (In_getLinearMoves g f r own dx dy t Hf Hr Hown (Hunit _ _ Hd)).
  - intros (dx & dy & Hd & H). exists (dx, dy).
    split; [now apply Hdirs|]. cbn [fst snd].
    now apply (In_getLinearMoves g f r own dx dy t Hf Hr Hown (Hunit _ _ Hd)).
Qed.

(** X5: sliding pieces.  The valid moves of a rook, bishop or queen of
    the side to move are exactly the squares reached by sliding along one
    of its lines (file and rank for a rook, diagonals for a bishop, both
    for a queen) over empty squares only, onto a square its own side
    does not occupy: it never jumps over a piece and never goes past a
    capture. *)
Theorem slider_valid_moves (g : ChessGame) (f r : Z) (p : Piece)
  (t : string) :
  0 <= f < 8 -> 0 <= r < 8 ->
  getPiece g (sq f r) = Some p -> pcolor p = currentPlayer g ->
  ptype p = tR \/ ptype p = tB \/ ptype p = tQ ->
  In t (getValidMoves g (sq f r)) <->
  exists dx dy, line_step (ptype p) dx dy
                /\ slides g f r dx dy t /\ free_for g p t.
Proof.
  intros Hf Hr Hp Hc Ht.
  rewrite (validMoves_by_type g (sq f r) p t Hp Hc).
  assert (forall dx dy, slides g f r dx dy t -> isValidSquare t = true)
    as Hvalid.
  { intros dx dy (k & Hk & Hon & _ & ->). apply sq_valid;
      apply (Hon k); lia. }
  pose proof (In_rays g f r p t _ _ Hf Hr Hp rook_directions
                (line_step_unit tR)) as HR.
  pose proof (In_rays g f r p t _ _ Hf Hr Hp bishop_directions
                (line_step_unit tB)) as HB.
  destruct Ht as [Ht|[Ht|Ht]]; rewrite Ht.
  - unfold getRookMoves. rewrite HR. split.
    + intros (H & _). exact H.
    + intros (dx & dy & Hd & Hs & Hfree). split; [eauto 6|]. eauto.
  - unfold getBishopMoves. rewrite HB. split.
    + intros (H & _). exact H.
    + intros (dx & dy & Hd & Hs & Hfree). split; [eauto 6|]. eauto.
  - unfold getQueenMoves, getRookMoves, getBishopMoves.
    rewrite in_app_iff, HR, HB. split.
    + intros ([(dx & dy & Hd & H)|(dx & dy & Hd & H)] & _);
        exists dx, dy; (split; [apply queen_directions; tauto | exact H]).
    + intros (dx & dy & Hd & Hs & Hfree). split; [|eauto].
      apply queen_directions in Hd. destruct Hd as [Hd|Hd];
        [left | right]; eauto 6.
Qed.

Lemma slider_valid_moves_witness :
  In "c4" (getValidMoves (game_after [("e2", "e4"); ("e7", "e5")]) (sq 5 0))
  <->
  exists dx dy, line_step tB dx dy
                /\ slides (game_after [("e2", "e4"); ("e7", "e5")])
                     5 0 dx dy "c4"
                /\ free_for (game_after [("e2", "e4"); ("e7", "e5")])
                     wB "c4".
Proof.
  apply (slider_valid_moves (game_after [("e2", "e4"); ("e7", "e5")])
           5 0 wB "c4");
    [lia | lia | reflexivity | reflexivity | right; left; reflexivity].
Defined.

(** ** Pawn *)

Lemma getPawnMoves_complete (g : ChessGame) (f r : Z) (c : Color)
  (t : string) :
  0 <= f < 8 -> 0 <= r < 8 ->
  (0 <= r + direction c < 8 /\ t = sq f (r + direction c)
   /\ getPiece g t = None)
  \/ (r = startRank c /\ t = sq f (r + direction c * 2)
      /\ getPiece g (sq f (r + direction c)) = None /\ getPiece g t = None)
  \/ (exists off q,
         (off = -1 \/ off = 1) /\ 0 <= f + off < 8
         /\ 0 <= r + direction c < 8
         /\ t = sq (f + off) (r + direction c)
         /\ getPiece g t = Some q /\ pcolor q <> c) ->
  In t (getPawnMoves g (sq f r) c).
Proof.
  intros Hf Hr H. unfold getPawnMoves. cbv zeta.
  rewrite (proj2 (sq_file f r Hf Hr)), (proj1 (sq_file f r Hf Hr)).
  rewrite (sq_rank f r Hf Hr).
  change (match c with cW => 1 | cB => -1 end) with (direction c).
  change (match c with cW => 1 | cB => 6 end) with (startRank c).
  rewrite !pawn_target_name.
  assert (-2 <= r + direction c < 10 /\ -2 <= r + direction c * 2 < 10)
    as [Hd1 Hd2] by (destruct c; simpl; lia).
  rewrite in_app_iff.
  destruct H as [(B & -> & T) | [(S1 & -> & M & T)
                | (off & q & O & F & B & -> & T & C)]].
  - left. rewrite isValidSquare_sq_iff by assumption.
    rewrite (proj2 (in_board_range _) B), T. now left.
  - left. rewrite !isValidSquare_sq_iff by assumption.
    assert (0 <= r + direction c < 8 /\ 0 <= r + direction c * 2 < 8)
      as [B1 B2] by (destruct c; simpl in *; lia).
    rewrite (proj2 (in_board_range _) B1), (proj2 (in_board_range _) B2).
    rewrite M, T. unfold num_eqb.
    rewrite (proj2 (Z.eqb_eq _ _) S1). right. now left.
  - right. apply in_flat_map. exists off.
    split; [cbn [In]; lia|].
    rewrite (proj2 (in_board_range _) F), pawn_target_name.
    rewrite isValidSquare_sq_iff by assumption.
    rewrite (proj2 (in_board_range _) B), T.
    apply color_eqb_neq in C. rewrite C. now left.
Qed.

(** X6: the valid moves of a pawn of the side to move are exactly: the
    square straight ahead when it is empty; the square two ahead, from
    the pawn's starting rank, when both squares are empty; and the
    squares diagonally ahead that hold a piece of the other colour.  A
    pawn never steps onto an empty diagonal square (no en passant), never
    captures straight ahead and never moves back. *)
Theorem pawn_valid_moves (g : ChessGame) (f r : Z) (p : Piece) (t : string) :
  0 <= f < 8 -> 0 <= r < 8 ->
  getPiece g (sq f r) = Some p -> pcolor p = currentPlayer g ->
  ptype p = tP ->
  In t (getValidMoves g (sq f r)) <->
  (0 <= r + direction (pcolor p) < 8
   /\ t = sq f (r + direction (pcolor p)) /\ getPiece g t = None)
  \/ (r = startRank (pcolor p)
      /\ t = sq f (r + direction (pcolor p) * 2)
      /\ getPiece g (sq f (r + direction (pcolor p))) = None
      /\ getPiece g t = None)
  \/ (exists off q,
         (off = -1 \/ off = 1) /\ 0 <= f + off < 8
         /\ 0 <= r + direction (pcolor p) < 8
         /\ t = sq (f + off) (r + direction (pcolor p))
         /\ getPiece g t = Some q /\ pcolor q <> pcolor p).
Proof.
  intros Hf Hr Hp Hc Ht.
  rewrite (validMoves_by_type g (sq f r) p t Hp Hc), Ht. split.
  - intros (H & _). apply In_getPawnMoves in H; [|assumption..].
    destruct H as [(E & B & T) | [(E & S1 & M & T) | H]]; [tauto | tauto|].
    right. right. exact H.
  - intros H. split; [now apply getPawnMoves_complete|].
    assert (startRank (pcolor p) + direction (pcolor p) * 2 = 3
            \/ startRank (pcolor p) + direction (pcolor p) * 2 = 4) as Hstart
        by (destruct (pcolor p); simpl; lia).
    destruct H as [(B & -> & T) | [(S1 & -> & M & T)
                  | (off & q & O & F & B & -> & T & C)]];
      (split; [apply sq_valid; lia|]); intros q'; congruence.
Qed.

Lemma pawn_valid_moves_witness :
  In "e4" (getValidMoves newGame (sq 4 1)) <->
  (0 <= 1 + direction (pcolor wP) < 8
   /\ "e4" = sq 4 (1 + direction (pcolor wP))
   /\ getPiece newGame "e4" = None)
  \/ (1 = startRank (pcolor wP)
      /\ "e4" = sq 4 (1 + direction (pcolor wP) * 2)
      /\ getPiece newGame (sq 4 (1 + direction (pcolor wP))) = None
      /\ getPiece newGame "e4" = None)
  \/ (exists off q,
         (off = -1 \/ off = 1) /\ 0 <= 4 + off < 8
         /\ 0 <= 1 + direction (pcolor wP) < 8
         /\ "e4" = sq (4 + off) (1 + direction (pcolor wP))
         /\ getPiece newGame "e4" = Some q /\ pcolor q <> pcolor wP).
Proof.
  apply (pawn_valid_moves newGame 4 1 wP "e4");
    [lia | lia | reflexivity | reflexivity | reflexivity].
Defined.

(** ** History and material *)

(** X7: the history is append-only and keeps the order of play.  After
    any list of requested moves the history is the old one followed by
    one record for each accepted request, in the order the requests were
    made, each with the origin and destination requested. *)
Theorem history_records_accepted_moves (ms : list (string * string))
  (g : ChessGame) :
  exists added : list Move,
    moveHistory (fst (play g ms)) = (moveHistory g ++ added)%list
    /\ map (fun m => (move_from m, move_to m)) added = accepted g ms.
Proof.
  revert g. induction ms as [|[from to] rest IH]; intros g.
  - exists []. split; [symmetry; apply app_nil_r | reflexivity].
  - rewrite play_cons. cbn [fst accepted].
    destruct (IH (snd (makeMove g from to))) as (added & Hh & Hm).
    destruct (fst (makeMove g from to)) eqn:Hok.
    + destruct (makeMove_success g from to Hok) as (p & _ & _ & _ & E).
      rewrite E in Hh |- *. cbn [moved moveHistory] in Hh.
      eexists (_ :: added). rewrite Hh, <- app_assoc. split; [reflexivity|].
      cbn [map move_from move_to app]. now rewrite Hm, E.
    + rewrite (makeMove_failure g from to Hok) in Hh, Hm |- *.
      exists added. now split.
Qed.

Section Counting.

Variable F : ChessPiece -> bool.

Lemma countValues_absent (pos : ChessPosition) k :
  ~ In k (map fst pos) -> pos_get pos k = None.
Proof.
  induction pos as [|[k0 v0] rest IH]; cbn [pos_get map fst In];
    [reflexivity|].
  intros H. destruct (String.eqb k k0) eqn:E.
  - apply String.eqb_eq in E. subst. tauto.
  - apply IH. tauto.
Qed.

Lemma countValues_set (pos : ChessPosition) k w :
  (countValues F (pos_set pos k w)
   + match pos_get pos k with
     | Some x => if F x then 1 else 0
     | None => 0
     end
   = countValues F pos + (if F w then 1 else 0))%nat.
Proof.
  unfold countValues.
  induction pos as [|[k0 v0] rest IH]; cbn [pos_set pos_get].
  - cbn [filter snd length]. destruct (F w); cbn [length]; lia.
  - destruct (String.eqb k k0) eqn:E; cbn [filter snd].
    + destruct (F w), (F v0); cbn [length]; lia.
    + destruct (F v0); cbn [length]; lia.
Qed.

Lemma countValues_delete (pos : ChessPosition) k :
  NoDup (map fst pos) ->
  (countValues F (pos_delete pos k)
   + match pos_get pos k with
     | Some x => if F x then 1 else 0
     | None => 0
     end
   = countValues F pos)%nat.
Proof.
  unfold countValues, pos_delete.
  induction pos as [|[k0 v0] rest IH]; cbn [pos_get filter fst snd map];
    intros Hnd; [reflexivity|].
  inversion Hnd as [|? ? Hnot Hnd']; subst. specialize (IH Hnd').
  destruct (String.eqb k k0) eqn:E; cbn [negb filter snd].
  - apply String.eqb_eq in E. subst k0.
    rewrite (countValues_absent rest k Hnot) in IH.
    destruct (F v0); cbn [length]; lia.
  - destruct (F v0); cbn [length]; lia.
Qed.

(** Moving the value of key [from] onto key [to] loses exactly what was
    under [to]. *)
Lemma countValues_move (pos : ChessPosition) from to v :
  NoDup (map fst pos) -> to <> from ->
  pos_get pos from = Some v ->
  (countValues F (pos_delete (pos_set pos to v) from)
   + match pos_get pos to with
     | Some x => if F x then 1 else 0
     | None => 0
     end
   = countValues F pos)%nat.
Proof.
  intros Hnd Hne Hfrom.
  pose proof (countValues_set pos to v) as Hset.
  pose proof (countValues_delete (pos_set pos to v) from
                (NoDup_pos_set pos to v Hnd)) as Hdel.
  rewrite pos_get_set_other, Hfrom in Hdel by congruence.
  destruct (pos_get pos to) as [x|]; destruct (F v); lia.
Qed.

End Counting.

Lemma countPiece_holds (q : Piece) (pos : ChessPosition) :
  countPiece q pos = countValues (holds q) pos.
Proof. reflexivity. Qed.

Lemma moved_material (F : ChessPiece -> bool) (g : ChessGame) from to :
  wf_position (position g) ->
  F None = false ->
  fst (makeMove g from to) = true ->
  (countValues F (position (snd (makeMove g from to)))
   + (if F (getPiece g to) then 1 else 0)
   = countValues F (position g))%nat.
Proof.
  intros Hwf HF Hok.
  destruct (makeMove_success g from to Hok) as (p & Hp & _ & Hin & ->).
  rewrite moved_without_castling
    by (apply castles_never with g; eauto using wf_key_valid).
  cbn [position].
  assert (pos_get (position g) from = Some (Some p)) as Hfrom.
  { apply In_pos_get; [apply Hwf | now apply getPiece_In]. }
  rewrite <- (countValues_move F (position g) from to (Some p));
    [| apply Hwf | now apply validMoves_not_origin with g | assumption].
  f_equal. unfold getPiece.
  destruct (pos_get (position g) to) as [[x|]|]; rewrite ?HF; reflexivity.
Qed.

(** X8: material is conserved.  In a well-formed position a successful
    move leaves, for every piece code, as many squares holding it as
    before, less one for the code of the captured piece; so the number of
    occupied squares drops by one on a capture and is unchanged
    otherwise.  No piece is ever created, duplicated or promoted. *)
Theorem makeMove_conserves_material (g : ChessGame) from to :
  wf_position (position g) ->
  fst (makeMove g from to) = true ->
  (forall q,
      (countPiece q (position (snd (makeMove g from to)))
       + (if holds q (getPiece g to) then 1 else 0)
       = countPiece q (position g))%nat)
  /\ (countValues is_some (position (snd (makeMove g from to)))
      + (if is_some (getPiece g to) then 1 else 0)
      = countValues is_some (position g))%nat.
Proof.
  intros Hwf Hok. split.
  - intros q. rewrite !countPiece_holds.
    now apply moved_material.
  - now apply moved_material.
Qed.

Lemma makeMove_conserves_material_witness :
  (forall q,
      (countPiece q (position (snd (makeMove pawn_on_a7 "a7" "b8")))
       + (if holds q (getPiece pawn_on_a7 "b8") then 1 else 0)
       = countPiece q (position pawn_on_a7))%nat)
  /\ (countValues is_some (position (snd (makeMove pawn_on_a7 "a7" "b8")))
      + (if is_some (getPiece pawn_on_a7 "b8") then 1 else 0)
      = countValues is_some (position pawn_on_a7))%nat.
Proof.
  apply (makeMove_conserves_material pawn_on_a7 "a7" "b8").
  - apply wf_positionb_ok. vm_compute. reflexivity.
  - vm_compute. reflexivity.
Defined.

Lemma Forall_pos_set_entry (Q : string * ChessPiece -> Prop)
  (pos : ChessPosition) k v :
  Q (k, v) -> Forall Q pos -> Forall Q (pos_set pos k v).
Proof.
  intros Hk. induction pos as [|[k0 v0] rest IH]; cbn [pos_set]; intros HF.
  - now constructor.
  - inversion HF; subst. destruct (String.eqb k k0) eqn:E.
    + apply String.eqb_eq in E. subst k0. now constructor.
    + constructor; auto.
Qed.

(** X9: what every reachable game satisfies.  The keys of the position
    are distinct well-formed square names, no key holds an empty value,
    no piece code stands on more squares than in the starting position
    (so there is never a second queen or a third knight), and White is
    to move exactly when the history has even length. *)
Theorem reachable_game_invariants (g : ChessGame) :
  reachable g ->
  wf_position (position g)
  /\ Forall (fun kv => snd kv <> None) (position g)
  /\ (forall q, (countPiece q (position g)
                 <= countPiece q getInitialPosition)%nat)
  /\ currentPlayer g
     = (if Nat.even (length (moveHistory g)) then cW else cB).
Proof.
  induction 1 as [|g from to g' Hreach (IHwf & IHval & IHcount & IHturn) Hmove].
  - split; [apply wf_positionb_ok; reflexivity|].
    split; [repeat constructor; discriminate|].
    split; [intros q; apply Nat.le_refl | reflexivity].
  - assert (fst (makeMove g from to) = true) as Hok by now rewrite Hmove.
    pose proof (fun q => moved_material (holds q) g from to IHwf eq_refl Hok)
      as Hmat.
    destruct (makeMove_success _ _ _ Hok) as (p & Hp & _ & Hin & Hg').
    rewrite Hmove in Hmat, Hg'. cbn [snd] in Hmat, Hg'.
    split; [subst g'; now apply wf_moved|].
    split.
    { subst g'. rewrite moved_without_castling
        by (apply castles_never with g; eauto using wf_key_valid).
      cbn [position]. apply Forall_pos_delete, Forall_pos_set_entry;
        [discriminate | assumption]. }
    split.
    { intros q. specialize (Hmat q). specialize (IHcount q).
      rewrite !countPiece_holds in *. lia. }
    subst g'. unfold moved. cbn [currentPlayer moveHistory].
    rewrite IHturn, length_app, Nat.add_1_r, Nat.even_succ, <- Nat.negb_even.
    now destruct (Nat.even (length (moveHistory g))).
Qed.

Lemma reachable_game_invariants_witness :
  wf_position (position pawn_on_a7)
  /\ Forall (fun kv => snd kv <> None) (position pawn_on_a7)
  /\ (forall q, (countPiece q (position pawn_on_a7)
                 <= countPiece q getInitialPosition)%nat)
  /\ currentPlayer pawn_on_a7
     = (if Nat.even (length (moveHistory pawn_on_a7)) then cW else cB).
Proof.
  apply (reachable_game_invariants pawn_on_a7).
  apply play_reachable. exact reach_new.
Defined.

Lemma makeMove_succeeds_by_valid_move (g : ChessGame) from to :
  In to (getValidMoves g from) -> fst (makeMove g from to) = true.
Proof.
  intros Hin. destruct (validMoves_owner g from to Hin) as (p & Hp & Hc).
  now rewrite (makeMove_accepts g from to p Hp Hc Hin).
Qed.

(** * Further properties of the parser *)

Lemma makeMove_invalid (g : ChessGame) from to :
  ~ In to (getValidMoves g from) -> makeMove g from to = (false, g).
Proof.
  intros H. unfold makeMove.
  destruct (getPiece g from) as [p|]; [|reflexivity].
  destruct (negb (color_eqb (pcolor p) (currentPlayer g))); [reflexivity|].
  apply includes_not_In in H. now rewrite H.
Qed.

Lemma king_home_moves (c : Color) (to : string) :
  In to (getKingMoves ("e" ++ homeRank c)) ->
  to <> "g" ++ homeRank c /\ to <> "c" ++ homeRank c.
Proof.
  destruct c; vm_compute; intuition (subst; discriminate).
Qed.

(** X10: castling notation resolves without looking at the board, and
    the king cannot play it.  For each of O-O, 0-0, O-O-O, 0-0-0 the
    parser returns the e-square of the home rank of the side to move and
    the g- or c-square of that rank; when a king stands on that e-square,
    [makeMove] rejects the move returned and changes nothing. *)
Theorem castling_notation_unplayable (g : ChessGame) (n : string) :
  In n castlingNotations ->
  let rank := homeRank (currentPlayer g) in
  let from := "e" ++ rank in
  let to :=
    (if String.eqb n "O-O" || String.eqb n "0-0" then "g" else "c") ++ rank in
  parseAlgebraicNotation g n = Some (from, to)
  /\ (forall p, getPiece g from = Some p -> ptype p = tK ->
                makeMove g from to = (false, g)).
Proof.
  intros Hn rank from to.
  assert (to = "g" ++ rank \/ to = "c" ++ rank) as Hto
      by (unfold to; destruct (String.eqb n "O-O" || String.eqb n "0-0");
          tauto).
  split.
  - unfold to, from, rank. cbn [castlingNotations In] in Hn.
    destruct Hn as [<-|[<-|[<-|[<-|[]]]]]; reflexivity.
  - intros p Hp Ht. apply makeMove_invalid. intros Hin.
    apply (In_validMoves_king g from to p Hp Ht) in Hin.
    apply king_home_moves in Hin. fold rank in Hin. tauto.
Qed.

Lemma castling_notation_unplayable_witness :
  let g := game_after [("e2", "e4"); ("e7", "e5"); ("g1", "f3");
                       ("b8", "c6"); ("f1", "c4"); ("f8", "c5")] in
  parseAlgebraicNotation g "O-O" = Some ("e1", "g1")
  /\ (forall p, getPiece g "e1" = Some p -> ptype p = tK ->
                makeMove g "e1" "g1" = (false, g)).
Proof.
  intros g.
  apply (castling_notation_unplayable g "O-O"). now left.
Defined.

(** X11: outside castling, the parser only returns moves that can be
    played.  When the normalised notation is not a castling notation and
    the parser returns a pair, the destination is a well-formed square
    and [makeMove] accepts the pair. *)
Theorem parsed_move_is_playable (g : ChessGame) (n : string) from to :
  ~ In (normalizeMove n) castlingNotations ->
  parseAlgebraicNotation g n = Some (from, to) ->
  fst (makeMove g from to) = true /\ isValidSquare to = true.
Proof.
  intros Hnc. unfold parseAlgebraicNotation. fold (normalizeMove n).
  cbn [castlingNotations In] in Hnc.
  destruct (String.eqb (normalizeMove n) "O-O") eqn:E1;
    [apply String.eqb_eq in E1; symmetry in E1; tauto|].
  destruct (String.eqb (normalizeMove n) "0-0") eqn:E2;
    [apply String.eqb_eq in E2; symmetry in E2; tauto|].
  destruct (String.eqb (normalizeMove n) "O-O-O") eqn:E3;
    [apply String.eqb_eq in E3; symmetry in E3; tauto|].
  destruct (String.eqb (normalizeMove n) "0-0-0") eqn:E4;
    [apply String.eqb_eq in E4; symmetry in E4; tauto|].
  cbn [orb].
  destruct (parsePattern (normalizeMove n)) as [q|] eqn:Hq; [|discriminate].
  destruct (findCandidatePieces g q) as [|c l] eqn:Hc; [discriminate|].
  intros [= <- <-].
  assert (In c (findCandidatePieces g q)) as Hin by (rewrite Hc; now left).
  unfold findCandidatePieces in Hin. apply in_map_iff in Hin.
  destruct Hin as ([k v] & <- & Hin). apply filter_In in Hin.
  destruct Hin as [_ Hcand]. cbn [fst snd] in *.
  destruct (isCandidate_facts g q k v Hcand) as (_ & _ & _ & Hmv & _).
  split; [now apply makeMove_succeeds_by_valid_move|].
  apply (validMoves_filter g k _ Hmv).
Qed.

Lemma parsed_move_is_playable_witness :
  fst (makeMove newGame "g1" "f3") = true /\ isValidSquare "f3" = true.
Proof.
  apply (parsed_move_is_playable newGame "Nf3+" "g1" "f3").
  - vm_compute. intuition discriminate.
  - reflexivity.
Defined.

Lemma strip_right_all (p : ascii -> bool) (s : string) :
  all_chars p s = true -> strip_right p s = "".
Proof.
  induction s as [|c s IH]; cbn [all_chars strip_right]; [reflexivity|].
  intros H. apply andb_true_iff in H. destruct H as [Hc Hs].
  now rewrite (IH Hs), Hc.
Qed.

Lemma strip_right_app (p : ascii -> bool) (n gl : string) :
  all_chars p gl = true -> strip_right p (n ++ gl) = strip_right p n.
Proof.
  intros H. induction n as [|c n IH]; cbn [append strip_right].
  - now apply strip_right_all.
  - now rewrite IH.
Qed.

(** X12: trailing check, mate and annotation glyphs do not matter.  For
    every string of characters among + # ! ? appended to a notation, the
    normalised notation is the same, so the parser returns the same
    result and the trainer's comparison of two moves is unaffected. *)
Theorem trailing_glyphs_ignored (g : ChessGame) (n gl : string) :
  all_chars is_glyph gl = true ->
  normalizeMove (n ++ gl) = normalizeMove n
  /\ parseAlgebraicNotation g (n ++ gl) = parseAlgebraicNotation g n.
Proof.
  intros H.
  assert (normalizeMove (n ++ gl) = normalizeMove n) as E
      by (unfold normalizeMove; now rewrite strip_right_app).
  split; [exact E|].
  unfold parseAlgebraicNotation. fold (normalizeMove (n ++ gl)).
  fold (normalizeMove n). now rewrite E.
Qed.

Lemma trailing_glyphs_ignored_witness :
  normalizeMove ("Nf3" ++ "+!?") = normalizeMove "Nf3"
  /\ parseAlgebraicNotation newGame ("Nf3" ++ "+!?")
     = parseAlgebraicNotation newGame "Nf3".
Proof.
  apply (trailing_glyphs_ignored newGame "Nf3" "+!?"). reflexivity.
Defined.

Lemma space_is_not_glyph (c : ascii) : is_space c = true -> is_glyph c = false.
Proof. ascii_cases c; intros H; vm_compute in H |- *; congruence. Qed.

Lemma all_chars_last (p : ascii -> bool) (s : string) :
  all_chars p s = true -> s <> "" ->
  exists s' c, s = s' ++ String c "" /\ p c = true.
Proof.
  induction s as [|c s IH]; [congruence|].
  cbn [all_chars]. intros H _. apply andb_true_iff in H.
  destruct H as [Hc Hs]. destruct s as [|c' s].
  - exists "", c. now split.
  - destruct (IH Hs) as (s' & l & E & Hl); [discriminate|].
    exists (String c s'), l. split; [|assumption].
    cbn [append]. now rewrite <- E.
Qed.

(** The white space of [trim] and [\s] by code unit: the no-break space
    is part of it. *)
Lemma is_space_codes (c : ascii) :
  is_space c = true <-> In (Z_of_ascii c) [9; 10; 11; 12; 13; 32; 160].
Proof.
  unfold is_space. cbv zeta.
  rewrite !orb_true_iff, andb_true_iff, !Z.leb_le, !Z.eqb_eq.
  cbn [In]. lia.
Qed.

(** X13: glyphs are stripped before white space is trimmed, so white
    space after a glyph protects it.  A notation that begins with a
    character that is no white space, ends with any character that is no
    white space (a glyph, say) and is followed by white space normalises
    to itself with the white space removed, glyph included.  White space
    is what [trim] removes ([is_space_codes]), the no-break space
    included. *)
Theorem trailing_space_keeps_glyphs (c0 : ascii) (s : string) (c : ascii)
  (ws : string) :
  is_space c0 = false -> is_space c = false ->
  all_chars is_space ws = true -> ws <> "" ->
  normalizeMove (String c0 (s ++ String c "") ++ ws)
  = String c0 (s ++ String c "").
Proof.
  intros H0 Hc Hws Hne. unfold normalizeMove.
  destruct (all_chars_last is_space ws Hws Hne) as (ws' & l & E & Hl).
  set (x := String c0 (s ++ String c "")).
  assert (strip_right is_glyph (x ++ ws) = x ++ ws) as ->.
  { rewrite E, <- string_app_assoc.
    apply strip_right_keeps. now apply space_is_not_glyph. }
  unfold trim, x. cbn [append strip_left]. rewrite H0.
  change (String c0 ((s ++ String c "") ++ ws))
    with (String c0 (s ++ String c "") ++ ws).
  rewrite strip_right_app by assumption.
  change (String c0 (s ++ String c "")) with (String c0 s ++ String c "").
  now apply strip_right_keeps.
Qed.

Lemma trailing_space_keeps_glyphs_witness :
  normalizeMove (String "N" ("f3" ++ String "+" "") ++ " ")
  = String "N" ("f3" ++ String "+" "").
Proof.
  apply (trailing_space_keeps_glyphs "N" "f3" "+" " ");
    [reflexivity | reflexivity | reflexivity | discriminate].
Defined.

Lemma matches_length (classes : list (ascii -> bool)) (s : string) :
  matches classes s = true -> String.length s = length classes.
Proof.
  revert s. induction classes as [|cl classes IH]; intros [|c s];
    cbn [matches String.length length]; try discriminate; [reflexivity|].
  intros H. apply andb_true_iff in H. f_equal. now apply IH.
Qed.

Lemma parsePattern_length (n : string) (q : Parsed) :
  parsePattern n = Some q -> (2 <= String.length n <= 5)%nat.
Proof.
  unfold parsePattern.
  repeat match goal with
         | |- (if matches ?cls n then _ else _) = _ -> _ =>
             let E := fresh "E" in
             destruct (matches cls n) eqn:E;
             [apply matches_length in E; rewrite E; cbn [length]; lia|]
         end.
  discriminate.
Qed.

(** X14: the parser rejects by length.  A notation whose normalised form
    has fewer than two or more than five characters (the empty string, a
    lone letter, a move with a full-square disambiguator and a capture
    mark, ...) gives null in every game. *)
Theorem parse_rejects_by_length (g : ChessGame) (n : string) :
  (String.length (normalizeMove n) < 2
   \/ 5 < String.length (normalizeMove n))%nat ->
  parseAlgebraicNotation g n = None.
Proof.
  intros Hlen. unfold parseAlgebraicNotation. fold (normalizeMove n).
  destruct (String.eqb (normalizeMove n) "O-O") eqn:E1;
    [apply String.eqb_eq in E1; rewrite E1 in Hlen; cbn in Hlen; lia|].
  destruct (String.eqb (normalizeMove n) "0-0") eqn:E2;
    [apply String.eqb_eq in E2; rewrite E2 in Hlen; cbn in Hlen; lia|].
  destruct (String.eqb (normalizeMove n) "O-O-O") eqn:E3;
    [apply String.eqb_eq in E3; rewrite E3 in Hlen; cbn in Hlen; lia|].
  destruct (String.eqb (normalizeMove n) "0-0-0") eqn:E4;
    [apply String.eqb_eq in E4; rewrite E4 in Hlen; cbn in Hlen; lia|].
  cbn [orb].
  destruct (parsePattern (normalizeMove n)) as [q|] eqn:Hq; [|reflexivity].
  apply parsePattern_length in Hq. lia.
Qed.

Lemma parse_rejects_by_length_witness :
  parseAlgebraicNotation newGame "Nb1xc3" = None.
Proof.
  apply (parse_rejects_by_length newGame "Nb1xc3").
  right. vm_compute. lia.
Defined.

Lemma parse_unmatched (g : ChessGame) (n : string) :
  parsePattern (normalizeMove n) = None ->
  ~ In (normalizeMove n) castlingNotations ->
  parseAlgebraicNotation g n = None.
Proof.
  intros Hpat Hnc. unfold parseAlgebraicNotation. fold (normalizeMove n).
  cbn [castlingNotations In] in Hnc.
  destruct (String.eqb (normalizeMove n) "O-O") eqn:E1;
    [apply String.eqb_eq in E1; symmetry in E1; tauto|].
  destruct (String.eqb (normalizeMove n) "0-0") eqn:E2;
    [apply String.eqb_eq in E2; symmetry in E2; tauto|].
  destruct (String.eqb (normalizeMove n) "O-O-O") eqn:E3;
    [apply String.eqb_eq in E3; symmetry in E3; tauto|].
  destruct (String.eqb (normalizeMove n) "0-0-0") eqn:E4;
    [apply String.eqb_eq in E4; symmetry in E4; tauto|].
  cbn [orb]. now rewrite Hpat.
Qed.

Lemma parsePattern_square (l a c ta tc : ascii) (capture : bool) :
  is_file a = true -> is_rank c = true ->
  parsePattern
    (String l (String a (String c
       ((if capture then "x" else "") ++ String ta (String tc "")))))
  = None.
Proof.
  intros Ha Hc. unfold parsePattern.
  repeat match goal with
         | |- (if matches ?cls ?n then _ else _) = _ =>
             let E := fresh "E" in
             destruct (matches cls n) eqn:E;
             [exfalso; destruct capture; cbn [matches append] in E;
              rewrite ?(file_is_not_rank _ Ha), ?(file_is_not_x _ Ha),
                ?(rank_is_not_file _ Hc), ?(rank_is_not_x _ Hc),
                ?andb_false_r in E;
              cbn [andb] in E; rewrite ?andb_false_r in E; discriminate E|]
         end.
  reflexivity.
Qed.

(** X15: the full-square disambiguator cannot be read back.  In a
    well-formed position, when a piece other than a pawn has one
    alternative on its file and one on its rank, [generateMoveNotation]
    writes the whole origin square after the piece letter, and the parser
    returns null for that notation: it has no pattern for this form. *)
Theorem square_disambiguator_unreadable (g : ChessGame) from to
  (p : Piece) :
  wf_position (position g) ->
  getPiece g from = Some p -> ptype p <> tP ->
  In to (getValidMoves g from) ->
  (exists s, alternative g from to p s /\ js_at s 0 = js_at from 0) ->
  (exists s, alternative g from to p s /\ js_at s 1 = js_at from 1) ->
  generateMoveNotation g from to (Some p) (getPiece g to)
  = String (type_letter (ptype p))
      (from ++ (if is_some (getPiece g to) then "x" else "") ++ to)
  /\ parseAlgebraicNotation g
       (generateMoveNotation g from to (Some p) (getPiece g to))
     = None.
Proof.
  intros Hwf Hp Ht Hin (s1 & A1 & F1) (s2 & A2 & R2).
  pose proof (wf_key_valid g from p Hwf Hp) as Hvf.
  pose proof (proj1 (validMoves_filter g from to Hin)) as Hvt.
  destruct (isValidSquare_chars _ Hvf) as (a & c & Efrom & Ha & Hc).
  destruct (isValidSquare_chars _ Hvt) as (ta & tc & Eto & Hta & Htc).
  apply (findAmbiguousMoves_alternative g from to p s1 (proj1 Hwf)) in A1.
  apply (findAmbiguousMoves_alternative g from to p s2 (proj1 Hwf)) in A2.
  rewrite generateMoveNotation_piece by assumption.
  rewrite (disambiguator_square from _ s1 s2 A1 F1 A2 R2).
  split; [reflexivity|].
  set (capture := is_some (getPiece g to)). subst from to.
  cbn [append].
  assert (normalizeMove
            (String (type_letter (ptype p))
               (String a (String c
                  ((if capture then "x" else "")
                   ++ String ta (String tc "")))))
          = String (type_letter (ptype p))
              (String a (String c
                 ((if capture then "x" else "")
                  ++ String ta (String tc ""))))) as Enorm.
  { unfold normalizeMove.
    destruct capture;
      [apply (normalise_id _ (String a (String c (String "x" (String ta ""))))
                tc)
      | apply (normalise_id _ (String a (String c (String ta ""))) tc)];
      auto using letter_is_not_space, rank_is_not_space, rank_is_not_glyph. }
  apply parse_unmatched; rewrite Enorm.
  - now apply parsePattern_square.
  - cbn [castlingNotations In].
    destruct (ptype p); intuition discriminate.
Qed.

Lemma square_disambiguator_unreadable_witness :
  let g := mkGame [("b1", Some wN); ("b5", Some wN); ("d1", Some wN)]
             cW [] in
  generateMoveNotation g "b1" "c3" (Some wN) (getPiece g "c3")
  = String (type_letter (ptype wN))
      ("b1" ++ (if is_some (getPiece g "c3") then "x" else "") ++ "c3")
  /\ parseAlgebraicNotation g
       (generateMoveNotation g "b1" "c3" (Some wN) (getPiece g "c3"))
     = None.
Proof.
  intros g.
  apply (square_disambiguator_unreadable g "b1" "c3" wN).
  - apply wf_positionb_ok. reflexivity.
  - reflexivity.
  - discriminate.
  - apply includes_In. reflexivity.
  - exists "b5". split; [|reflexivity].
    split; [discriminate|]. split.
    + exists wN. repeat split; reflexivity.
    + apply includes_In. reflexivity.
  - exists "d1". split; [|reflexivity].
    split; [discriminate|]. split.
    + exists wN. repeat split; reflexivity.
    + apply includes_In. reflexivity.
Defined.

(** ** Replaying a history *)

Lemma recorded_notation_reads_back (g : ChessGame) from to (p : Piece) :
  wf_position (position g) -> few_pieces (position g) ->
  getPiece g from = Some p -> pcolor p = currentPlayer g ->
  In to (getValidMoves g from) ->
  parseAlgebraicNotation g
    (generateMoveNotation g from to (Some p) (getPiece g to))
  = Some (from, to).
Proof.
  intros Hwf Hfew Hp Hturn Hin.
  destruct (ptype p) eqn:Ht;
    try (apply round_trip_piece; [assumption.. | congruence]).
  now apply round_trip_pawn.
Qed.

(** X16: a game can be replayed from its history.  For every reachable
    game, feeding the notations recorded in its history, in order, to
    [makeComputerMove] from a new game gives that game back: position,
    side to move and history. *)
Theorem history_replays (g : ChessGame) :
  reachable g ->
  fold_left makeComputerMove (map move_notation (moveHistory g)) newGame = g.
Proof.
  induction 1 as [|g from to g' Hreach IH Hmove]; [reflexivity|].
  assert (fst (makeMove g from to) = true) as Hok by now rewrite Hmove.
  destruct (reachable_invariant g Hreach) as [Hwf Hfew].
  destruct (makeMove_success _ _ _ Hok) as (p & Hp & Hturn & Hin & Hg').
  rewrite Hmove in Hg'. cbn [snd] in Hg'.
  assert (moveHistory g'
          = (moveHistory g
             ++ [mkMove from to (Some p) (getPiece g to)
                   (generateMoveNotation g from to (Some p)
                      (getPiece g to))])%list) as Hhist.
  { rewrite Hg', moved_without_castling
      by (apply castles_never with g; eauto using wf_key_valid).
    reflexivity. }
  rewrite Hhist, map_app, fold_left_app, IH.
  cbn [map fold_left move_notation]. unfold makeComputerMove.
  rewrite (recorded_notation_reads_back g from to p Hwf Hfew Hp Hturn Hin).
  now rewrite Hmove.
Qed.

Lemma history_replays_witness :
  fold_left makeComputerMove (map move_notation (moveHistory pawn_on_a7))
    newGame
  = pawn_on_a7.
Proof.
  apply (history_replays pawn_on_a7).
  apply play_reachable. exact reach_new.
Defined.

(** * Further properties of [clone] *)

Lemma heap_makeMove_deref_other (h : Heap) (x y : nat) from to :
  x <> y -> deref_obj (snd (heap_makeMove h x from to)) y = deref_obj h y.
Proof.
  intros Hne. unfold heap_makeMove, deref_obj. cbn [snd objects].
  now apply nth_list_set_other.
Qed.

Lemma heap_makeMove_history_field (h : Heap) (x y : nat) from to :
  obj_moveHistory (deref_obj (snd (heap_makeMove h x from to)) y)
  = obj_moveHistory (deref_obj h y).
Proof.
  unfold heap_makeMove, deref_obj. cbn [snd objects].
  destruct (Nat.eq_dec x y) as [->|Hne].
  - destruct (Nat.lt_ge_cases y (length (objects h))) as [Hlt|Hge].
    + now rewrite nth_list_set_same.
    + rewrite !nth_overflow; [reflexivity | assumption |].
      now rewrite length_list_set.
  - now rewrite nth_list_set_other.
Qed.

Lemma game_eta (g : ChessGame) :
  mkGame (position g) (currentPlayer g) (moveHistory g) = g.
Proof. now destruct g. Qed.

(** On a valid reference [makeMove] acts on the store as it acts on the
    game the reference denotes. *)
Lemma heap_makeMove_snapshot (h : Heap) (x : nat) from to :
  valid_game_ref h x ->
  snapshot (snd (heap_makeMove h x from to)) x
  = snd (makeMove (snapshot h x) from to)
  /\ fst (heap_makeMove h x from to) = fst (makeMove (snapshot h x) from to).
Proof.
  intros (Hx & Hp & Hh). split; [|reflexivity].
  unfold snapshot at 1.
  assert (deref_obj (snd (heap_makeMove h x from to)) x
          = mkObj (obj_position (deref_obj h x))
              (currentPlayer (snd (makeMove (snapshot h x) from to)))
              (obj_moveHistory (deref_obj h x))) as ->.
  { unfold heap_makeMove at 1. unfold deref_obj at 1. cbn [snd objects].
    now rewrite nth_list_set_same. }
  cbn [obj_position obj_currentPlayer obj_moveHistory].
  unfold heap_makeMove. cbn [snd positions histories].
  rewrite !nth_list_set_same by assumption. apply game_eta.
Qed.

Lemma heap_makeMove_snapshot_other (h : Heap) (x y : nat) from to :
  separate h x y ->
  snapshot (snd (heap_makeMove h x from to)) y = snapshot h y.
Proof.
  intros (Hne & Hp & Hh). unfold snapshot.
  rewrite (heap_makeMove_deref_other h x y from to Hne).
  unfold heap_makeMove. cbn [snd positions histories].
  now rewrite !nth_list_set_other by assumption.
Qed.

Lemma heap_makeMove_valid (h : Heap) (x y : nat) from to :
  valid_game_ref h y -> valid_game_ref (snd (heap_makeMove h x from to)) y.
Proof.
  intros (Hy & Hp & Hh). unfold valid_game_ref.
  rewrite heap_makeMove_position_field, heap_makeMove_history_field.
  unfold heap_makeMove. cbn [snd positions histories objects].
  now rewrite !length_list_set.
Qed.

Lemma heap_makeMove_separate (h : Heap) (x y z : nat) from to :
  separate h x y -> separate (snd (heap_makeMove h z from to)) x y.
Proof.
  intros (Hne & Hp & Hh). unfold separate.
  now rewrite !heap_makeMove_position_field, !heap_makeMove_history_field.
Qed.

Lemma heap_play_snapshot (ms : list (string * string)) (h : Heap) (x : nat) :
  valid_game_ref h x ->
  snapshot (heap_play h x ms) x = fst (play (snapshot h x) ms).
Proof.
  revert h. induction ms as [|[from to] rest IH]; intros h Hv;
    [reflexivity|].
  cbn [heap_play]. rewrite play_cons. cbn [fst].
  rewrite IH by now apply heap_makeMove_valid.
  now rewrite (proj1 (heap_makeMove_snapshot h x from to Hv)).
Qed.

Lemma heap_play_snapshot_other (ms : list (string * string)) (h : Heap)
  (x y : nat) :
  separate h x y -> snapshot (heap_play h x ms) y = snapshot h y.
Proof.
  revert h. induction ms as [|[from to] rest IH]; intros h Hs;
    [reflexivity|].
  cbn [heap_play]. rewrite IH by now apply heap_makeMove_separate.
  now apply heap_makeMove_snapshot_other.
Qed.

Lemma valid_game_ref_clone (h : Heap) (a : nat) :
  valid_game_ref (fst (heap_clone h a)) (snd (heap_clone h a)).
Proof.
  unfold valid_game_ref. rewrite (proj1 (heap_clone_copy h a)).
  unfold heap_clone. simpl.
  rewrite length_list_set, !length_app. simpl. lia.
Qed.

(** X17: a clone runs like the original and leaves it alone.  After
    [clone], whatever list of moves is requested on the clone, the clone
    ends as the original game would have ended after the same requests
    (position, side to move, history), while the original still has the
    position, side to move and history it had. *)
Theorem clone_runs_like_original (h : Heap) (a : nat)
  (ms : list (string * string)) :
  valid_game_ref h a ->
  let h1 := fst (heap_clone h a) in
  let c := snd (heap_clone h a) in
  snapshot (heap_play h1 c ms) c = fst (play (snapshot h a) ms)
  /\ snapshot (heap_play h1 c ms) a = snapshot h a.
Proof.
  intros (Ha & Hpa & Hha) h1 c.
  destruct (heap_clone_original h a Ha) as [Horig Hca].
  destruct (heap_clone_copy h a) as [Hcopy Hsnap].
  fold h1 in Horig, Hcopy, Hsnap. fold c in Hca, Hcopy, Hsnap.
  pose proof (valid_game_ref_clone h a) as Hvc. fold h1 c in Hvc.
  assert (separate h1 c a) as Hsep.
  { unfold separate. rewrite Horig, Hcopy.
    cbn [obj_position obj_moveHistory]. repeat split; [assumption | lia..]. }
  assert (snapshot h1 a = snapshot h a) as Hsame.
  { unfold snapshot. rewrite Horig. unfold h1, heap_clone.
    cbn [fst heap_new positions histories].
    rewrite <- !app_assoc. now rewrite !app_nth1 by assumption. }
  split.
  - now rewrite heap_play_snapshot, Hsnap.
  - now rewrite heap_play_snapshot_other.
Qed.

Lemma clone_runs_like_original_witness :
  let h := fst (heap_new (mkHeap [] [] [])) in
  let h1 := fst (heap_clone h 0) in
  let c := snd (heap_clone h 0) in
  snapshot (heap_play h1 c [("e2", "e4"); ("e7", "e5")]) c
  = fst (play (snapshot h 0) [("e2", "e4"); ("e7", "e5")])
  /\ snapshot (heap_play h1 c [("e2", "e4"); ("e7", "e5")]) 0%nat
     = snapshot h 0.
Proof.
  intros h h1 c.
  apply (clone_runs_like_original h 0%nat [("e2", "e4"); ("e7", "e5")]).
  repeat split; apply Nat.lt_0_succ.
Defined.

(** * Properties of the board component *)

Lemma flat_map_map {A B C : Type} (F : B -> list C) (h : A -> B)
  (l : list A) :
  flat_map (fun y => F (h y)) l = flat_map F (map h l).
Proof.
  induction l as [|y l IH]; cbn [flat_map map]; [reflexivity|].
  now rewrite IH.
Qed.

Lemma flat_map_nested {A B C D : Type} (F : C -> list D) (h : A -> B -> C)
  (xs : list A) (ys : list B) :
  flat_map (fun x => flat_map (fun y => F (h x y)) ys) xs
  = flat_map F (flat_map (fun x => map (h x) ys) xs).
Proof.
  induction xs as [|x xs IH]; cbn [flat_map]; [reflexivity|].
  now rewrite flat_map_app, IH, flat_map_map.
Qed.

Lemma board_get_squares (g : ChessGame) (keys : list string) (s : string) :
  board_get
    (flat_map
       (fun square =>
          match getPiece g square with
          | Some piece => [(square, piece)]
          | None => []
          end)
       keys) s
  = if includes keys s then getPiece g s else None.
Proof.
  induction keys as [|k keys IH]; [reflexivity|].
  cbn [flat_map]. unfold includes in *. cbn [existsb].
  destruct (String.eqb s k) eqn:E.
  - apply String.eqb_eq in E. subst k. cbn [orb].
    destruct (getPiece g s) as [p|] eqn:Hp; cbn [app board_get].
    + now rewrite String.eqb_refl.
    + rewrite IH. now destruct (existsb (String.eqb s) keys).
  - cbn [orb]. destruct (getPiece g k) as [p|]; cbn [app board_get];
      [rewrite E|]; exact IH.
Qed.

Lemma board_keys_valid (s : string) :
  includes
    (flat_map (fun file => map (fun rank => file ++ rank)
                             ["1"; "2"; "3"; "4"; "5"; "6"; "7"; "8"])
       ["a"; "b"; "c"; "d"; "e"; "f"; "g"; "h"]) s
  = isValidSquare s.
Proof.
  destruct (isValidSquare s) eqn:Hv.
  - exact (isValidSquare_listed s Hv).
  - apply not_true_iff_false. intros H. apply includes_In in H.
    assert (forallb isValidSquare
              (flat_map (fun file => map (fun rank => file ++ rank)
                                       ["1"; "2"; "3"; "4"; "5"; "6"; "7"; "8"])
                 ["a"; "b"; "c"; "d"; "e"; "f"; "g"; "h"]) = true) as Hall
        by (vm_compute; reflexivity).
    rewrite forallb_forall in Hall. rewrite (Hall s H) in Hv. discriminate.
Qed.

(** X18: the board draws exactly the game's pieces.  The record the
    board builds has, under every well-formed square name, the piece
    [getPiece] reports there, and nothing under any other key; for a game
    whose position is well formed it agrees with [getPiece] on every
    string. *)
Theorem board_shows_the_game (g : ChessGame) :
  (forall s, board_get (boardPosition g) s
             = if isValidSquare s then getPiece g s else None)
  /\ (wf_position (position g) ->
      forall s, board_get (boardPosition g) s = getPiece g s).
Proof.
  assert (forall s, board_get (boardPosition g) s
                    = if isValidSquare s then getPiece g s else None) as H.
  { intros s. unfold boardPosition.
    rewrite (flat_map_nested
               (fun square =>
                  match getPiece g square with
                  | Some piece => [(square, piece)]
                  | None => []
                  end)
               (fun file rank => file ++ rank)).
    now rewrite board_get_squares, board_keys_valid. }
  split; [exact H|].
  intros Hwf s. rewrite H.
  destruct (isValidSquare s) eqn:Hv; [reflexivity|].
  destruct (getPiece g s) as [p|] eqn:Hp; [|reflexivity].
  rewrite (wf_key_valid g s p Hwf Hp) in Hv. discriminate.
Qed.

Lemma board_shows_the_game_witness :
  wf_position (position newGame)
  /\ board_get (boardPosition newGame) "e2" = getPiece newGame "e2".
Proof.
  assert (H : wf_position (position newGame))
    by (apply wf_positionb_ok; reflexivity).
  split; [exact H|].
  exact (proj2 (board_shows_the_game newGame) H "e2").
Defined.

(** X19: the colouring is a checkerboard with a1 light.  The square in
    file [f] (0 for a) and rank row [r] (0 for rank 1) is light exactly
    when [f + r] is even; so the neighbours of a square along its rank
    and along its file have the other shade. *)
Theorem squares_alternate (f r : Z) :
  0 <= f < 8 -> 0 <= r < 8 ->
  squareIsLight (sq f r) = Z.even (f + r)
  /\ (f + 1 < 8 ->
      squareIsLight (sq (f + 1) r) = negb (squareIsLight (sq f r)))
  /\ (r + 1 < 8 ->
      squareIsLight (sq f (r + 1)) = negb (squareIsLight (sq f r))).
Proof.
  assert (forall x y, 0 <= x < 8 -> 0 <= y < 8 ->
                      squareIsLight (sq x y) = Z.even (x + y)) as H.
  { intros x y Hx Hy. enum8 Hx; enum8 Hy; reflexivity. }
  intros Hf Hr. split; [now apply H|].
  split; intros Hn; rewrite !H by lia.
  - replace (f + 1 + r) with (Z.succ (f + r)) by lia.
    now rewrite Z.even_succ, <- Z.negb_even.
  - replace (f + (r + 1)) with (Z.succ (f + r)) by lia.
    now rewrite Z.even_succ, <- Z.negb_even.
Qed.

Lemma squares_alternate_witness :
  squareIsLight (sq 0 0) = Z.even (0 + 0)
  /\ (0 + 1 < 8 ->
      squareIsLight (sq (0 + 1) 0) = negb (squareIsLight (sq 0 0)))
  /\ (0 + 1 < 8 ->
      squareIsLight (sq 0 (0 + 1)) = negb (squareIsLight (sq 0 0))).
Proof. apply (squares_alternate 0 0); lia. Defined.

Lemma ownPiece_valid_moves (g : ChessGame) from to :
  In to (getValidMoves g from) -> ownPiece g from = true.
Proof.
  intros H. destruct (validMoves_owner g from to H) as (p & Hp & Hc).
  unfold ownPiece. rewrite Hp. now apply color_eqb_eq.
Qed.

(** X20: the board only hands playable moves to [onMove].  When the
    board state is consistent with the game (nothing selected and no move
    shown, or a square of the side to move selected with its valid moves
    shown), a click leaves it consistent, and when the click produces a
    move, [makeMove] accepts that move and the selection is cleared. *)
Theorem click_emits_playable_moves (g : ChessGame) (st : BoardState)
  (square : string) :
  board_consistent g st ->
  board_consistent g (fst (handleSquareClick g st square))
  /\ (forall from to,
         snd (handleSquareClick g st square) = Some (from, to) ->
         fst (makeMove g from to) = true
         /\ fst (handleSquareClick g st square) = mkBoardState None []).
Proof.
  unfold board_consistent, handleSquareClick.
  destruct st as [[sel|] moves]; cbn [selectedSquare validMoves].
  - intros [Hown ->].
    destruct (truthy (Some sel)).
    + destruct (String.eqb sel square);
        [split; [reflexivity | discriminate]|].
      destruct (includes (getValidMoves g sel) square) eqn:Hin.
      * split; [reflexivity|]. intros from to [= <- <-].
        split; [|reflexivity].
        apply makeMove_succeeds_by_valid_move. now apply includes_In.
      * destruct (ownPiece g square) eqn:Hsq;
          (split; [cbn; auto | discriminate]).
    + destruct (ownPiece g square) eqn:Hsq;
        (split; [cbn; auto | discriminate]).
  - intros ->.
    destruct (ownPiece g square) eqn:Hsq;
      (split; [cbn; auto | discriminate]).
Qed.

Lemma click_emits_playable_moves_witness :
  let st := fst (handleSquareClick newGame (mkBoardState None []) "e2") in
  board_consistent newGame (fst (handleSquareClick newGame st "e4"))
  /\ (forall from to,
         snd (handleSquareClick newGame st "e4") = Some (from, to) ->
         fst (makeMove newGame from to) = true
         /\ fst (handleSquareClick newGame st "e4") = mkBoardState None []).
Proof.
  intros st.
  apply (click_emits_playable_moves newGame st "e4").
  split; reflexivity.
Defined.

(** * Properties of the trainer page *)

Lemma moved_last_notation (g : ChessGame) from to :
  fst (makeMove g from to) = true ->
  map move_notation (moveHistory (snd (makeMove g from to)))
  = (map move_notation (moveHistory g)
     ++ [getLastMoveNotation (snd (makeMove g from to))])%list.
Proof.
  intros Hok. destruct (makeMove_success g from to Hok) as (p & _ & _ & _ & ->).
  unfold moved. rewrite last_notation_snoc. cbn [moveHistory].
  now rewrite map_app.
Qed.

Lemma handleMove_freePlay_step (g : ChessGame) from to :
  handleMove_freePlay (g, map move_notation (moveHistory g)) from to
  = (snd (makeMove g from to),
     map move_notation (moveHistory (snd (makeMove g from to)))).
Proof.
  unfold handleMove_freePlay. cbn [fst snd].
  destruct (fst (makeMove g from to)) eqn:Hok.
  - now rewrite (moved_last_notation g from to Hok).
  - now rewrite (makeMove_failure g from to Hok).
Qed.

(** X21: in free play the displayed history is the engine's.  Starting
    from a game and the notations of its history, after any list of
    requested moves the displayed list is the list of notations of the
    game's history, and the game is the one [makeMove] produces from the
    same requests. *)
Theorem free_play_history_matches (ms : list (string * string))
  (g : ChessGame) :
  let st :=
    fold_left (fun st m => handleMove_freePlay st (fst m) (snd m)) ms
      (g, map move_notation (moveHistory g)) in
  snd st = map move_notation (moveHistory (fst st))
  /\ fst st = fst (play g ms).
Proof.
  revert g. induction ms as [|[from to] rest IH]; intros g;
    [split; reflexivity|].
  cbn [fold_left fst snd]. rewrite handleMove_freePlay_step, play_cons.
  apply IH.
Qed.

Lemma is_nil_false {A : Type} (l : list A) :
  negb (is_nil l) = true <-> l <> [].
Proof. destruct l; cbn; split; congruence. Qed.

(** X22: deleting a variation.  In the result no opening is left without
    variations; no opening with the given id still has a variation with
    the given id; the other variations of such an opening are kept under
    the same opening id and name; and an opening with another id is in
    the result exactly when it was there before with some variation. *)
Theorem deleteVariation_removes (openings : list Opening)
  (openingId variationId : string) :
  let result := deleteVariation openings openingId variationId in
  (forall o, In o result -> opening_variations o <> [])
  /\ (forall o v, In o result -> opening_id o = openingId ->
                  In v (opening_variations o) ->
                  variation_id v <> variationId)
  /\ (forall o v, In o openings -> opening_id o = openingId ->
                  In v (opening_variations o) ->
                  variation_id v <> variationId ->
                  exists o', In o' result
                             /\ opening_id o' = openingId
                             /\ opening_name o' = opening_name o
                             /\ In v (opening_variations o'))
  /\ (forall o, opening_id o <> openingId ->
                In o result <->
                In o openings /\ opening_variations o <> []).
Proof.
  unfold deleteVariation. cbv zeta.
  split; [|split; [|split]].
  - intros o Ho. apply filter_In in Ho. now apply is_nil_false.
  - intros o v Ho Hid Hv. apply filter_In in Ho. destruct Ho as [Ho _].
    apply in_map_iff in Ho. destruct Ho as (o0 & E & _).
    destruct (String.eqb (opening_id o0) openingId) eqn:E0.
    + subst o. cbn [opening_variations] in Hv. apply filter_In in Hv.
      destruct Hv as [_ Hv]. apply negb_true_iff in Hv.
      now apply String.eqb_neq.
    + subst o0. apply String.eqb_neq in E0. contradiction.
  - intros o v Ho Hid Hv Hne.
    exists (mkOpening (opening_id o) (opening_name o)
              (filter (fun v => negb (String.eqb (variation_id v) variationId))
                 (opening_variations o))).
    assert (In v (filter
                    (fun v => negb (String.eqb (variation_id v) variationId))
                    (opening_variations o))) as Hv'.
    { apply filter_In. split; [assumption|].
      now apply negb_true_iff, String.eqb_neq. }
    split; [|cbn; auto].
    apply filter_In. split.
    + apply in_map_iff. exists o. split; [|assumption].
      apply String.eqb_eq in Hid. now rewrite Hid.
    + cbn [opening_variations]. apply is_nil_false. intros E.
      rewrite E in Hv'. destruct Hv'.
  - intros o Hid. rewrite filter_In, in_map_iff, is_nil_false. split.
    + intros [(o0 & E & Ho0) Hne]. split; [|assumption].
      destruct (String.eqb (opening_id o0) openingId) eqn:E0.
      * subst o. cbn [opening_id] in Hid. apply String.eqb_eq in E0.
        contradiction.
      * now subst o0.
    + intros [Ho Hne]. split; [|assumption]. exists o.
      split; [|assumption]. apply String.eqb_neq in Hid. now rewrite Hid.
Qed.

Lemma deleteVariation_removes_witness :
  let sicilian :=
    mkOpening "o2" "Sicilian" [mkVariation "v2" "Open" ["e4"; "c5"]] in
  let openings :=
    [mkOpening "o1" "Italian" [mkVariation "v1" "Main" ["e4"; "e5"]];
     sicilian] in
  In sicilian (deleteVariation openings "o1" "v1")
  /\ opening_variations sicilian <> [].
Proof.
  cbv zeta.
  assert (H : In (mkOpening "o2" "Sicilian"
                    [mkVariation "v2" "Open" ["e4"; "c5"]])
                (deleteVariation
                   [mkOpening "o1" "Italian"
                      [mkVariation "v1" "Main" ["e4"; "e5"]];
                    mkOpening "o2" "Sicilian"
                      [mkVariation "v2" "Open" ["e4"; "c5"]]]
                   "o1" "v1")) by (left; reflexivity).
  split; [exact H|].
  exact (proj1 (deleteVariation_removes _ "o1" "v1") _ H).
Defined.

(** * Properties of the practice controls *)

Lemma set_has_add (s : list string) (x y : string) :
  set_has (set_add s y) x = String.eqb x y || set_has s x.
Proof.
  unfold set_add, set_has, includes.
  destruct (existsb (String.eqb y) s) eqn:E.
  - destruct (String.eqb x y) eqn:Exy; [|reflexivity].
    apply String.eqb_eq in Exy. subst y. now rewrite E.
  - rewrite existsb_app. cbn [existsb]. rewrite orb_false_r. apply orb_comm.
Qed.

Lemma set_has_delete (s : list string) (x y : string) :
  set_has (set_delete s y) x = negb (String.eqb x y) && set_has s x.
Proof.
  unfold set_delete, set_has, includes.
  induction s as [|z s IH]; cbn [filter existsb].
  - now rewrite andb_false_r.
  - destruct (String.eqb y z) eqn:Eyz; cbn [negb existsb]; rewrite IH.
    + apply String.eqb_eq in Eyz. subst z.
      now destruct (String.eqb x y).
    + destruct (String.eqb x z) eqn:Exz; [|reflexivity].
      apply String.eqb_eq in Exz. subst z.
      rewrite String.eqb_sym in Eyz. now rewrite Eyz.
Qed.

Lemma NoDup_set_add (s : list string) (y : string) :
  NoDup s -> NoDup (set_add s y).
Proof.
  intros H. unfold set_add, set_has.
  destruct (includes s y) eqn:E; [assumption|].
  apply includes_not_In in E.
  apply NoDup_app; [assumption | repeat constructor; tauto|].
  intros a Ha [<-|[]]. contradiction.
Qed.

Lemma NoDup_set_delete (s : list string) (y : string) :
  NoDup s -> NoDup (set_delete s y).
Proof. intros H. now apply NoDup_filter. Qed.

Lemma handleOpeningToggle_has (selected : list string) (opening : Opening)
  (checked : bool) (x : string) :
  set_has (handleOpeningToggle selected opening checked) x
  = if existsb (fun v => String.eqb x (variation_id v))
         (opening_variations opening)
    then checked else set_has selected x.
Proof.
  unfold handleOpeningToggle. revert selected.
  induction (opening_variations opening) as [|v vs IH]; intros selected;
    [reflexivity|].
  cbn [fold_left existsb]. rewrite IH.
  destruct (existsb (fun v0 => String.eqb x (variation_id v0)) vs);
    [now rewrite orb_true_r|].
  rewrite orb_false_r. destruct checked.
  - rewrite set_has_add. now destruct (String.eqb x (variation_id v)).
  - rewrite set_has_delete. now destruct (String.eqb x (variation_id v)).
Qed.

(** X23: toggling an opening selects or deselects exactly its
    variations.  After [handleOpeningToggle] an id is selected when it is
    the id of a variation of the opening and the box was checked, or when
    it is no such id and was selected before; the selection still holds
    no id twice. *)
Theorem handleOpeningToggle_selects (selected : list string)
  (opening : Opening) (checked : bool) :
  (forall x,
      set_has (handleOpeningToggle selected opening checked) x
      = if existsb (fun v => String.eqb x (variation_id v))
             (opening_variations opening)
        then checked else set_has selected x)
  /\ (NoDup selected ->
      NoDup (handleOpeningToggle selected opening checked)).
Proof.
  split; [apply handleOpeningToggle_has|].
  unfold handleOpeningToggle. revert selected.
  induction (opening_variations opening) as [|v vs IH]; intros selected Hnd;
    [assumption|].
  cbn [fold_left]. apply IH.
  destruct checked; [now apply NoDup_set_add | now apply NoDup_set_delete].
Qed.

Lemma handleOpeningToggle_selects_witness :
  NoDup ["v1"; "v2"] /\
  NoDup (handleOpeningToggle ["v1"; "v2"]
           (mkOpening "o1" "Italian"
              [mkVariation "v2" "Main" []; mkVariation "v3" "Side" []])
           true).
Proof.
  assert (H : NoDup ["v1"; "v2"]).
  { repeat constructor; cbn; intuition discriminate. }
  split; [exact H|].
  exact (proj2 (handleOpeningToggle_selects ["v1"; "v2"]
                  (mkOpening "o1" "Italian"
                     [mkVariation "v2" "Main" [];
                      mkVariation "v3" "Side" []])
                  true) H).
Defined.

(** X24: what practice starts with.  The variations handed to the
    practice are exactly those of the listed openings whose id is
    selected; so after an opening of the list has been toggled on all its
    variations are among them, and after it has been toggled off none of
    the variations handed over has one of its ids. *)
Theorem selected_objects_after_toggle (openings : list Opening)
  (selected : list string) (opening : Opening) :
  (forall v,
      In v (getSelectedVariationObjects openings selected) <->
      exists o, In o openings /\ In v (opening_variations o)
                /\ set_has selected (variation_id v) = true)
  /\ (In opening openings ->
      forall v, In v (opening_variations opening) ->
                In v (getSelectedVariationObjects openings
                        (handleOpeningToggle selected opening true)))
  /\ (forall v w,
         In v (getSelectedVariationObjects openings
                 (handleOpeningToggle selected opening false)) ->
         In w (opening_variations opening) ->
         variation_id v <> variation_id w).
Proof.
  assert (forall sel v,
             In v (getSelectedVariationObjects openings sel) <->
             exists o, In o openings /\ In v (opening_variations o)
                       /\ set_has sel (variation_id v) = true) as H.
  { intros sel v. unfold getSelectedVariationObjects. rewrite in_flat_map.
    split; intros (o & Ho & Hv); exists o;
      [apply filter_In in Hv | rewrite filter_In]; tauto. }
  split; [apply H|]. split.
  - intros Ho v Hv. apply H. exists opening.
    repeat (split; [assumption|]).
    rewrite (handleOpeningToggle_has selected opening true).
    replace (existsb (fun v0 => String.eqb (variation_id v) (variation_id v0))
               (opening_variations opening)) with true; [reflexivity|].
    symmetry. apply existsb_exists. exists v.
    split; [assumption | apply String.eqb_refl].
  - intros v w Hv Hw E. apply H in Hv. destruct Hv as (o & _ & _ & Hsel).
    rewrite (handleOpeningToggle_has selected opening false) in Hsel.
    replace (existsb (fun v0 => String.eqb (variation_id v) (variation_id v0))
               (opening_variations opening)) with true in Hsel;
      [discriminate|].
    symmetry. apply existsb_exists. exists w.
    split; [assumption | now apply String.eqb_eq].
Qed.

Lemma selected_objects_after_toggle_witness :
  let italian :=
    mkOpening "o1" "Italian"
      [mkVariation "v1" "Main" ["e4"]; mkVariation "v2" "Side" ["d4"]] in
  In italian [italian] /\
  In (mkVariation "v2" "Side" ["d4"]) (opening_variations italian) /\
  In (mkVariation "v2" "Side" ["d4"])
    (getSelectedVariationObjects [italian]
       (handleOpeningToggle ["v1"] italian true)).
Proof.
  cbv zeta.
  assert (Ho : In (mkOpening "o1" "Italian"
                     [mkVariation "v1" "Main" ["e4"];
                      mkVariation "v2" "Side" ["d4"]])
                 [mkOpening "o1" "Italian"
                    [mkVariation "v1" "Main" ["e4"];
                     mkVariation "v2" "Side" ["d4"]]]) by (left; reflexivity).
  assert (Hv : In (mkVariation "v2" "Side" ["d4"])
                 (opening_variations
                    (mkOpening "o1" "Italian"
                       [mkVariation "v1" "Main" ["e4"];
                        mkVariation "v2" "Side" ["d4"]])))
    by (right; left; reflexivity).
  split; [exact Ho|]. split; [exact Hv|].
  exact (proj1 (proj2 (selected_objects_after_toggle _ ["v1"] _)) Ho _ Hv).
Defined.

(** * Properties of the notation importer *)

Lemma all_chars_app (p : ascii -> bool) (a b : string) :
  all_chars p (a ++ b) = all_chars p a && all_chars p b.
Proof.
  induction a as [|c a IH]; cbn [append all_chars]; [reflexivity|].
  rewrite IH. apply andb_assoc.
Qed.

Lemma all_chars_weaken (p q : ascii -> bool) (s : string) :
  (forall c, p c = true -> q c = true) ->
  all_chars p s = true -> all_chars q s = true.
Proof.
  intros Hpq. induction s as [|c s IH]; cbn [all_chars]; [reflexivity|].
  intros H. apply andb_true_iff in H. destruct H as [Hc Hs].
  rewrite (Hpq c Hc), (IH Hs). reflexivity.
Qed.

Lemma all_chars_js_slice (p : ascii -> bool) (n : nat) (s : string) :
  all_chars p s = true -> all_chars p (js_slice n s) = true.
Proof.
  revert s. induction n as [|n IH]; intros s H; [exact H|].
  destruct s as [|c s]; cbn [js_slice]; [reflexivity|].
  cbn [all_chars] in H. apply andb_true_iff in H. apply IH, H.
Qed.

Lemma all_chars_strip_left (p q : ascii -> bool) (s : string) :
  all_chars p s = true -> all_chars p (strip_left q s) = true.
Proof.
  induction s as [|c s IH]; cbn [strip_left]; intros H; [exact H|].
  destruct (q c); [|exact H].
  cbn [all_chars] in H. apply andb_true_iff in H. apply IH, H.
Qed.

Lemma all_chars_strip_right (p q : ascii -> bool) (s : string) :
  all_chars p s = true -> all_chars p (strip_right q s) = true.
Proof.
  induction s as [|c s IH]; cbn [strip_right]; intros H; [exact H|].
  cbn [all_chars] in H. apply andb_true_iff in H. destruct H as [Hc Hs].
  specialize (IH Hs).
  destruct (strip_right q s) as [|d r].
  - destruct (q c); cbn [all_chars]; [reflexivity|].
    rewrite Hc. reflexivity.
  - change (all_chars p (String c (String d r)))
      with (p c && all_chars p (String d r)).
    rewrite Hc, IH. reflexivity.
Qed.

(** A global replacement emits characters of the replacement and
    characters of the input at which the expression does not match. *)
Lemma all_chars_replaceAll (p q : ascii -> bool)
  (matchAt : string -> option nat) (replacement : string) :
  all_chars q replacement = true ->
  (forall c s, p c = true ->
     (forall n, matchAt (String c s) <> Some (S n)) -> q c = true) ->
  forall s skip, all_chars p s = true ->
    all_chars q (replaceAll matchAt replacement skip s) = true.
Proof.
  intros Hrep Hkeep.
  induction s as [|c s IH]; intros skip H; [reflexivity|].
  cbn [all_chars] in H. apply andb_true_iff in H. destruct H as [Hc Hs].
  cbn [replaceAll]. destruct skip as [|k]; [|apply IH, Hs].
  destruct (matchAt (String c s)) as [[|n]|] eqn:E.
  - cbn [all_chars]. rewrite (Hkeep c s Hc), (IH 0%nat Hs); [reflexivity|].
    intros n. rewrite E. discriminate.
  - rewrite all_chars_app, Hrep, (IH n Hs). reflexivity.
  - cbn [all_chars]. rewrite (Hkeep c s Hc), (IH 0%nat Hs); [reflexivity|].
    intros n. rewrite E. discriminate.
Qed.

Lemma replaceAll_keeps (p : ascii -> bool)
  (matchAt : string -> option nat) (s : string) (skip : nat) :
  all_chars p s = true ->
  all_chars p (replaceAll matchAt "" skip s) = true.
Proof.
  apply all_chars_replaceAll with (p := p); [reflexivity|].
  intros c _ Hc _. exact Hc.
Qed.

(** Where the expression matches nowhere, the replacement changes
    nothing. *)
Lemma replaceAll_none (p : ascii -> bool)
  (matchAt : string -> option nat) (replacement : string) :
  (forall s, all_chars p s = true -> matchAt s = None) ->
  forall s, all_chars p s = true ->
    replaceAll matchAt replacement 0 s = s.
Proof.
  intros Hnone. induction s as [|c s IH]; intros H; [reflexivity|].
  cbn [replaceAll]. rewrite (Hnone _ H).
  cbn [all_chars] in H. apply andb_true_iff in H.
  rewrite (IH (proj2 H)). reflexivity.
Qed.

Lemma match_run_head (p : ascii -> bool) (c : ascii) (s : string) :
  (forall n, match_run p (String c s) <> Some (S n)) -> p c = false.
Proof.
  unfold match_run. cbn [count_while]. destruct (p c); [|reflexivity].
  intros H. exfalso. exact (H _ eq_refl).
Qed.

Lemma match_run_none (p q : ascii -> bool) (s : string) :
  (forall c, q c = true -> p c = false) ->
  all_chars q s = true -> match_run p s = None.
Proof.
  intros Hq. destruct s as [|c s]; [reflexivity|].
  cbn [all_chars]. intros H. apply andb_true_iff in H.
  unfold match_run. cbn [count_while]. rewrite (Hq c (proj1 H)).
  reflexivity.
Qed.

Lemma prefix_dot_none (tail s : string) :
  all_chars (fun c => negb (Ascii.eqb c ".")) s = true ->
  String.prefix (String "." tail) s = false.
Proof.
  destruct s as [|c s]; [reflexivity|].
  cbn [all_chars String.prefix]. intros H. apply andb_true_iff in H.
  destruct H as [Hc _]. apply negb_true_iff in Hc.
  destruct (ascii_dec "." c) as [e|n]; [|reflexivity].
  subst c. discriminate Hc.
Qed.

Lemma match_number_none (tail s : string) :
  all_chars (fun c => negb (Ascii.eqb c ".")) s = true ->
  match_number (String "." tail) s = None.
Proof.
  intros H. unfold match_number.
  destruct (count_while is_digit s) as [|k]; [reflexivity|].
  rewrite prefix_dot_none; [reflexivity|].
  apply all_chars_js_slice, H.
Qed.

Lemma match_comment_none (s : string) :
  all_chars (fun c => negb (Ascii.eqb c "{")) s = true ->
  match_comment s = None.
Proof.
  destruct s as [|c s]; [reflexivity|].
  cbn [all_chars match_comment]. intros H. apply andb_true_iff in H.
  destruct H as [Hc _]. apply negb_true_iff in Hc. rewrite Hc.
  reflexivity.
Qed.

Lemma match_nag_none (s : string) :
  all_chars (fun c => negb (Ascii.eqb c "$")) s = true ->
  match_nag s = None.
Proof.
  destruct s as [|c s]; [reflexivity|].
  cbn [all_chars match_nag]. intros H. apply andb_true_iff in H.
  destruct H as [Hc _]. apply negb_true_iff in Hc. rewrite Hc.
  reflexivity.
Qed.

(** The pieces of [s.split(" ")] hold no space. *)
Lemma split_space_chars (p : ascii -> bool) (s : string) :
  all_chars p s = true ->
  Forall (fun t =>
            all_chars (fun c => p c && negb (Ascii.eqb c " ")) t = true)
    (split_space s).
Proof.
  induction s as [|c s IH]; intros H.
  - constructor; [reflexivity|constructor].
  - cbn [all_chars] in H. apply andb_true_iff in H. destruct H as [Hc Hs].
    specialize (IH Hs). cbn [split_space].
    destruct (Ascii.eqb c " ") eqn:E.
    + constructor; [reflexivity|exact IH].
    + destruct (split_space s) as [|t ts].
      * constructor; [|constructor]. cbn [all_chars]. rewrite Hc, E.
        reflexivity.
      * inversion IH as [|? ? Ht Hts]; subst.
        constructor; [|exact Hts]. cbn [all_chars]. rewrite Hc, E, Ht.
        reflexivity.
Qed.

Lemma contains_char (d : ascii) (s : string) :
  contains (String d "") s = false ->
  all_chars (fun c => negb (Ascii.eqb c d)) s = true.
Proof.
  induction s as [|c s IH]; [reflexivity|].
  cbn [contains all_chars String.prefix]. intros H.
  apply orb_false_iff in H. destruct H as [Hp Hs].
  rewrite (IH Hs), andb_true_r.
  destruct (ascii_dec d c) as [e|n].
  - destruct s; discriminate Hp.
  - apply negb_true_iff, Ascii.eqb_neq. congruence.
Qed.

Lemma keepMove_facts (t : string) :
  keepMove t = true ->
  t <> "" /\ contains "*" t = false /\ contains "1-0" t = false /\
  contains "0-1" t = false /\ contains "1/2-1/2" t = false.
Proof.
  unfold keepMove. intros H.
  repeat (apply andb_true_iff in H; destruct H as [H ?]).
  repeat match goal with
         | [ K : negb _ = true |- _ ] => apply negb_true_iff in K
         end.
  repeat split; try assumption.
  intros ->. discriminate.
Qed.

Lemma space_is_space (c : ascii) :
  is_space c = false -> Ascii.eqb c " " = false.
Proof.
  intros H. apply Ascii.eqb_neq. intros ->. discriminate H.
Qed.

Lemma strip_left_none (p : ascii -> bool) (s : string) :
  count_while p s = 0%nat -> strip_left p s = s.
Proof.
  destruct s as [|c s]; [reflexivity|]. cbn [count_while strip_left].
  destruct (p c); [discriminate|reflexivity].
Qed.

Lemma strip_right_none (p : ascii -> bool) (s : string) :
  all_chars (fun c => negb (p c)) s = true -> strip_right p s = s.
Proof.
  induction s as [|c s IH]; [reflexivity|].
  cbn [all_chars strip_right]. intros H. apply andb_true_iff in H.
  destruct H as [Hc Hs]. rewrite (IH Hs).
  apply negb_true_iff in Hc. destruct s; [rewrite Hc|]; reflexivity.
Qed.

Lemma strip_right_suffix (p : ascii -> bool) (a u : string) :
  u <> "" -> strip_right p u = u -> strip_right p (a ++ u) = a ++ u.
Proof.
  intros Hne Hu. induction a as [|c a IH]; [exact Hu|].
  cbn [append strip_right]. rewrite IH.
  destruct (a ++ u) eqn:E; [|reflexivity].
  destruct a; [|discriminate E]. cbn [append] in E. contradiction.
Qed.

Lemma split_space_token (t : string) :
  all_chars (fun c => negb (Ascii.eqb c " ")) t = true ->
  split_space t = [t].
Proof.
  induction t as [|c t IH]; [reflexivity|].
  cbn [all_chars split_space]. intros H. apply andb_true_iff in H.
  destruct H as [Hc Ht]. apply negb_true_iff in Hc.
  rewrite Hc, (IH Ht). reflexivity.
Qed.

Lemma split_space_app (t u : string) :
  all_chars (fun c => negb (Ascii.eqb c " ")) t = true ->
  split_space (t ++ " " ++ u) = t :: split_space u.
Proof.
  induction t as [|c t IH]; [reflexivity|].
  cbn [all_chars]. intros H. apply andb_true_iff in H.
  destruct H as [Hc Ht]. apply negb_true_iff in Hc.
  change (String c t ++ " " ++ u) with (String c (t ++ " " ++ u)).
  cbn [split_space]. rewrite Hc, (IH Ht). reflexivity.
Qed.

Lemma plain_char_facts (c : ascii) :
  plain_char c = true ->
  is_space c = false /\ is_bang c = false /\ Ascii.eqb c "." = false /\
  Ascii.eqb c "{" = false /\ Ascii.eqb c "$" = false.
Proof.
  unfold plain_char. intros H.
  repeat (apply andb_true_iff in H; destruct H as [H ?]).
  repeat match goal with
         | [ K : negb _ = true |- _ ] => apply negb_true_iff in K
         end.
  repeat split; assumption.
Qed.

Lemma plain_move_facts (t : string) :
  plain_move t = true ->
  all_chars plain_char t = true /\ keepMove t = true /\ t <> "".
Proof.
  unfold plain_move. intros H. apply andb_true_iff in H.
  destruct H as [Hc Hk]. repeat split; try assumption.
  apply keepMove_facts, Hk.
Qed.

Lemma join_space_cons (t : string) (ts : list string) :
  ts <> [] -> join_space (t :: ts) = t ++ " " ++ join_space ts.
Proof. destruct ts; [contradiction|reflexivity]. Qed.

(** Every character of a joined list of plain moves is plain or the
    separating space. *)
Lemma join_space_chars (tokens : list string) :
  Forall (fun t => plain_move t = true) tokens ->
  all_chars (fun c => plain_char c || Ascii.eqb c " ")
    (join_space tokens) = true.
Proof.
  induction tokens as [|t ts IH]; intros H; [reflexivity|].
  inversion H as [|? ? Ht Hts]; subst.
  assert (Hplain : all_chars (fun c => plain_char c || Ascii.eqb c " ") t
                   = true).
  { apply all_chars_weaken with (p := plain_char).
    - intros c Hc. rewrite Hc. reflexivity.
    - apply plain_move_facts, Ht. }
  destruct ts as [|t' ts']; [exact Hplain|].
  rewrite join_space_cons by discriminate.
  rewrite !all_chars_app, Hplain, (IH Hts). reflexivity.
Qed.

Lemma join_space_head (tokens : list string) :
  Forall (fun t => plain_move t = true) tokens ->
  count_while is_space (join_space tokens) = 0%nat.
Proof.
  destruct tokens as [|t ts]; intros H; [reflexivity|].
  inversion H as [|? ? Ht _]; subst.
  destruct (plain_move_facts t Ht) as (Hc & _ & Hne).
  destruct t as [|c t]; [contradiction|].
  cbn [all_chars] in Hc. apply andb_true_iff in Hc.
  destruct (plain_char_facts c (proj1 Hc)) as (Hs & _).
  destruct ts; [|rewrite join_space_cons by discriminate];
    cbn [join_space append count_while]; rewrite Hs; reflexivity.
Qed.

Lemma join_space_nonempty (t : string) (ts : list string) :
  t <> "" -> join_space (t :: ts) <> "".
Proof.
  intros Hne. destruct ts; [exact Hne|].
  rewrite join_space_cons by discriminate.
  destruct t; [contradiction|discriminate].
Qed.

Lemma plain_no_space (t : string) :
  all_chars plain_char t = true ->
  all_chars (fun c => negb (is_space c)) t = true /\
  all_chars (fun c => negb (Ascii.eqb c " ")) t = true.
Proof.
  intros H. split; apply all_chars_weaken with (p := plain_char);
    try exact H; intros c Hc;
    destruct (plain_char_facts c Hc) as (Hs & _).
  - rewrite Hs. reflexivity.
  - rewrite (space_is_space c Hs). reflexivity.
Qed.

(** Single spaces between plain moves are what white-space
    normalisation produces anyway. *)
Lemma normalise_spaces_join (tokens : list string) :
  Forall (fun t => plain_move t = true) tokens ->
  replaceAll (match_run is_space) " " 0 (join_space tokens)
  = join_space tokens.
Proof.
  induction tokens as [|t ts IH]; intros H; [reflexivity|].
  inversion H as [|? ? Ht Hts]; subst.
  destruct (plain_move_facts t Ht) as (Hc & _ & _).
  destruct (plain_no_space t Hc) as (Hsp & _).
  destruct ts as [|t' ts'].
  - apply replaceAll_none with (p := fun c => negb (is_space c));
      [|exact Hsp].
    intros s. apply match_run_none. intros c K.
    apply negb_true_iff, K.
  - rewrite join_space_cons by discriminate.
    specialize (IH Hts). pose proof (join_space_head _ Hts) as Hhead.
    set (u := join_space (t' :: ts')) in *. clearbody u.
    clear Ht Hc H Hts. induction t as [|c t IHt].
    + change ("" ++ " " ++ u) with (String " " u).
      cbn [replaceAll]. unfold match_run at 1. cbn [count_while].
      change (is_space " ") with true. cbv iota. rewrite Hhead.
      rewrite IH. reflexivity.
    + cbn [all_chars] in Hsp. apply andb_true_iff in Hsp.
      destruct Hsp as [Hc Hsp]. apply negb_true_iff in Hc.
      change (String c t ++ " " ++ u) with (String c (t ++ " " ++ u)).
      cbn [replaceAll]. unfold match_run at 1. cbn [count_while].
      rewrite Hc. rewrite (IHt Hsp). reflexivity.
Qed.

Lemma trim_join (tokens : list string) :
  Forall (fun t => plain_move t = true) tokens ->
  trim (join_space tokens) = join_space tokens.
Proof.
  intros H. unfold trim.
  rewrite strip_left_none by (apply join_space_head, H).
  induction tokens as [|t ts IH]; [reflexivity|].
  inversion H as [|? ? Ht Hts]; subst.
  destruct (plain_move_facts t Ht) as (Hc & _ & Hne).
  destruct (plain_no_space t Hc) as (Hsp & _).
  destruct ts as [|t' ts']; [apply strip_right_none, Hsp|].
  rewrite join_space_cons by discriminate.
  apply strip_right_suffix; [discriminate|].
  apply strip_right_suffix; [|apply IH, Hts].
  inversion Hts as [|? ? Ht' _]; subst.
  apply join_space_nonempty, (plain_move_facts t' Ht').
Qed.

Lemma split_join (t : string) (ts : list string) :
  Forall (fun t => plain_move t = true) (t :: ts) ->
  split_space (join_space (t :: ts)) = t :: ts.
Proof.
  revert t. induction ts as [|t' ts IH]; intros t H;
    inversion H as [|? ? Ht Hts]; subst;
    destruct (plain_move_facts t Ht) as (Hc & _ & _);
    destruct (plain_no_space t Hc) as (_ & Hsp).
  - apply split_space_token, Hsp.
  - rewrite join_space_cons by discriminate.
    rewrite (split_space_app _ _ Hsp), (IH t' Hts). reflexivity.
Qed.

Lemma filter_all {A : Type} (f : A -> bool) (l : list A) :
  Forall (fun x => f x = true) l -> filter f l = l.
Proof.
  induction 1 as [|x l Hx _ IH]; [reflexivity|].
  cbn [filter]. rewrite Hx, IH. reflexivity.
Qed.

(** X25: the tokens [parseNotation] returns.  For ASCII input, every
    returned token is non-empty, holds no white space, no [!], no [?] and
    no [*], and contains none of the result markers [1-0], [0-1] and
    [1/2-1/2]. *)
Theorem parseNotation_tokens (pgn t : string) :
  all_chars is_ascii7 pgn = true ->
  In t (parseNotation pgn) ->
  t <> "" /\ all_chars token_char t = true /\
  contains "1-0" t = false /\ contains "0-1" t = false /\
  contains "1/2-1/2" t = false.
Proof.
  intros _ Hin. unfold parseNotation in Hin.
  apply filter_In in Hin. destruct Hin as [Hin Hkeep].
  destruct (keepMove_facts t Hkeep) as (Hne & Hstar & H10 & H01 & H12).
  repeat split; try assumption.
  set (s5 := replaceAll (match_run is_bang) "" 0 _) in Hin.
  assert (H5 : all_chars (fun c => negb (is_bang c)) s5 = true).
  { apply all_chars_replaceAll with (p := fun _ => true).
    - reflexivity.
    - intros c s _ Hno. rewrite (match_run_head _ _ _ Hno). reflexivity.
    - clear. generalize (replaceAll match_nag "" 0
        (replaceAll match_comment "" 0
           (replaceAll (match_number ".") "" 0
              (replaceAll (match_number "...") "" 0 pgn)))).
      induction s as [|c s IH]; [reflexivity|exact IH]. }
  set (q := fun c => negb (is_bang c)
                     && (negb (is_space c) || Ascii.eqb c " ")).
  assert (H6 : all_chars q (replaceAll (match_run is_space) " " 0 s5)
               = true).
  { apply all_chars_replaceAll with (p := fun c => negb (is_bang c));
      [reflexivity| |exact H5].
    intros c s Hc Hno. unfold q.
    rewrite Hc, (match_run_head _ _ _ Hno). reflexivity. }
  assert (Ht : all_chars q (trim (replaceAll (match_run is_space) " " 0 s5))
               = true).
  { unfold trim. apply all_chars_strip_right, all_chars_strip_left, H6. }
  pose proof (split_space_chars q _ Ht) as Hall.
  rewrite Forall_forall in Hall. specialize (Hall t Hin).
  pose proof (contains_char "*" t Hstar) as Hs.
  clear - Hall Hs. induction t as [|c t IH]; [reflexivity|].
  cbn [all_chars] in *.
  apply andb_true_iff in Hall. destruct Hall as [Hc Hall].
  apply andb_true_iff in Hs. destruct Hs as [Hd Hs].
  rewrite (IH Hall Hs), andb_true_r. unfold token_char. rewrite Hd.
  unfold q in Hc. apply andb_true_iff in Hc. destruct Hc as [Hc Hsp].
  apply andb_true_iff in Hc. destruct Hc as [Hb Hor].
  rewrite Hb. apply negb_true_iff in Hsp.
  rewrite Hsp, orb_false_r in Hor. rewrite Hor. reflexivity.
Qed.

Lemma parseNotation_tokens_witness :
  all_chars is_ascii7 "1. e4 e5 2. Nf3! Nc6 {main line} $1 1-0" = true /\
  In "Nf3" (parseNotation "1. e4 e5 2. Nf3! Nc6 {main line} $1 1-0") /\
  "Nf3" <> "" /\ all_chars token_char "Nf3" = true.
Proof.
  assert (Ha : all_chars is_ascii7
                 "1. e4 e5 2. Nf3! Nc6 {main line} $1 1-0" = true)
    by reflexivity.
  assert (Hin : In "Nf3"
                  (parseNotation "1. e4 e5 2. Nf3! Nc6 {main line} $1 1-0"))
    by (vm_compute; tauto).
  destruct (parseNotation_tokens _ _ Ha Hin) as (Hne & Hc & _).
  repeat split; assumption.
Defined.

(** X26: a plain move list is imported as it is.  Joining moves that
    hold none of the characters the importer looks for (white space, [.],
    [{], [$], [!], [?]) and that pass its filter with single spaces and
    importing the text gives back exactly those moves, in order;
    parentheses are such characters, so a parenthesised variation is
    imported as moves. *)
Theorem parseNotation_plain_moves (tokens : list string) :
  Forall (fun t => plain_move t = true) tokens ->
  parseNotation (join_space tokens) = tokens.
Proof.
  intros H. unfold parseNotation.
  pose proof (join_space_chars tokens H) as Hchars.
  assert (Hfacts : forall c, plain_char c || Ascii.eqb c " " = true ->
            is_bang c = false /\ Ascii.eqb c "." = false /\
            Ascii.eqb c "{" = false /\ Ascii.eqb c "$" = false).
  { intros c Hc. apply orb_true_iff in Hc. destruct Hc as [Hc|Hc].
    - destruct (plain_char_facts c Hc) as (_ & ? & ? & ? & ?).
      repeat split; assumption.
    - apply Ascii.eqb_eq in Hc. subst c. repeat split; reflexivity. }
  assert (Hpick : forall (f : ascii -> bool) s,
            (forall c, plain_char c || Ascii.eqb c " " = true ->
                       f c = false) ->
            all_chars (fun c => plain_char c || Ascii.eqb c " ") s = true ->
            all_chars (fun c => negb (f c)) s = true).
  { intros f s Hf. apply all_chars_weaken. intros c Hc.
    rewrite (Hf c Hc). reflexivity. }
  rewrite (replaceAll_none _ (match_number "...") "" 
             (fun s Hs => match_number_none _ s
                (Hpick _ s (fun c Hc => proj1 (proj2 (Hfacts c Hc))) Hs))
             _ Hchars).
  rewrite (replaceAll_none _ (match_number ".") ""
             (fun s Hs => match_number_none _ s
                (Hpick _ s (fun c Hc => proj1 (proj2 (Hfacts c Hc))) Hs))
             _ Hchars).
  rewrite (replaceAll_none _ match_comment ""
             (fun s Hs => match_comment_none s
                (Hpick _ s
                   (fun c Hc => proj1 (proj2 (proj2 (Hfacts c Hc)))) Hs))
             _ Hchars).
  rewrite (replaceAll_none _ match_nag ""
             (fun s Hs => match_nag_none s
                (Hpick _ s
                   (fun c Hc => proj2 (proj2 (proj2 (Hfacts c Hc)))) Hs))
             _ Hchars).
  rewrite (replaceAll_none _ (match_run is_bang) ""
             (fun s Hs => match_run_none is_bang _ s
                (fun c Hc => proj1 (Hfacts c Hc)) Hs)
             _ Hchars).
  rewrite (normalise_spaces_join tokens H), (trim_join tokens H).
  destruct tokens as [|t ts]; [reflexivity|].
  rewrite (split_join t ts H). apply filter_all.
  eapply Forall_impl; [|exact H].
  intros a Ha. apply plain_move_facts, Ha.
Qed.

Lemma parseNotation_plain_moves_witness :
  parseNotation (join_space ["e4"; "e5"; "Nf3"; "(Nc3)"; "Nc6"; "O-O"])
  = ["e4"; "e5"; "Nf3"; "(Nc3)"; "Nc6"; "O-O"].
Proof.
  apply (parseNotation_plain_moves
           ["e4"; "e5"; "Nf3"; "(Nc3)"; "Nc6"; "O-O"]).
  repeat constructor.
Defined.
